(** * klondiff: patience and klondike sequence matchers

    A shallow embedding of the matching core of the repository
    ([klondikediff.py], [_piersdiff_py.py], [colordiff.py],
    [klonpatiencediff.py], [patiencediff.py]) and the properties of its
    specification.

    Conventions.  Python integers are [Z]; positions produced by [range]
    and [enumerate] are [nat].  A Python list is a [list]; indexing follows
    Python (a negative index counts from the end, anything outside raises
    [IndexError]).  A dictionary is a [gmap].  A Python [str] (a byte string
    in Python 2, which the sources are written in) is a [string]; a line
    list is a [list string].  Code that can raise returns a [result].
    A method that keeps its result in a cache of the matcher is given
    twice: as the function of what a call returns or raises on a new
    matcher, and, with the suffix [_cached], as a transition on the caches
    that says what every call returns and leaves behind. *)

From Stdlib Require Import ZArith Lia Ascii String List.
From Stdlib Require DecimalString DecimalPos DecimalZ.
From stdpp Require Import base option list sorting gmap strings.

Local Open Scope Z_scope.

(** ** Python values and exceptions *)

Module Py.

(** The exceptions of the sources.  [AlgorithmError n] is the
    [Exception] of the sanity check of [get_opcodes], with its [n] error
    lines; [NameError] is what that check raises when it reports on an empty
    opcode list.  [Diverge] is no exception of Python: it marks a loop of the
    model that has used up its step bound. *)
Inductive exn : Type :=
| IndexError
| TypeError
| NameError
| ValueError (msg : string)
| AlgorithmError (errors : nat)
| Diverge.

Inductive result (A : Type) : Type :=
| Ok (x : A)
| Raise (e : exn).
Arguments Ok {A} x.
Arguments Raise {A} e.

Definition bind {A B} (r : result A) (k : A -> result B) : result B :=
  match r with
  | Ok x => k x
  | Raise e => Raise e
  end.

Definition len {A} (l : list A) : Z := Z.of_nat (length l).

(** [l[i]]: a negative index counts from the end. *)
Definition index {A} (l : list A) (i : Z) : result A :=
  let i' := if i <? 0 then i + len l else i in
  if (0 <=? i') && (i' <? len l) then
    match l !! Z.to_nat i' with
    | Some x => Ok x
    | None => Raise IndexError
    end
  else Raise IndexError.

(** [l[k]] and [l[k] = v] for a position [k] that is not negative. *)
Definition get {A} (l : list A) (k : nat) : result A :=
  match l !! k with
  | Some x => Ok x
  | None => Raise IndexError
  end.

Definition set {A} (l : list A) (k : nat) (v : A) : result (list A) :=
  if (k <? length l)%nat then Ok (<[k := v]> l) else Raise IndexError.

(** A [for] loop whose body can raise. *)
Fixpoint for_each {S E} (body : S -> E -> result S) (l : list E) (s : S) : result S :=
  match l with
  | [] => Ok s
  | e :: l' =>
      match body s e with
      | Ok s' => for_each body l' s'
      | Raise err => Raise err
      end
  end.

(** A [while] loop with a step bound. *)
Fixpoint while {S} (fuel : nat) (cond : S -> result bool) (body : S -> result S) (s : S)
    : result S :=
  match fuel with
  | O => Raise Diverge
  | S fuel' =>
      match cond s with
      | Ok true =>
          match body s with
          | Ok s' => while fuel' cond body s'
          | Raise err => Raise err
          end
      | Ok false => Ok s
      | Raise err => Raise err
      end
  end.

(** A slice bound is clamped to the list, after a negative one is counted
    from the end. *)
Definition slice_bound (n i : Z) : Z :=
  if i <? 0 then Z.max 0 (i + n) else Z.min i n.

(** [l[lo:hi]], where [None] stands for an omitted (or [None]) bound. *)
Definition slice {A} (l : list A) (lo hi : option Z) : list A :=
  let lo' := from_option (slice_bound (len l)) 0 lo in
  let hi' := from_option (slice_bound (len l)) (len l) hi in
  take (Z.to_nat (hi' - lo')) (drop (Z.to_nat lo') l).

(** [enumerate(l)] *)
Definition enumerate {A} (l : list A) : list (nat * A) := imap pair l.

(** [sep.join(l)] *)
Fixpoint join (sep : string) (l : list string) : string :=
  match l with
  | [] => EmptyString
  | [x] => x
  | x :: l' => x +:+ sep +:+ join sep l'
  end.

Definition lf : ascii := ascii_of_nat 10.
Definition cr : ascii := ascii_of_nat 13.
Definition tab : ascii := ascii_of_nat 9.
Definition nl : string := String lf EmptyString.

(** [str.isspace] on a byte: space, [\t], [\n], [\v], [\f], [\r]. *)
Definition is_space (c : ascii) : bool :=
  let n := nat_of_ascii c in
  (n =? 32)%nat || ((9 <=? n)%nat && (n <=? 13)%nat).

Fixpoint lstrip (s : list ascii) : list ascii :=
  match s with
  | c :: s' => if is_space c then lstrip s' else s
  | [] => []
  end.

Definition rstrip (s : list ascii) : list ascii := rev (lstrip (rev s)).

(** [s.strip()] *)
Definition strip (s : string) : string :=
  string_of_list_ascii (rstrip (lstrip (list_ascii_of_string s))).

End Py.

Import Py.

Notation "'let*' x := r 'in' k" := (Py.bind r (fun x => k))
  (at level 10, x pattern, r at level 100, k at level 200).

(** ** Junk clearing

    [clear_junk = re.compile(r'(.)\1*(?=\1{2})|[ \t\r\n]*')] and
    [clear_junk.sub('', s)].  At a position the first alternative is tried
    first: a character other than a line feed, then greedily further copies
    of it, such that two more copies follow.  The second alternative always
    matches, the longest run of blanks.  [sub] replaces the leftmost
    non-overlapping matches; after an empty match it copies one character
    and goes on. *)

Module ClearJunk.

(** The class [[ \t\r\n]]. *)
Definition is_blank (c : ascii) : bool :=
  Ascii.eqb c " " || Ascii.eqb c tab || Ascii.eqb c cr || Ascii.eqb c lf.

(** [.] without DOTALL. *)
Definition dot (c : ascii) : bool := negb (Ascii.eqb c lf).

(** The number of leading copies of [c]. *)
Fixpoint run_length (c : ascii) (s : list ascii) : nat :=
  match s with
  | x :: s' => if Ascii.eqb x c then S (run_length c s') else O
  | [] => O
  end.

(** [(.)\1*(?=\1{2})] at the head of [s]: the length of the match.  With
    [r] copies after the first character, the greedy [\1*] gives back
    characters until two copies are left for the lookahead. *)
Definition match_repeat (s : list ascii) : option nat :=
  match s with
  | c :: s' =>
      if dot c && (2 <=? run_length c s')%nat
      then Some (S (run_length c s' - 2))
      else None
  | [] => None
  end.

(** [[ \t\r\n]*] at the head of [s]. *)
Fixpoint match_blanks (s : list ascii) : nat :=
  match s with
  | c :: s' => if is_blank c then S (match_blanks s') else O
  | [] => O
  end.

Definition match_here (s : list ascii) : nat :=
  match match_repeat s with
  | Some n => n
  | None => match_blanks s
  end.

(** [sub('', s)]; [skip] counts the characters of the current match that
    are still to be dropped. *)
Fixpoint sub_empty (skip : nat) (s : list ascii) : list ascii :=
  match s with
  | [] => []
  | c :: s' =>
      match skip with
      | S k => sub_empty k s'
      | O =>
          match match_here s with
          | O => c :: sub_empty O s'
          | S n => sub_empty n s'
          end
      end
  end.

Definition clear_junk (s : string) : string :=
  string_of_list_ascii (sub_empty O (list_ascii_of_string s)).

(** The normalization in the words of the data model: blanks are deleted,
    and a maximal run of three or more identical characters keeps [copies]
    of them. *)
Fixpoint runs (s : list ascii) : list (ascii * nat) :=
  match s with
  | [] => []
  | c :: s' =>
      match runs s' with
      | (d, k) :: r => if Ascii.eqb c d then (c, S k) :: r else (c, 1%nat) :: (d, k) :: r
      | [] => [(c, 1%nat)]
      end
  end.

Definition collapse (copies : nat) (run : ascii * nat) : list ascii :=
  let '(c, k) := run in
  if is_blank c then []
  else if (3 <=? k)%nat then repeat c copies
  else repeat c k.

Definition junk_cleared (copies : nat) (s : string) : string :=
  string_of_list_ascii (flat_map (collapse copies) (runs (list_ascii_of_string s))).

(** A character is kept when it is no blank and fewer than two copies of it
    follow. *)
Definition kept (c : ascii) (rest : list ascii) : bool :=
  negb (is_blank c) && (run_length c rest <? 2)%nat.

Fixpoint keep_filter (s : list ascii) : list ascii :=
  match s with
  | [] => []
  | c :: s' => if kept c s' then c :: keep_filter s' else keep_filter s'
  end.

(** The first [n] positions of [s] are all dropped. *)
Fixpoint dropped_prefix (n : nat) (s : list ascii) : Prop :=
  match n, s with
  | O, _ => True
  | S k, c :: s' => kept c s' = false /\ dropped_prefix k s'
  | S _, [] => True
  end.

End ClearJunk.

Import ClearJunk.

(** ** [unique_lcs_py]

    The function is the same in [klondikediff.py] and [_piersdiff_py.py].
    [Diverge] marks a loop of the model that has used up its step bound and
    [TypeError] a [None] where a position is needed; the properties show
    that neither happens. *)

Module UniqueLCS.

(** [bisect.bisect(a, x)] of the Python library: the binary search for the
    insertion point to the right of [x]. *)
Fixpoint bisect_loop (fuel : nat) (a : list nat) (x lo hi : nat) : result nat :=
  if (lo <? hi)%nat then
    match fuel with
    | O => Raise Diverge
    | S fuel' =>
        let mid := ((lo + hi) / 2)%nat in
        let* am := get a mid in
        if (x <? am)%nat then bisect_loop fuel' a x lo mid
        else bisect_loop fuel' a x (mid + 1)%nat hi
    end
  else Ok lo.

Definition bisect (a : list nat) (x : nat) : result nat :=
  bisect_loop (length a) a x O (length a).

Section unique_lcs.
Context {A : Type} `{Countable A}.

(** [index[line] = None] for a duplicate, the position otherwise. *)
Definition index_step (index : gmap A (option nat)) (e : nat * A) : gmap A (option nat) :=
  let '(i, line) := e in
  match index !! line with
  | Some _ => <[line := None]> index
  | None => <[line := Some i]> index
  end.

Definition build_index (a : list A) : gmap A (option nat) :=
  fold_left index_step (enumerate a) ∅.

Record scan : Type := Scan {
  index : gmap A (option nat);
  index2 : gmap A nat;
  btoa : list (option nat)
}.

Definition btoa_step (st : scan) (e : nat * A) : result scan :=
  let '(pos, line) := e in
  match index st !! line with
  | Some (Some next) =>
      match index2 st !! line with
      | Some prev =>
          let* btoa' := set (btoa st) prev None in
          Ok (Scan (delete line (index st)) (index2 st) btoa')
      | None =>
          let* btoa' := set (btoa st) pos (Some next) in
          Ok (Scan (index st) (<[line := pos]> (index2 st)) btoa')
      end
  | _ => Ok st
  end.

Definition build_btoa (a b : list A) : result (list (option nat)) :=
  let* st := for_each btoa_step (enumerate b)
               (Scan (build_index a) ∅ (replicate (length b) None)) in
  Ok (btoa st).

Record piles : Type := Piles {
  backpointers : list (option nat);
  stacks : list nat;
  lasts : list nat;
  k : nat
}.

(** Which pile the next card goes on. *)
Definition choose_pile (stacks : list nat) (k apos : nat) : result nat :=
  let n := length stacks in
  let* at_end :=
    if (0 <? n)%nat then let* top := get stacks (n - 1) in Ok (top <? apos)%nat
    else Ok false in
  if at_end then Ok n
  else
    let* after_previous :=
      if (0 <? n)%nat then
        let* sk := get stacks k in
        if (sk <? apos)%nat then
          if (k =? n - 1)%nat then Ok true
          else let* sk1 := get stacks (k + 1) in Ok (apos <? sk1)%nat
        else Ok false
      else Ok false in
    if after_previous then Ok (k + 1)%nat
    else bisect stacks apos.

Definition patience_step (st : piles) (e : nat * option nat) : result piles :=
  let '(bpos, o) := e in
  match o with
  | None => Ok st
  | Some apos =>
      let* k' := choose_pile (stacks st) (k st) apos in
      let* backpointers' :=
        if (0 <? k')%nat then
          let* below := get (lasts st) (k' - 1) in
          set (backpointers st) bpos (Some below)
        else Ok (backpointers st) in
      if (k' <? length (stacks st))%nat then
        let* stacks' := set (stacks st) k' apos in
        let* lasts' := set (lasts st) k' bpos in
        Ok (Piles backpointers' stacks' lasts' k')
      else
        Ok (Piles backpointers' (stacks st ++ [apos]) (lasts st ++ [bpos]) k')
  end.

(** [while k is not None: result.append((btoa[k], k)); k = backpointers[k]] *)
Fixpoint follow (fuel : nat) (btoa backpointers : list (option nat))
    (k : option nat) (result : list (nat * nat)) : Py.result (list (nat * nat)) :=
  match k with
  | None => Ok result
  | Some k =>
      match fuel with
      | O => Raise Diverge
      | S fuel' =>
          let* ak := get btoa k in
          match ak with
          | None => Raise TypeError
          | Some apos =>
              let* k' := get backpointers k in
              follow fuel' btoa backpointers k' (result ++ [(apos, k)])
          end
      end
  end.

Definition unique_lcs_py (a b : list A) : result (list (nat * nat)) :=
  let* btoa := build_btoa a b in
  let* st := for_each patience_step (enumerate btoa)
               (Piles (replicate (length b) None) [] [] O) in
  match last (lasts st) with
  | None => Ok []
  | Some top =>
      let* result := follow (length b) btoa (backpointers st) (Some top) [] in
      Ok (rev result)
  end.

(** [x] occurs in [l] at position [i] and nowhere else. *)
Definition once_at (l : list A) (x : A) (i : nat) : Prop :=
  l !! i = Some x /\ forall j, l !! j = Some x -> j = i.

(** [x] occurs at least twice in [l]. *)
Definition twice (l : list A) (x : A) : Prop :=
  exists i j, i <> j /\ l !! i = Some x /\ l !! j = Some x.

(** The pair matches an element that occurs exactly once on each side. *)
Definition unique_match (a b : list A) (p : nat * nat) : Prop :=
  exists x, once_at a x p.1 /\ once_at b x p.2.

End unique_lcs.

(** Strictly increasing in both coordinates. *)
Definition before (p q : nat * nat) : Prop := (p.1 < q.1)%nat /\ (p.2 < q.2)%nat.

Definition increasing (c : list (nat * nat)) : Prop := StronglySorted before c.

(** A common subsequence of [a] and [b] restricted to the elements that occur
    exactly once in each. *)
Definition unique_common_subsequence {A} (a b : list A) (c : list (nat * nat)) : Prop :=
  increasing c /\ Forall (unique_match a b) c.

End UniqueLCS.

Import UniqueLCS.

(** ** The patience matcher of [_piersdiff_py.py] *)

Abbreviation pairs := (list (Z * Z)).
Abbreviation block := (Z * Z * Z)%type.

Module Patience.
Section recurse_matches.
Context {A : Type} `{Countable A}.

(** The body of [for apos, bpos in unique_lcs_py(a[alo:ahi], b[blo:bhi])];
    [recurse] is the call with [maxrecursion - 1]. *)
Definition anchor_step (recurse : Z -> Z -> Z -> Z -> pairs -> result pairs)
    (alo blo : Z) (st : Z * Z * pairs) (e : nat * nat) : result (Z * Z * pairs) :=
  let '(last_a_pos, last_b_pos, answer) := st in
  let apos := Z.of_nat e.1 + alo in
  let bpos := Z.of_nat e.2 + blo in
  let* answer :=
    if negb (last_a_pos + 1 =? apos) || negb (last_b_pos + 1 =? bpos)
    then recurse (last_a_pos + 1) (last_b_pos + 1) apos bpos answer
    else Ok answer in
  Ok (apos, bpos, answer ++ [(apos, bpos)]).

(** [while alo < ahi and blo < bhi and a[alo] == b[blo]] *)
Definition head_cond (a b : list A) (ahi bhi : Z) (st : Z * Z * pairs) : result bool :=
  let '(alo, blo, _) := st in
  if (alo <? ahi) && (blo <? bhi) then
    let* x := Py.index a alo in
    let* y := Py.index b blo in
    Ok (bool_decide (x = y))
  else Ok false.

Definition head_body (st : Z * Z * pairs) : result (Z * Z * pairs) :=
  let '(alo, blo, answer) := st in
  Ok (alo + 1, blo + 1, answer ++ [(alo, blo)]).

(** [while nahi > alo and nbhi > blo and a[nahi - 1] == b[nbhi - 1]] *)
Definition tail_cond (a b : list A) (alo blo : Z) (st : Z * Z) : result bool :=
  let '(nahi, nbhi) := st in
  if (alo <? nahi) && (blo <? nbhi) then
    let* x := Py.index a (nahi - 1) in
    let* y := Py.index b (nbhi - 1) in
    Ok (bool_decide (x = y))
  else Ok false.

Definition tail_body (st : Z * Z) : result (Z * Z) :=
  let '(nahi, nbhi) := st in Ok (nahi - 1, nbhi - 1).

(** [depth] is [maxrecursion + 1]: [O] is [maxrecursion < 0]. *)
Fixpoint recurse_matches_rec (depth : nat) (a b : list A) (alo blo ahi bhi : Z)
    (answer : pairs) : result pairs :=
  match depth with
  | O => Ok answer
  | S depth' =>
      let oldlength := length answer in
      if (alo =? ahi) || (blo =? bhi) then Ok answer
      else
        let* lcs := unique_lcs_py (slice a (Some alo) (Some ahi))
                                  (slice b (Some blo) (Some bhi)) in
        let* (last_a_pos, last_b_pos, answer) :=
          for_each (anchor_step (recurse_matches_rec depth' a b) alo blo) lcs
            (alo - 1, blo - 1, answer) in
        if (oldlength <? length answer)%nat then
          recurse_matches_rec depth' a b (last_a_pos + 1) (last_b_pos + 1) ahi bhi answer
        else
          let* a0 := Py.index a alo in
          let* b0 := Py.index b blo in
          if bool_decide (a0 = b0) then
            let* (alo', blo', answer) :=
              while (Z.to_nat (ahi - alo) + 1) (head_cond a b ahi bhi) head_body
                (alo, blo, answer) in
            recurse_matches_rec depth' a b alo' blo' ahi bhi answer
          else
            let* a1 := Py.index a (ahi - 1) in
            let* b1 := Py.index b (bhi - 1) in
            if bool_decide (a1 = b1) then
              let* (nahi, nbhi) :=
                while (Z.to_nat (ahi - alo) + 1) (tail_cond a b alo blo) tail_body
                  (ahi - 1, bhi - 1) in
              let* answer :=
                recurse_matches_rec depth' a b (last_a_pos + 1) (last_b_pos + 1)
                  nahi nbhi answer in
              Ok (answer ++ map (fun i => (nahi + i, nbhi + i)) (seqZ 0 (ahi - nahi)))
            else Ok answer
  end.

Definition recurse_matches_py (a b : list A) (alo blo ahi bhi : Z) (answer : pairs)
    (maxrecursion : Z) : result pairs :=
  recurse_matches_rec (Z.to_nat (maxrecursion + 1)) a b alo blo ahi bhi answer.

End recurse_matches.

(** [_collapse_sequences]: the state is the answer, [(start_a, start_b)]
    ([None] before the first pair) and [length]. *)
Definition collapse_step (st : list block * option (Z * Z) * Z) (m : Z * Z)
    : list block * option (Z * Z) * Z :=
  let '(answer, start, length) := st in
  let '(i_a, i_b) := m in
  match start with
  | Some (start_a, start_b) =>
      if (i_a =? start_a + length) && (i_b =? start_b + length)
      then (answer, start, length + 1)
      else (answer ++ [(start_a, start_b, length)], Some (i_a, i_b), 1)
  | None => (answer, Some (i_a, i_b), 1)
  end.

Definition _collapse_sequences (matches : pairs) : list block :=
  let '(answer, start, length) := fold_left collapse_step matches ([], None, 0) in
  match start with
  | Some (start_a, start_b) =>
      if length =? 0 then answer else answer ++ [(start_a, start_b, length)]
  | None => answer
  end.

Fixpoint check_from (answer : list block) (next_a next_b : Z) : result unit :=
  match answer with
  | [] => Ok tt
  | (a, b, match_len) :: rest =>
      if a <? next_a then Raise (ValueError "Non increasing matches for a")
      else if b <? next_b then Raise (ValueError "Non increasing matches for b")
      else check_from rest (a + match_len) (b + match_len)
  end.

Definition _check_consistency (answer : list block) : result unit :=
  check_from answer (-1) (-1).

(** [[m for m in matches if self.a[m[0]] == self.b[m[1]]]] *)
Fixpoint filter_equal (a b : list string) (matches : pairs) : result pairs :=
  match matches with
  | [] => Ok []
  | (i, j) :: rest =>
      let* x := Py.index a i in
      let* y := Py.index b j in
      let* rest' := filter_equal a b rest in
      Ok (if bool_decide (x = y) then (i, j) :: rest' else rest')
  end.

(** [PatienceSequenceMatcher_py.get_matching_blocks], with the recursion
    bound as a parameter (the source passes 10). *)
Definition get_matching_blocks_bounded (maxrecursion : Z) (a b : list string)
    : result (list block) :=
  let a_ws := map strip a in
  let b_ws := map strip b in
  let* matches := recurse_matches_py a_ws b_ws 0 0 (len a) (len b) [] maxrecursion in
  let* matches := filter_equal a b matches in
  let matching_blocks := _collapse_sequences matches ++ [(len a, len b, 0)] in
  let* _ := _check_consistency matching_blocks in
  Ok matching_blocks.

Definition get_matching_blocks (a b : list string) : result (list block) :=
  get_matching_blocks_bounded 10 a b.

End Patience.

(** ** The classical matcher

    [difflib.SequenceMatcher(None, a, b).get_matching_blocks()] belongs to
    the Python library, not to the repository.  The matchers below take it
    as a parameter; this module models it after [difflib.py] of Python 2.7
    (no junk predicate, the automatic junk heuristic on) for running the
    matchers on concrete inputs. *)

Module Difflib.
Section difflib.
Context {A : Type} `{Countable A}.
Local Open Scope nat_scope.

(** [__chain_b]: the positions of each element of [b], without the
    elements that occur more than [n // 100 + 1] times when [n >= 200]. *)
Definition chain_b (b : list A) : gmap A (list nat) :=
  let b2j := fold_left (fun (m : gmap A (list nat)) e =>
               <[e.2 := default [] (m !! e.2) ++ [e.1]]> m) (enumerate b) ∅ in
  let n := length b in
  if 200 <=? n then filter (fun e => length e.2 <= n / 100 + 1) b2j else b2j.

Definition best : Type := nat * nat * nat.

(** The loop over [j in b2j.get(a[i], nothing)]. *)
Fixpoint longest_at (js : list nat) (blo bhi i : nat) (j2len newj2len : gmap nat nat)
    (bst : best) : gmap nat nat * best :=
  match js with
  | [] => (newj2len, bst)
  | j :: js' =>
      if j <? blo then longest_at js' blo bhi i j2len newj2len bst
      else if bhi <=? j then (newj2len, bst)
      else
        let k := match j with O => O | S j' => default O (j2len !! j') end + 1 in
        let bst' := if bst.2 <? k then (i + 1 - k, j + 1 - k, k) else bst in
        longest_at js' blo bhi i j2len (<[j := k]> newj2len) bst'
  end.

Definition grow_back_cond (a b : list A) (alo blo : nat) (bst : best) : result bool :=
  let '(besti, bestj, _) := bst in
  if (alo <? besti) && (blo <? bestj) then
    let* x := get a (besti - 1) in
    let* y := get b (bestj - 1) in
    Ok (bool_decide (x = y))
  else Ok false.

Definition grow_forth_cond (a b : list A) (ahi bhi : nat) (bst : best) : result bool :=
  let '(besti, bestj, bestsize) := bst in
  if (besti + bestsize <? ahi) && (bestj + bestsize <? bhi) then
    let* x := get a (besti + bestsize) in
    let* y := get b (bestj + bestsize) in
    Ok (bool_decide (x = y))
  else Ok false.

Definition find_longest_match (a b : list A) (b2j : gmap A (list nat))
    (alo ahi blo bhi : nat) : result best :=
  let* (_, bst) :=
    for_each (fun (st : gmap nat nat * best) i =>
        let* x := get a i in
        Ok (longest_at (default [] (b2j !! x)) blo bhi i st.1 ∅ st.2))
      (seq alo (ahi - alo)) (∅, (alo, blo, 0)) in
  let* bst := while (length a + 1) (grow_back_cond a b alo blo)
    (fun bst => Ok (bst.1.1 - 1, bst.1.2 - 1, bst.2 + 1)) bst in
  while (length a + 1) (grow_forth_cond a b ahi bhi)
    (fun bst => Ok (bst.1.1, bst.1.2, bst.2 + 1)) bst.

(** [while queue: ...] *)
Fixpoint match_queue (fuel : nat) (a b : list A) (b2j : gmap A (list nat))
    (queue : list (nat * nat * nat * nat)) (matching_blocks : list best)
    : result (list best) :=
  match queue with
  | [] => Ok matching_blocks
  | _ :: _ =>
      match fuel with
      | O => Raise Diverge
      | S fuel' =>
          let '(alo, ahi, blo, bhi) := List.last queue (0, 0, 0, 0) in
          let queue := removelast queue in
          let* (i, j, k) := find_longest_match a b b2j alo ahi blo bhi in
          if 0 <? k then
            let queue := if (alo <? i) && (blo <? j) then queue ++ [(alo, i, blo, j)] else queue in
            let queue :=
              if (i + k <? ahi) && (j + k <? bhi) then queue ++ [(i + k, ahi, j + k, bhi)]
              else queue in
            match_queue fuel' a b b2j queue (matching_blocks ++ [(i, j, k)])
          else match_queue fuel' a b b2j queue matching_blocks
      end
  end.

(** The order of tuples. *)
Definition best_le (x y : best) : Prop :=
  x.1.1 < y.1.1 \/ (x.1.1 = y.1.1 /\ (x.1.2 < y.1.2 \/ (x.1.2 = y.1.2 /\ x.2 <= y.2))).

#[local] Instance best_le_dec x y : Decision (best_le x y).
Proof. unfold best_le. apply _. Defined.

Definition merge_adjacent (st : list best * best) (m : best) : list best * best :=
  let '(non_adjacent, (i1, j1, k1)) := st in
  let '(i2, j2, k2) := m in
  if (i1 + k1 =? i2) && (j1 + k1 =? j2) then (non_adjacent, (i1, j1, k1 + k2))
  else ((if 0 <? k1 then non_adjacent ++ [(i1, j1, k1)] else non_adjacent), (i2, j2, k2)).

Definition get_matching_blocks (a b : list A) : result (list block) :=
  let la := length a in
  let lb := length b in
  let* matching_blocks :=
    match_queue (2 * (la + lb) + 2) a b (chain_b b) [(0, la, 0, lb)] [] in
  let '(non_adjacent, (i1, j1, k1)) :=
    fold_left merge_adjacent (merge_sort best_le matching_blocks) ([], (0, 0, 0)) in
  let non_adjacent := if 0 <? k1 then non_adjacent ++ [(i1, j1, k1)] else non_adjacent in
  Ok (map (fun m : best => (Z.of_nat m.1.1, Z.of_nat m.1.2, Z.of_nat m.2))
        (non_adjacent ++ [(la, lb, 0)])).

End difflib.
End Difflib.

(** ** Opcodes *)

Inductive tag : Type := Equal | Replace | Insert | Delete.

#[global] Instance tag_eq_dec : EqDecision tag.
Proof. solve_decision. Defined.

Abbreviation opcode := (tag * Z * Z * Z * Z)%type.

(** The type of the classical matcher, for any kind of element. *)
Definition matcher : Type :=
  forall (A : Type) (EqA : EqDecision A) (CountA : Countable A),
    list A -> list A -> result (list block).

(** ** The klondike matcher of [klondikediff.py]

    [get_nearly_matching_blocks] and [get_opcodes] of [_piersdiff_py.py]
    share its loops, which are the same text there. *)

Module Klondike.
Section klondike.
Variable difflib_blocks : matcher.

(** [a_ws[i] == b_ws[i]] *)
Definition same_at (a_ws b_ws : list string) (i : Z) : result bool :=
  let* x := Py.index a_ws i in
  let* y := Py.index b_ws i in
  Ok (bool_decide (x = y)).

(** [while a_ws[start_line] == b_ws[start_line]: start_line += 1] *)
Definition common_prefix (a_ws b_ws : list string) : result Z :=
  while (length a_ws + 1) (same_at a_ws b_ws) (fun start_line => Ok (start_line + 1)) 0.

(** [while a_ws[end_line] == b_ws[end_line]: end_line -= 1] *)
Definition common_suffix (a_ws b_ws : list string) : result Z :=
  while (length a_ws + 1) (same_at a_ws b_ws) (fun end_line => Ok (end_line - 1)) (-1).

(** [a_ws[apos + d] == b_ws[bpos + d]] *)
Definition same_off (a_ws b_ws : list string) (apos bpos d : Z) : result bool :=
  let* x := Py.index a_ws (apos + d) in
  let* y := Py.index b_ws (bpos + d) in
  Ok (bool_decide (x = y)).

(** The body of [for apos, bpos in result]; the state is [matches],
    [last_a] and [last_b]. *)
Definition grow_step (a_ws b_ws : list string) (st : list block * Z * Z) (e : Z * Z)
    : result (list block * Z * Z) :=
  let '(matches, last_a, last_b) := st in
  let '(apos, bpos) := e in
  if apos <=? last_a then Ok st
  else
    let* start := while (Z.to_nat (apos + len a_ws) + 1) (same_off a_ws b_ws apos bpos)
                    (fun start => Ok (start - 1)) (-1) in
    let start := start + 1 in
    let* end_ := while (Z.to_nat (len a_ws - apos) + 1) (same_off a_ws b_ws apos bpos)
                   (fun end_ => Ok (end_ + 1)) 1 in
    let* matches :=
      if (last_a <? apos + start) && (last_b <? bpos + start)
         && (last_a + last_b + 2 <? apos + bpos + 2 * start)
      then
        let* in_matches :=
          difflib_blocks string _ _
            (slice a_ws (Some last_a) (Some (apos + start)))
            (slice b_ws (Some last_b) (Some (bpos + start))) in
        Ok (matches ++ map (fun m : block => (m.1.1 + last_a, m.1.2 + last_b, m.2))
                         (List.filter (fun m : block => negb (m.2 =? 0)) in_matches))
      else Ok matches in
    Ok (matches ++ [(apos + start, bpos + start, end_ - start)], apos + end_, bpos + end_).

(** [for k in range(d): if a_ws[matches[n+1][0] + d - k - 1] == '': ...]: the
    first such [k]. *)
Fixpoint first_blank (a_ws : list string) (base : Z) (ks : list Z) : result (option Z) :=
  match ks with
  | [] => Ok None
  | k :: ks' =>
      let* line := Py.index a_ws (base - k - 1) in
      if bool_decide (line = EmptyString) then Ok (Some k) else first_blank a_ws base ks'
  end.

(** The body of [for n, (apos, bpos, size) in enumerate(matches[:-1])], which
    updates [matches] in place. *)
Definition shift_step (a_ws : list string) (matches : list block) (e : nat * block)
    : result (list block) :=
  let '(n, (apos, bpos, size)) := e in
  let* next := get matches (n + 1) in
  let d := Z.max (apos + size - next.1.1) (bpos + size - next.1.2) in
  if 0 <? d then
    let* blank := first_blank a_ws (next.1.1 + d) (seqZ 0 d) in
    let* (matches, d) :=
      match blank with
      | Some k =>
          let* this := get matches n in
          let* matches := set matches n (this.1.1, this.1.2, this.2 - k) in
          Ok (matches, d - k)
      | None => Ok (matches, d)
      end in
    let* next := get matches (n + 1) in
    set matches (n + 1) (next.1.1 + d, next.1.2 + d, next.2 - d)
  else Ok matches.

Definition shift_blocks (a_ws : list string) (matches : list block) : result (list block) :=
  for_each (shift_step a_ws) (enumerate (removelast matches)) matches.

(** [_check_consistency] of [klondikediff.py]. *)
Definition _check_consistency (answer : list block) : result unit :=
  Patience.check_from answer (-1) (-1).

(** [KlondikeSequenceMatcher.get_matching_blocks] on a matcher whose cache
    [self.matching_blocks] is empty, up to the assignment
    [self.matching_blocks = matches]. *)
Definition shifted_matches (a b : list string) : result (list block) :=
  let a_ws := map clear_junk a in
  let b_ws := map clear_junk b in
  let* start_line := common_prefix a_ws b_ws in
  let* end_line := common_suffix a_ws b_ws in
  let end_line := end_line + 1 in
  let end_line := if end_line =? 0 then None else Some end_line in
  let* result := unique_lcs_py (slice a_ws (Some start_line) end_line)
                               (slice b_ws (Some start_line) end_line) in
  let result := map (fun e : nat * nat =>
                       (Z.of_nat e.1 + start_line, Z.of_nat e.2 + start_line)) result in
  let matches := if start_line =? 0 then [] else [(0, 0, start_line)] in
  let* (matches, _, _) := for_each (grow_step a_ws b_ws) result (matches, start_line, start_line) in
  let matches :=
    match end_line with
    | Some end_line => matches ++ [(len a_ws + end_line, len b_ws + end_line, - end_line)]
    | None => matches
    end in
  let matches := matches ++ [(len a_ws, len b_ws, 0)] in
  shift_blocks a_ws matches.

(** [KlondikeSequenceMatcher.get_matching_blocks]: what a call returns or
    raises on a matcher whose cache [self.matching_blocks] is empty, as it
    is on a new matcher.  The cache is part of [get_matching_blocks_cached]
    below. *)
Definition get_matching_blocks (a b : list string) : result (list block) :=
  let* matches := shifted_matches a b in
  let* _ := _check_consistency matches in
  Ok matches.

(** [add_tag] *)
Definition add_tag (t : Z * Z * Z * Z) : opcode :=
  let '(i1, i2, j1, j2) := t in
  let tg := if i1 =? i2 then Insert else if j1 =? j2 then Delete else Replace in
  (tg, i1, i2, j1, j2).

(** [while cur_a <= m[0]: cur_a += len(self.a_ws[i+cur_an]) + 2; cur_an += 1] *)
Definition line_of (ws : list string) (i : Z) (offset : Z) (cur : Z * Z) : result (Z * Z) :=
  while (Z.to_nat offset + 2)
    (fun cur : Z * Z => Ok (cur.1 <=? offset))
    (fun cur : Z * Z =>
       let* line := Py.index ws (i + cur.2) in
       Ok (cur.1 + Z.of_nat (String.length line) + 2, cur.2 + 1))
    cur.

Record split_state : Type := Split {
  cur_a : Z; cur_an : Z; cur_b : Z; cur_bn : Z;
  prev_an : Z; prev_bn : Z;
  split_answer : list opcode
}.

(** The body of [for m in matches] in the extra-effort path. *)
Definition split_step (a b a_ws b_ws : list string) (i j : Z) (st : split_state) (m : block)
    : result split_state :=
  if 5 <=? m.2 then
    let* (cur_a', cur_an') := line_of a_ws i m.1.1 (cur_a st, cur_an st) in
    let* (cur_b', cur_bn') := line_of b_ws j m.1.2 (cur_b st, cur_bn st) in
    if (prev_an st <? cur_an') && (prev_bn st <? cur_bn') then
      let answer1 :=
        if (prev_an st <? cur_an' - 1) || (prev_bn st <? cur_bn' - 1)
        then split_answer st ++
               [add_tag (i + prev_an st, i + cur_an' - 1, j + prev_bn st, j + cur_bn' - 1)]
        else split_answer st in
      let* x := Py.index a (i + cur_an' - 1) in
      let* y := Py.index b (j + cur_bn' - 1) in
      let tg := if bool_decide (x = y) then Equal else Replace in
      Ok (Split cur_a' cur_an' cur_b' cur_bn' cur_an' cur_bn'
            (answer1 ++ [(tg, i + cur_an' - 1, i + cur_an', j + cur_bn' - 1, j + cur_bn')]))
    else Ok (Split cur_a' cur_an' cur_b' cur_bn' (prev_an st) (prev_bn st) (split_answer st))
  else Ok st.

(** The replace of [a[i:ai]] by [b[j:bj]] with extra effort. *)
Definition split_replace (a b a_ws b_ws : list string) (i ai j bj : Z) (answer : list opcode)
    : result (list opcode) :=
  let ja := join ("a" +:+ nl) (slice a_ws (Some i) (Some ai)) in
  let jb := join ("b" +:+ nl) (slice b_ws (Some j) (Some bj)) in
  let* matches := difflib_blocks ascii _ _ (list_ascii_of_string ja) (list_ascii_of_string jb) in
  let* st := for_each (split_step a b a_ws b_ws i j) matches (Split 0 0 0 0 0 0 answer) in
  if (i + prev_an st <? ai) || (j + prev_bn st <? bj)
  then Ok (split_answer st ++ [add_tag (i + prev_an st, ai, j + prev_bn st, bj)])
  else Ok (split_answer st).

(** [# check matches for junk changes]: the state is [n1] and [answer]. *)
Definition junk_step (a b : list string) (ai bj : Z) (st : Z * list opcode) (n : Z)
    : result (Z * list opcode) :=
  let '(n1, answer) := st in
  let* x := Py.index a (ai + n) in
  let* y := Py.index b (bj + n) in
  if bool_decide (x = y) then Ok st
  else
    let answer := if n1 <? n then answer ++ [(Equal, ai + n1, ai + n, bj + n1, bj + n)]
                  else answer in
    Ok (n + 1, answer ++ [(Replace, ai + n, ai + n + 1, bj + n, bj + n + 1)]).

Definition junk_changes (a b : list string) (ai bj size : Z) (answer : list opcode)
    : result (list opcode) :=
  let* (n1, answer) := for_each (junk_step a b ai bj) (seqZ 0 size) (0, answer) in
  if n1 <? size then Ok (answer ++ [(Equal, ai + n1, ai + size, bj + n1, bj + size)])
  else Ok answer.

(** [# sanity check if both documents are fully covered]; an error stands
    for its message. *)
Definition cover_step (st : list opcode * Z * Z) (o : opcode) : list opcode * Z * Z :=
  let '(errors, i3, j3) := st in
  let '(t, i1, i2, j1, j2) := o in
  (if (i1 =? i3) && (j1 =? j3) then errors else errors ++ [o], i2, j2).

Definition sanity_check (a b : list string) (answer : list opcode) : result (list opcode) :=
  let '(errors, i3, j3) := fold_left cover_step answer ([], 0, 0) in
  let* errors :=
    if (i3 =? len a) && (j3 =? len b) then Ok errors
    else
      match last answer with
      | Some o => Ok (errors ++ [o])
      | None => Raise NameError
      end in
  match errors with
  | [] => Ok answer
  | _ :: _ => Raise (AlgorithmError (length errors))
  end.

(** The body of [for ai, bj, size in self.get_matching_blocks()] of
    [KlondikeSequenceMatcher.get_opcodes]; the state is [i], [j] and [answer]. *)
Definition opcode_step (extra_effort : bool) (a b a_ws b_ws : list string)
    (st : Z * Z * list opcode) (blk : block) : result (Z * Z * list opcode) :=
  let '(i, j, answer) := st in
  let '(ai, bj, size) := blk in
  let* answer :=
    if (i <? ai) && (j <? bj) then
      if extra_effort && ((i <? ai - 1) || (j <? bj - 1))
      then split_replace a b a_ws b_ws i ai j bj answer
      else Ok (answer ++ [(Replace, i, ai, j, bj)])
    else if i <? ai then Ok (answer ++ [(Delete, i, ai, j, bj)])
    else if j <? bj then Ok (answer ++ [(Insert, i, ai, j, bj)])
    else Ok answer in
  let* answer := junk_changes a b ai bj size answer in
  Ok (ai + size, bj + size, answer).

(** [KlondikeSequenceMatcher.get_opcodes]: what a call returns or raises on
    a matcher whose caches [self.matching_blocks] and [self.opcodes] are
    empty, as they are on a new matcher.  The caches, and the list that a
    call which raises leaves in [self.opcodes], are part of
    [get_opcodes_cached] below.  The two [print] statements of the
    extra-effort path write to the standard output and are left out. *)
Definition get_opcodes_with (extra_effort : bool) (a b : list string) : result (list opcode) :=
  let* blocks := get_matching_blocks a b in
  let a_ws := map clear_junk a in
  let b_ws := map clear_junk b in
  let* (_, _, answer) :=
    for_each (opcode_step extra_effort a b a_ws b_ws) blocks (0, 0, []) in
  sanity_check a b answer.

Definition get_opcodes (a b : list string) : result (list opcode) :=
  get_opcodes_with true a b.

(** [PatienceSequenceMatcher_py.get_nearly_matching_blocks] of
    [_piersdiff_py.py], on a matcher whose cache
    [self.nearly_matching_blocks] is empty; the cache is part of
    [get_nearly_matching_blocks_cached] below. *)
Definition get_nearly_matching_blocks (a b : list string) : result (list block) :=
  let a_ws := map clear_junk a in
  let b_ws := map clear_junk b in
  let* start_line := common_prefix a_ws b_ws in
  let* end_line := common_suffix a_ws b_ws in
  let* result := unique_lcs_py (slice a_ws (Some start_line) (Some end_line))
                               (slice b_ws (Some start_line) (Some end_line)) in
  let result := map (fun e : nat * nat =>
                       (Z.of_nat e.1 + start_line, Z.of_nat e.2 + start_line)) result in
  let matches := if start_line =? 0 then [] else [(0, 0, start_line)] in
  let* (matches, _, _) := for_each (grow_step a_ws b_ws) result (matches, start_line, start_line) in
  let matches :=
    if end_line <? -1
    then matches ++ [(len a_ws + end_line, len b_ws + end_line, - end_line)]
    else matches in
  let matches := matches ++ [(len a_ws, len b_ws, 0)] in
  shift_blocks a_ws matches.

(** [PatienceSequenceMatcher_py.get_opcodes] of [_piersdiff_py.py]: what a
    call returns or raises on a matcher whose caches are empty; the caches
    are part of [piers_get_opcodes_cached] below. *)
Definition piers_opcode_step (a b : list string) (st : Z * Z * list opcode) (blk : block)
    : result (Z * Z * list opcode) :=
  opcode_step false a b [] [] st blk.

Definition piers_get_opcodes (a b : list string) : result (list opcode) :=
  let* blocks := get_nearly_matching_blocks a b in
  let* (_, _, answer) := for_each (piers_opcode_step a b) blocks (0, 0, []) in
  sanity_check a b answer.

(** *** The matcher object and its caches

    A matcher keeps the blocks in [self.matching_blocks] (the matcher of
    [_piersdiff_py.py]: in [self.nearly_matching_blocks]) and the opcodes
    in [self.opcodes]; [None] is an empty cache.  [self.a_ws] and
    [self.b_ws] are the junk-cleared [self.a] and [self.b] whenever they
    are read, and are no part of the state. *)
Record caches : Type := Caches {
  matching_blocks : option (list block);
  opcodes : option (list opcode)
}.

(** The caches of a new matcher. *)
Definition fresh : caches := Caches None None.

(** A method call returns or raises, and leaves the caches in a new state
    either way. *)
Definition method (X : Type) : Type := caches -> result X * caches.

Definition unit_method {X} (x : X) : method X := fun c => (Ok x, c).

(** A computation that does not touch the caches. *)
Definition lift {X} (r : result X) : method X := fun c => (r, c).

Definition bind_method {X Y} (m : method X) (k : X -> method Y) : method Y :=
  fun c =>
    match m c with
    | (Ok x, c') => k x c'
    | (Raise e, c') => (Raise e, c')
    end.

Notation "'do*' x := m 'in' k" := (bind_method m (fun x => k))
  (at level 10, x pattern, m at level 200, k at level 200, only parsing).

(** A [for] loop whose body changes the caches. *)
Fixpoint each {S E} (body : S -> E -> method S) (l : list E) (s : S) : method S :=
  match l with
  | [] => unit_method s
  | e :: l' => do* s' := body s e in each body l' s'
  end.

(** [answer.append(o)]: [answer] is the list that [self.opcodes] holds. *)
Definition append (o : opcode) : method unit :=
  fun c => (Ok tt, Caches (matching_blocks c) (Some (default [] (opcodes c) ++ [o]))).

(** [KlondikeSequenceMatcher.get_matching_blocks] with its cache, which is
    filled before [_check_consistency] runs. *)
Definition get_matching_blocks_cached (a b : list string) : method (list block) :=
  fun c =>
    match matching_blocks c with
    | Some blocks => (Ok blocks, c)
    | None =>
        match shifted_matches a b with
        | Ok matches =>
            (let* _ := _check_consistency matches in Ok matches,
             Caches (Some matches) (opcodes c))
        | Raise e => (Raise e, c)
        end
    end.

(** [PatienceSequenceMatcher_py.get_nearly_matching_blocks] with its
    cache. *)
Definition get_nearly_matching_blocks_cached (a b : list string) : method (list block) :=
  fun c =>
    match matching_blocks c with
    | Some blocks => (Ok blocks, c)
    | None =>
        match get_nearly_matching_blocks a b with
        | Ok matches => (Ok matches, Caches (Some matches) (opcodes c))
        | Raise e => (Raise e, c)
        end
    end.

(** The body of [for m in matches] in the extra-effort path; [vars] are
    [cur_a], [cur_an], [cur_b], [cur_bn], [prev_an] and [prev_bn]. *)
Definition split_step_cached (a b a_ws b_ws : list string) (i j : Z)
    (vars : Z * Z * Z * Z * Z * Z) (m : block) : method (Z * Z * Z * Z * Z * Z) :=
  let '(at_a, at_an, at_b, at_bn, done_an, done_bn) := vars in
  if 5 <=? m.2 then
    do* (at_a, at_an) := lift (line_of a_ws i m.1.1 (at_a, at_an)) in
    do* (at_b, at_bn) := lift (line_of b_ws j m.1.2 (at_b, at_bn)) in
    if (done_an <? at_an) && (done_bn <? at_bn) then
      do* _ := (if (done_an <? at_an - 1) || (done_bn <? at_bn - 1)
                then append (add_tag (i + done_an, i + at_an - 1, j + done_bn, j + at_bn - 1))
                else unit_method tt) in
      do* x := lift (Py.index a (i + at_an - 1)) in
      do* y := lift (Py.index b (j + at_bn - 1)) in
      let tg := if bool_decide (x = y) then Equal else Replace in
      do* _ := append (tg, i + at_an - 1, i + at_an, j + at_bn - 1, j + at_bn) in
      unit_method (at_a, at_an, at_b, at_bn, at_an, at_bn)
    else unit_method (at_a, at_an, at_b, at_bn, done_an, done_bn)
  else unit_method vars.

(** The replace of [a[i:ai]] by [b[j:bj]] with extra effort. *)
Definition split_replace_cached (a b a_ws b_ws : list string) (i ai j bj : Z) : method unit :=
  let ja := join ("a" +:+ nl) (slice a_ws (Some i) (Some ai)) in
  let jb := join ("b" +:+ nl) (slice b_ws (Some j) (Some bj)) in
  do* matches := lift (difflib_blocks ascii _ _ (list_ascii_of_string ja)
                         (list_ascii_of_string jb)) in
  do* vars := each (split_step_cached a b a_ws b_ws i j) matches (0, 0, 0, 0, 0, 0) in
  let '(_, _, _, _, done_an, done_bn) := vars in
  if (i + done_an <? ai) || (j + done_bn <? bj)
  then append (add_tag (i + done_an, ai, j + done_bn, bj))
  else unit_method tt.

(** [# check matches for junk changes]; the state is [n1]. *)
Definition junk_step_cached (a b : list string) (ai bj : Z) (n1 n : Z) : method Z :=
  do* x := lift (Py.index a (ai + n)) in
  do* y := lift (Py.index b (bj + n)) in
  if bool_decide (x = y) then unit_method n1
  else
    do* _ := (if n1 <? n then append (Equal, ai + n1, ai + n, bj + n1, bj + n)
              else unit_method tt) in
    do* _ := append (Replace, ai + n, ai + n + 1, bj + n, bj + n + 1) in
    unit_method (n + 1).

Definition junk_changes_cached (a b : list string) (ai bj size : Z) : method unit :=
  do* n1 := each (junk_step_cached a b ai bj) (seqZ 0 size) 0 in
  if n1 <? size then append (Equal, ai + n1, ai + size, bj + n1, bj + size)
  else unit_method tt.

(** The body of [for ai, bj, size in self.get_matching_blocks()]; the
    state is [i] and [j]. *)
Definition opcode_step_cached (extra_effort : bool) (a b a_ws b_ws : list string)
    (st : Z * Z) (blk : block) : method (Z * Z) :=
  let '(i, j) := st in
  let '(ai, bj, size) := blk in
  do* _ :=
    (if (i <? ai) && (j <? bj) then
       if extra_effort && ((i <? ai - 1) || (j <? bj - 1))
       then split_replace_cached a b a_ws b_ws i ai j bj
       else append (Replace, i, ai, j, bj)
     else if i <? ai then append (Delete, i, ai, j, bj)
     else if j <? bj then append (Insert, i, ai, j, bj)
     else unit_method tt) in
  do* _ := junk_changes_cached a b ai bj size in
  unit_method (ai + size, bj + size).

(** The rest of [get_opcodes] once [self.opcodes = answer = []] is done:
    the loop over the blocks and the sanity check of [answer]. *)
Definition fill_opcodes (extra_effort : bool) (a b a_ws b_ws : list string)
    (blocks : list block) : method (list opcode) :=
  do* _ := each (opcode_step_cached extra_effort a b a_ws b_ws) blocks (0, 0) in
  fun c => (sanity_check a b (default [] (opcodes c)), c).

(** [KlondikeSequenceMatcher.get_opcodes] with its cache: [self.opcodes] is
    set to the empty list [answer] before the blocks are asked for, and
    [answer] is filled in place. *)
Definition get_opcodes_cached (extra_effort : bool) (a b : list string)
    : method (list opcode) :=
  fun c =>
    match opcodes c with
    | Some answer => (Ok answer, c)
    | None =>
        (do* blocks := get_matching_blocks_cached a b in
         fill_opcodes extra_effort a b (map clear_junk a) (map clear_junk b) blocks)
          (Caches (matching_blocks c) (Some []))
    end.

(** [PatienceSequenceMatcher_py.get_opcodes] of [_piersdiff_py.py] with its
    cache. *)
Definition piers_get_opcodes_cached (a b : list string) : method (list opcode) :=
  fun c =>
    match opcodes c with
    | Some answer => (Ok answer, c)
    | None =>
        (do* blocks := get_nearly_matching_blocks_cached a b in
         fill_opcodes false a b [] [] blocks)
          (Caches (matching_blocks c) (Some []))
    end.

End klondike.
End Klondike.

(** The matchers with the classical matcher of the library. *)
Definition klondike_matching_blocks : list string -> list string -> result (list block) :=
  Klondike.get_matching_blocks (@Difflib.get_matching_blocks).

Definition klondike_opcodes : list string -> list string -> result (list opcode) :=
  Klondike.get_opcodes (@Difflib.get_matching_blocks).

Definition piers_opcodes : list string -> list string -> result (list opcode) :=
  Klondike.piers_get_opcodes (@Difflib.get_matching_blocks).

(** Lines are written without their line feed; [lines] appends it. *)
Definition lines (l : list string) : list string := map (fun s => s +:+ nl) l.

(** ** The intra-line highlighter of [colordiff.py] *)

Module Colordiff.
Section parse_changed_line.
Variable difflib_blocks : matcher.

(** [self.colorstring(type, line)], which renders through the [terminal]
    module and the color table; its third argument is not used by it. *)
Variable colorstring : string -> string -> string.

(** [s[lo:hi]] on a string. *)
Definition substr (s : string) (lo hi : option Z) : string :=
  string_of_list_ascii (slice (list_ascii_of_string s) lo hi).

(** [''.join(l)] *)
Definition concat_all (l : list string) : string := fold_right String.append EmptyString l.

Definition oldsame (s : string) : string := colorstring "oldsame" s.
Definition newsame (s : string) : string := colorstring "newsame" s.
Definition olddel (s : string) : string := colorstring "oldtext" s.
Definition newadd (s : string) : string := colorstring "newtext" s.

(** [max(m[2] for m in blocks)] *)
Definition longest (blocks : list block) : result Z :=
  match blocks with
  | [] => Raise (ValueError "max() arg is an empty sequence")
  | m :: rest => Ok (fold_left (fun best (m' : block) => Z.max best m'.2) rest m.2)
  end.

(** [[m for m in matches if m[2] == 0 or m[2] >= 3]] *)
Definition retained (blocks : list block) : list block :=
  List.filter (fun m : block => (m.2 =? 0) || (3 <=? m.2)) blocks.

(** The body of [for n, m in enumerate(matches[:-1])]; the state is [old]
    and [new]. *)
Definition render_step (oldtext newtext : string) (matches : list block)
    (st : list string * list string) (e : nat * block) : result (list string * list string) :=
  let '(old, new) := st in
  let '(n, m) := e in
  let* next := get matches (n + 1) in
  Ok (old ++ [oldsame (substr oldtext (Some m.1.1) (Some (m.1.1 + m.2)));
              olddel (substr oldtext (Some (m.1.1 + m.2)) (Some next.1.1))],
      new ++ [newsame (substr newtext (Some m.1.2) (Some (m.1.2 + m.2)));
              newadd (substr newtext (Some (m.1.2 + m.2)) (Some next.1.2))]).

(** The highlighted pair for the retained [matches]. *)
Definition render (oldtext newtext : string) (matches : list block) : result (list string) :=
  let* first := get matches 0 in
  let old := [colorstring "oldtext" "-"; olddel (substr oldtext (Some 0) (Some first.1.1))] in
  let new := [colorstring "newtext" "+"; newadd (substr newtext (Some 0) (Some first.1.2))] in
  let* (old, new) :=
    for_each (render_step oldtext newtext matches) (enumerate (removelast matches)) (old, new) in
  Ok [concat_all old; concat_all new].

(** [DiffWriter.parse_changed_line] *)
Definition parse_changed_line (oldtext newtext : string) : result (list string) :=
  let old1 := substr oldtext (Some 1) None in
  let new1 := substr newtext (Some 1) None in
  let* blocks := difflib_blocks ascii _ _ (list_ascii_of_string old1) (list_ascii_of_string new1) in
  let* size := longest blocks in
  if 5 <=? size then render old1 new1 (retained blocks)
  else Ok [colorstring "oldtext" oldtext; colorstring "newtext" newtext].

End parse_changed_line.
End Colordiff.

(** ** [LineParser] and the line buffer of [DiffWriter] in [colordiff.py] *)

Module DiffWriter.

(** [LineParser.parse_line] *)
Definition parse_line (line : string) : string :=
  if String.prefix "@" line then "diffstuff"
  else if String.prefix "+" line then "newtext"
  else if String.prefix "-" line then "oldtext"
  else if String.prefix " " line then "plain"
  else "plain".

(** [text.split('\n')] *)
Fixpoint split_lf (text : string) : list string :=
  match text with
  | EmptyString => [EmptyString]
  | String c text' =>
      if Ascii.eqb c lf then EmptyString :: split_lf text'
      else
        match split_lf text' with
        | piece :: rest => String c piece :: rest
        | [] => [String c EmptyString]
        end
  end.

(** The fields of a [DiffWriter] that [write] and [_writeline] use;
    [target] holds the strings written to [self.target] so far. *)
Record writer : Type := Writer {
  target : list string;
  oldtext_hold : option string;
  chunks : list string
}.

Section writer.
Variable difflib_blocks : matcher.
Variable colorstring : string -> string -> string.
(** [self.color] *)
Variable color : bool.

(** [DiffWriter._writeline] *)
Definition _writeline (w : writer) (line : string) : result writer :=
  let line_type := parse_line line in
  let rest (output : list string) : result writer :=
    if String.eqb "oldtext" line_type && negb (String.prefix "---" line)
    then Ok (Writer (target w ++ output) (Some line) (chunks w))
    else Ok (Writer (target w ++ output ++ [colorstring line_type line]) None (chunks w)) in
  match oldtext_hold w with
  | Some held =>
      if String.eqb "newtext" line_type then
        let* output := Colordiff.parse_changed_line difflib_blocks colorstring held line in
        Ok (Writer (target w ++ output) None (chunks w))
      else rest [colorstring "oldtext" held]
  | None => rest []
  end.

(** The body of [for newchunk in newstuff[:-1]]. *)
Definition write_step (w : writer) (newchunk : string) : result writer :=
  let* w := _writeline w (Colordiff.concat_all (chunks w ++ [newchunk; nl])) in
  Ok (Writer (target w) (oldtext_hold w) []).

(** [DiffWriter.write]; without color [self.target.writelines(text)] writes
    the characters of [text] one by one. *)
Definition write (w : writer) (text : string) : result writer :=
  if color then
    let newstuff := split_lf text in
    let* w := for_each write_step (removelast newstuff) w in
    Ok (Writer (target w) (oldtext_hold w) [List.last newstuff EmptyString])
  else
    Ok (Writer (target w ++ map (fun c => String c EmptyString) (list_ascii_of_string text))
          (oldtext_hold w) (chunks w)).

(** [DiffWriter.writelines] *)
Definition writelines (w : writer) (lines : list string) : result writer :=
  for_each write lines w.

End writer.
End DiffWriter.

(** ** [unified_diff] of [klonpatiencediff.py] and [patiencediff.py]

    The two differ in one place: [klonpatiencediff.py] strips the function
    line on the right ([strip_function] below).  [get_grouped_opcodes] is
    inherited from the Python library, which yields no empty group: a group
    is its first opcode and the rest. *)

Module Unified.

Definition group : Type := opcode * list opcode.

(** ['{}'.format(n)] for an integer. *)
Definition format_int (n : Z) : string := DecimalString.NilZero.string_of_int (Z.to_int n).

(** [_format_range_unified] *)
Definition _format_range_unified (start stop : Z) : string :=
  let beginning := start + 1 in
  let length := stop - start in
  if length =? 1 then format_int beginning
  else
    let beginning := if length =? 0 then beginning - 1 else beginning in
    format_int beginning +:+ "," +:+ format_int length.

Section unified_diff.
Variables a b : list string.
Variables fromfile tofile fromfiledate tofiledate : string.
Variable n : Z.
Variable lineterm : string.
(** [function_regexp.match], or [None] for an empty [function_regexp]. *)
Variable function_regexp : option (string -> bool).
Variable strip_function : bool.

Definition function_lines : list nat :=
  match function_regexp with
  | Some matches =>
      map fst (List.filter (fun e : nat * string => matches e.2) (enumerate a))
  | None => []
  end.

(** [while current_function < len(function_lines) and
    function_lines[current_function] < first[1] + n: current_function += 1] *)
Fixpoint advance (fuel : nat) (current_function : nat) (limit : Z) : nat :=
  match fuel with
  | O => current_function
  | S fuel' =>
      match function_lines !! current_function with
      | Some k => if Z.of_nat k <? limit then advance fuel' (S current_function) limit
                  else current_function
      | None => current_function
      end
  end.

Definition rstrip_string (s : string) : string :=
  string_of_list_ascii (rstrip (list_ascii_of_string s)).

Definition header : list string :=
  let fromdate := if String.eqb fromfiledate "" then ""%string
                  else String tab fromfiledate in
  let todate := if String.eqb tofiledate "" then ""%string
                else String tab tofiledate in
  ["--- " +:+ fromfile +:+ fromdate +:+ lineterm;
   "+++ " +:+ tofile +:+ todate +:+ lineterm].

(** The lines of [for tag, i1, i2, j1, j2 in group]. *)
Definition opcode_lines (o : opcode) : list string :=
  let '(tg, i1, i2, j1, j2) := o in
  match tg with
  | Equal => map (String.append " ") (slice a (Some i1) (Some i2))
  | _ =>
      (if bool_decide (tg = Replace \/ tg = Delete)
       then map (String.append "-") (slice a (Some i1) (Some i2)) else []) ++
      (if bool_decide (tg = Replace \/ tg = Insert)
       then map (String.append "+") (slice b (Some j1) (Some j2)) else [])
  end.

(** One hunk: the [@@] line and the lines of the group; it also returns
    [current_function]. *)
Definition hunk (current_function : nat) (g : group) : list string * nat :=
  let first := g.1 in
  let last := List.last g.2 g.1 in
  let file1_range := _format_range_unified first.1.1.1.2 last.1.1.2 in
  let file2_range := _format_range_unified first.1.2 last.2 in
  let current_function :=
    match function_lines with
    | [] => current_function
    | _ :: _ => advance (length function_lines) current_function (first.1.1.1.2 + n)
    end in
  let function :=
    match function_lines, current_function with
    | _ :: _, S previous =>
        let line := default EmptyString (k ← function_lines !! previous; a !! k) in
        (" " +:+ (if strip_function then rstrip_string line else line))%string
    | _, _ => EmptyString
    end in
  (("@@ -" +:+ file1_range +:+ " +" +:+ file2_range +:+ " @@" +:+ function +:+ lineterm)
     :: flat_map opcode_lines (g.1 :: g.2),
   current_function).

(** The loop [for group in ...get_grouped_opcodes(n)] with its [started]
    flag; the lines are those the generator yields. *)
Fixpoint emit (groups : list group) (started : bool) (current_function : nat) : list string :=
  match groups with
  | [] => []
  | g :: groups' =>
      let head := if started then [] else header in
      let '(lines, current_function) := hunk current_function g in
      head ++ lines ++ emit groups' true current_function
  end.

(** [unified_diff], for the groups that the sequence matcher reports. *)
Definition unified_diff (groups : list group) : list string := emit groups false O.

(** The hunks alone. *)
Fixpoint hunks (groups : list group) (current_function : nat) : list string :=
  match groups with
  | [] => []
  | g :: groups' =>
      let '(lines, current_function) := hunk current_function g in
      lines ++ hunks groups' current_function
  end.

End unified_diff.
End Unified.

(** * Properties *)

(** ** Junk clearing *)

Lemma blank_not_dot c : dot c = false -> is_blank c = true.
Proof.
  unfold dot, is_blank. destruct (Ascii.eqb c lf); [|discriminate].
  intros _. by rewrite !orb_true_r.
Qed.

Lemma dropped_prefix_blanks s : dropped_prefix (match_blanks s) s.
Proof.
  induction s as [|c s IH]; simpl; [done|].
  destruct (is_blank c) eqn:Hc; simpl; [|done].
  split; [|done]. unfold kept. by rewrite Hc.
Qed.

Lemma dropped_prefix_run c s n :
  (n + 2 <= run_length c s)%nat -> dropped_prefix n s.
Proof.
  revert n. induction s as [|x s IH]; intros n Hn; destruct n as [|n]; simpl in *; try done.
  destruct (Ascii.eqb x c) eqn:Hx; [|lia].
  apply Ascii.eqb_eq in Hx. subst x. split.
  - unfold kept. destruct (Nat.ltb_spec (run_length c s) 2); [lia|].
    by rewrite andb_false_r.
  - apply IH. lia.
Qed.

Lemma sub_empty_keep_filter s : forall skip,
  dropped_prefix skip s -> sub_empty skip s = keep_filter s.
Proof.
  induction s as [|c s IH]; intros skip Hskip; [done|].
  destruct skip as [|k].
  - cbn [sub_empty keep_filter]. unfold match_here, match_repeat.
    destruct (dot c && (2 <=? run_length c s)%nat) eqn:Hrep.
    + apply andb_true_iff in Hrep as [_ Hrun]. apply Nat.leb_le in Hrun.
      assert (kept c s = false) as ->.
      { unfold kept. destruct (Nat.ltb_spec (run_length c s) 2); [lia|].
        by rewrite andb_false_r. }
      apply IH. apply (dropped_prefix_run c). lia.
    + destruct (match_blanks (c :: s)) as [|n] eqn:Hbl.
      * simpl in Hbl. destruct (is_blank c) eqn:Hc; [done|].
        assert (dot c = true) as Hdot.
        { destruct (dot c) eqn:Hd; [done|]. apply blank_not_dot in Hd. congruence. }
        rewrite Hdot in Hrep. cbn [andb] in Hrep. apply Nat.leb_gt in Hrep.
        assert (kept c s = true) as ->.
        { unfold kept. rewrite Hc. simpl. by apply Nat.ltb_lt. }
        f_equal. by apply IH.
      * pose proof (dropped_prefix_blanks (c :: s)) as Hd. rewrite Hbl in Hd.
        simpl in Hd. destruct Hd as [-> Hd]. by apply IH.
  - simpl in Hskip. destruct Hskip as [Hc Hk].
    cbn [sub_empty keep_filter]. rewrite Hc. by apply IH.
Qed.

Lemma runs_head s d k r : runs s = (d, k) :: r -> exists s', s = d :: s'.
Proof.
  destruct s as [|x s]; [done|]. simpl.
  destruct (runs s) as [|[d' k'] r'].
  - intros [= <- _ _]. eauto.
  - destruct (Ascii.eqb x d'); intros [= <- _ _]; eauto.
Qed.

Lemma runs_nil s : runs s = [] -> s = [].
Proof.
  destruct s as [|x s]; [done|]. simpl.
  destruct (runs s) as [|[d' k'] r']; [done|]. by destruct (Ascii.eqb x d').
Qed.

Lemma run_length_other c s d k r :
  runs s = (d, k) :: r -> Ascii.eqb c d = false -> run_length c s = O.
Proof.
  intros Hr Hcd. destruct (runs_head _ _ _ _ Hr) as [s' ->].
  simpl. by rewrite Ascii.eqb_sym, Hcd.
Qed.

Lemma runs_head_run_length s d k r :
  runs s = (d, k) :: r -> run_length d s = k.
Proof.
  revert d k r. induction s as [|c s IH]; intros d k r Hr; [done|].
  simpl in Hr. destruct (runs s) as [|[d' k'] r'] eqn:Hs.
  - inversion Hr; subst. apply runs_nil in Hs. subst s.
    simpl. by rewrite Ascii.eqb_refl.
  - destruct (Ascii.eqb c d') eqn:Hcd; inversion Hr; subst.
    + apply Ascii.eqb_eq in Hcd. subst d'.
      simpl. rewrite Ascii.eqb_refl. by rewrite (IH _ _ _ eq_refl).
    + simpl. rewrite Ascii.eqb_refl.
      by rewrite (run_length_other _ _ _ _ _ Hs Hcd).
Qed.

Lemma collapse_keep_filter s :
  flat_map (collapse 2) (runs s) = keep_filter s.
Proof.
  induction s as [|c s IH]; [done|].
  cbn [runs keep_filter]. rewrite <- IH.
  destruct (runs s) as [|[d k] r] eqn:Hs.
  - apply runs_nil in Hs. subst s.
    unfold kept. simpl. by destruct (is_blank c).
  - destruct (Ascii.eqb c d) eqn:Hcd.
    + apply Ascii.eqb_eq in Hcd. subst d.
      pose proof (runs_head_run_length _ _ _ _ Hs) as Hk.
      unfold kept. rewrite Hk. cbn [flat_map collapse].
      destruct (is_blank c); [done|]. simpl negb. rewrite andb_true_l.
      destruct k as [|[|[|k]]]; done.
    + unfold kept. rewrite (run_length_other _ _ _ _ _ Hs Hcd).
      cbn [flat_map collapse].
      by destruct (is_blank c).
Qed.

(** C4 fails as written: five dashes keep two dashes, not one. *)
Lemma clear_junk_five_dashes_keeps_two :
  clear_junk "-----" = "--"%string /\
  clear_junk "-----" <> junk_cleared 1 "-----".
Proof. split; [reflexivity | vm_compute; discriminate]. Qed.

(** C4 (amended): junk clearing deletes every blank (space, tab, carriage
    return, line feed) and, within any maximal run of three or more
    identical other characters, keeps exactly two copies. *)
Theorem clear_junk_keeps_two (s : string) :
  clear_junk s = junk_cleared 2 s.
Proof.
  unfold clear_junk, junk_cleared. f_equal.
  rewrite collapse_keep_filter. by apply sub_empty_keep_filter.
Qed.

(** ** [unique_lcs_py] *)

Section patience.
Local Open Scope nat_scope.

(** The pile tops are strictly increasing. *)
Definition ascending (l : list nat) : Prop :=
  forall i j si sj, i < j -> l !! i = Some si -> l !! j = Some sj -> si < sj.

(** [r] splits [l] around [x]. *)
Definition splits (l : list nat) (x r : nat) : Prop :=
  r <= length l /\
  (forall j s, j < r -> l !! j = Some s -> s < x) /\
  (forall j s, r <= j -> l !! j = Some s -> x < s).

Lemma get_lookup {A} (l : list A) i x : l !! i = Some x -> get l i = Ok x.
Proof. unfold get. by intros ->. Qed.

Lemma get_lt {A} (l : list A) i : i < length l -> exists x, l !! i = Some x /\ get l i = Ok x.
Proof.
  intros Hi. destruct (lookup_lt_is_Some_2 l i Hi) as [x Hx].
  exists x. split; [done|]. by apply get_lookup.
Qed.

Lemma set_lt {A} (l : list A) i v : i < length l -> set l i v = Ok (<[i := v]> l).
Proof. intros Hi. unfold set. by destruct (Nat.ltb_spec i (length l)); [|lia]. Qed.

Lemma bisect_loop_spec fuel : forall a x lo hi,
  ascending a -> x ∉ a ->
  lo <= hi <= length a -> hi - lo <= fuel ->
  (forall j s, j < lo -> a !! j = Some s -> s < x) ->
  (forall j s, hi <= j -> a !! j = Some s -> x < s) ->
  exists r, bisect_loop fuel a x lo hi = Ok r /\ splits a x r.
Proof.
  induction fuel as [|fuel IH]; intros a x lo hi Hasc Hx Hb Hf Hlo Hhi.
  - assert (lo = hi) as -> by lia. exists hi. simpl.
    destruct (Nat.ltb_spec hi hi); [lia|]. split; [done|]. split; [lia|]. by split.
  - cbn [bisect_loop]. destruct (Nat.ltb_spec lo hi) as [Hlt|Hge].
    + set (mid := (lo + hi) / 2).
      assert (lo <= mid < hi) as Hmid.
      { unfold mid. split; [apply Nat.div_le_lower_bound|apply Nat.Div0.div_lt_upper_bound]; lia. }
      destruct (get_lt a mid) as (am & Ham & ->); [lia|]. cbn [bind].
      destruct (Nat.ltb_spec x am) as [Hxa|Hxa].
      * apply IH; try done; try lia.
        intros j s Hj Hs. destruct (decide (j = mid)) as [->|Hne]; [congruence|].
        assert (am < s); [|lia]. apply (Hasc mid j); [lia|done..].
      * apply IH; try done; try lia.
        intros j s Hj Hs.
        assert (s <> x) by (intros ->; apply Hx; eapply list_elem_of_lookup_2; eauto).
        destruct (decide (j = mid)) as [->|Hne]; [assert (s = am) by congruence; lia|].
        assert (s < am); [|lia]. apply (Hasc j mid); [lia|done..].
    + assert (lo = hi) as -> by lia. exists hi. split; [done|]. split; [lia|]. by split.
Qed.

Lemma bisect_spec a x :
  ascending a -> x ∉ a -> exists r, bisect a x = Ok r /\ splits a x r.
Proof.
  intros Hasc Hx. apply bisect_loop_spec; try done; try lia.
  intros j s Hj Hs. apply lookup_lt_Some in Hs. lia.
Qed.

Lemma splits_unique l x r r' : ascending l -> splits l x r -> splits l x r' -> r = r'.
Proof.
  intros _ (Hr & Hlo & Hhi) (Hr' & Hlo' & Hhi').
  destruct (Nat.lt_trichotomy r r') as [Hlt|[->|Hlt]]; [|done|].
  - destruct (lookup_lt_is_Some_2 l r) as [s Hs]; [lia|].
    pose proof (Hhi r s (le_n _) Hs). pose proof (Hlo' r s Hlt Hs). lia.
  - destruct (lookup_lt_is_Some_2 l r') as [s Hs]; [lia|].
    pose proof (Hhi' r' s (le_n _) Hs). pose proof (Hlo r' s Hlt Hs). lia.
Qed.

Lemma choose_pile_spec stacks k apos :
  ascending stacks -> apos ∉ stacks ->
  (k < length stacks \/ stacks = []) ->
  exists k', choose_pile stacks k apos = Ok k' /\ splits stacks apos k'.
Proof.
  intros Hasc Hx Hk. unfold choose_pile.
  destruct (Nat.ltb_spec 0 (length stacks)) as [Hn|Hn].
  - destruct Hk as [Hk| ->]; [|simpl in Hn; lia].
    destruct (get_lt stacks (length stacks - 1)) as (top & Htop & ->); [lia|]. simpl.
    destruct (Nat.ltb_spec top apos) as [Ht|Ht].
    + eexists. split; [done|]. split; [done|]. split; [|intros j s Hj Hs; apply lookup_lt_Some in Hs; lia].
      intros j s Hj Hs. destruct (decide (j = length stacks - 1)) as [->|Hne]; [congruence|].
      assert (s < top); [|lia]. apply (Hasc j (length stacks - 1)); [lia|done..].
    + destruct (get_lt stacks k) as (sk & Hsk & ->); [lia|]. simpl.
      destruct (Nat.ltb_spec sk apos) as [Hs1|Hs1]; [|simpl; by apply bisect_spec].
      destruct (Nat.eqb_spec k (length stacks - 1)) as [->|Hkn].
      { assert (sk = top) by congruence. lia. }
      destruct (get_lt stacks (k + 1)) as (sk1 & Hsk1 & ->); [lia|]. simpl.
      destruct (Nat.ltb_spec apos sk1) as [Hs2|Hs2]; [|simpl; by apply bisect_spec].
      simpl. eexists. split; [done|]. split; [lia|]. split.
      * intros j s Hj Hs. destruct (decide (j = k)) as [->|Hne]; [congruence|].
        assert (s < sk); [|lia]. apply (Hasc j k); [lia|done..].
      * intros j s Hj Hs. destruct (decide (j = k + 1)) as [->|Hne]; [congruence|].
        assert (sk1 < s); [|lia]. apply (Hasc (k + 1) j); [lia|done..].
  - simpl. assert (stacks = []) as -> by (destruct stacks; simpl in *; [done|lia]).
    exists 0. split; [done|]. split; [done|]. split; intros j s Hj Hs; [lia|done].
Qed.

(** Where [stacks[k] = apos] or [stacks.append(apos)] puts the card. *)
Definition place {A} (l : list A) (k : nat) (v : A) : list A :=
  if k <? length l then <[k := v]> l else l ++ [v].

Lemma place_lookup {A} (l : list A) k v j :
  k <= length l -> place l k v !! j = if decide (j = k) then Some v else l !! j.
Proof.
  intros Hk. unfold place. destruct (Nat.ltb_spec k (length l)) as [Hlt|Hge].
  - destruct (decide (j = k)) as [->|Hne].
    + by apply list_lookup_insert_eq.
    + by apply list_lookup_insert_ne.
  - assert (k = length l) as -> by lia.
    destruct (decide (j = length l)) as [->|Hne].
    + rewrite lookup_app_r by lia. by rewrite Nat.sub_diag.
    + destruct (Nat.lt_ge_cases j (length l)).
      * by rewrite lookup_app_l.
      * rewrite !lookup_ge_None_2; [done|lia|]. rewrite length_app. simpl. lia.
Qed.

Lemma place_length {A} (l : list A) k v :
  k <= length l -> length (place l k v) = Nat.max (length l) (S k).
Proof.
  intros Hk. unfold place. destruct (Nat.ltb_spec k (length l)).
  - rewrite length_insert. lia.
  - rewrite length_app. simpl. lia.
Qed.

Lemma place_ascending l x r :
  ascending l -> splits l x r -> ascending (place l r x).
Proof.
  intros Hasc (Hr & Hlo & Hhi) i j si sj Hij.
  rewrite !place_lookup by done.
  destruct (decide (i = r)) as [->|Hi]; destruct (decide (j = r)) as [->|Hj];
    intros Hsi Hsj; simplify_eq; try lia.
  - apply (Hhi j); [lia|done].
  - apply (Hlo i); [lia|done].
  - by apply (Hasc i j).
Qed.

Section piles.
Variable btoa : list (option nat).
Hypothesis btoa_inj : forall q1 q2 i,
  btoa !! q1 = Some (Some i) -> btoa !! q2 = Some (Some i) -> q1 = q2.

(** The pair is a candidate: [btoa[q] = i]. *)
Definition card (x : nat * nat) : Prop := btoa !! x.2 = Some (Some x.1).

Definition chain (c : list (nat * nat)) : Prop := increasing c /\ Forall card c.

(** The cards met from [q] along the back pointers, in increasing order. *)
Inductive path (bp : list (option nat)) : nat -> list (nat * nat) -> Prop :=
| path_one q i :
    bp !! q = Some None -> card (i, q) -> path bp q [(i, q)]
| path_more q q' i i' c :
    bp !! q = Some (Some q') -> card (i, q) -> path bp q' c ->
    last c = Some (i', q') -> before (i', q') (i, q) ->
    path bp q (c ++ [(i, q)]).

Lemma path_last bp q c : path bp q c -> exists i, last c = Some (i, q) /\ card (i, q).
Proof. destruct 1; eexists; (split; [|done]); [done|apply last_snoc]. Qed.

#[local] Instance before_trans : Transitive before.
Proof. intros x y z [? ?] [? ?]. split; lia. Qed.

Lemma increasing_snoc c x y :
  increasing c -> last c = Some x -> before x y -> increasing (c ++ [y]).
Proof.
  intros Hc Hx Hxy. apply last_Some in Hx as [c' ->].
  apply StronglySorted_app_2; [|done|repeat constructor].
  intros x1 x2 Hx1 Hx2. apply list_elem_of_singleton in Hx2. subst x2.
  apply elem_of_app in Hx1 as [Hx1|Hx1].
  - etrans; [|done]. eapply StronglySorted_app_1_elem_of; [done..|]. apply list_elem_of_singleton. done.
  - apply list_elem_of_singleton in Hx1. by subst.
Qed.

Lemma path_chain bp q c : path bp q c -> chain c.
Proof.
  induction 1 as [q i Hq Hi|q q' i i' c Hq Hi Hp [IH1 IH2] Hl Hb].
  - split; [repeat constructor|]. by repeat constructor.
  - split; [by eapply increasing_snoc|].
    apply Forall_app. split; [done|]. by repeat constructor.
Qed.

Lemma path_frame bp q c p v :
  path bp q c -> q < p -> path (<[p := v]> bp) q c.
Proof.
  induction 1 as [q i Hq Hi|q q' i i' c Hq Hi Hp IH Hl Hb]; intros Hlt.
  - apply path_one; [|done]. rewrite list_lookup_insert_ne; [done|lia].
  - eapply path_more; [|done| |done..].
    + rewrite list_lookup_insert_ne; [done|lia].
    + apply IH. destruct Hb. simpl in *. lia.
Qed.

Lemma path_length bp q c : path bp q c -> length c <= S q.
Proof.
  induction 1 as [q i Hq Hi|q q' i i' c Hq Hi Hp IH Hl Hb]; [simpl; lia|].
  rewrite length_app. destruct Hb. simpl in *. lia.
Qed.

Lemma path_follow bp q c : path bp q c -> forall fuel acc,
  length c <= fuel -> follow fuel btoa bp (Some q) acc = Ok (acc ++ rev c).
Proof.
  induction 1 as [q i Hq Hi|q q' i i' c Hq Hi Hp IH Hl Hb]; intros fuel acc Hf;
    unfold card in Hi; simpl in Hi.
  - destruct fuel as [|fuel]; [simpl in Hf; lia|]. cbn [follow].
    rewrite (get_lookup _ _ _ Hi). cbn [bind]. rewrite (get_lookup _ _ _ Hq). cbn [bind].
    by destruct fuel.
  - rewrite length_app in Hf. simpl in Hf.
    destruct fuel as [|fuel]; [lia|]. cbn [follow].
    rewrite (get_lookup _ _ _ Hi). cbn [bind]. rewrite (get_lookup _ _ _ Hq). cbn [bind].
    rewrite IH by lia. rewrite rev_app_distr. simpl. by rewrite <- app_assoc.
Qed.

(** The state of the piles after the first [p] entries of [btoa]. *)
Record piles_inv (p : nat) (st : piles) : Prop := {
  inv_backpointers : length (backpointers st) = length btoa;
  inv_lasts : length (lasts st) = length (stacks st);
  inv_ascending : ascending (stacks st);
  inv_k : k st < length (stacks st) \/ stacks st = [];
  inv_path : forall j s, stacks st !! j = Some s ->
    exists q c, lasts st !! j = Some q /\ q < p /\
      path (backpointers st) q c /\ length c = S j /\ last c = Some (s, q);
  inv_fresh : forall q, p <= q -> q < length btoa -> backpointers st !! q = Some None;
  inv_longest : forall c, chain c -> c <> [] -> (forall x, x ∈ c -> x.2 < p) ->
    exists s x, stacks st !! (length c - 1) = Some s /\ last c = Some x /\ s <= x.1
}.

Lemma piles_inv_init : piles_inv 0 (Piles (replicate (length btoa) None) [] [] 0).
Proof.
  split; simpl.
  - apply length_replicate.
  - done.
  - intros i j si sj _ Hsi. done.
  - by right.
  - intros j s Hs. done.
  - intros q _ Hq. by apply lookup_replicate_2.
  - intros c _ Hne Hc. destruct c as [|x c]; [done|].
    assert (x ∈ x :: c) as Hx by left. apply Hc in Hx. lia.
Qed.

Lemma chain_snoc_inv c x :
  chain (c ++ [x]) -> chain c /\ card x /\ forall y, y ∈ c -> before y x.
Proof.
  intros [Hinc Hcards]. unfold chain, increasing in *.
  apply Forall_app in Hcards as [Hc Hx].
  apply Forall_inv in Hx.
  split; [split; [by eapply StronglySorted_app_1_l|done]|]. split; [done|].
  intros y Hy. eapply StronglySorted_app_1_elem_of; [done..|]. by apply list_elem_of_singleton.
Qed.

Lemma stacks_fresh p st apos :
  piles_inv p st -> btoa !! p = Some (Some apos) -> apos ∉ stacks st.
Proof.
  intros Hinv Hp Hin. apply list_elem_of_lookup in Hin as [j Hj].
  destruct (inv_path _ _ Hinv j apos Hj) as (q & c & _ & Hqp & Hpa & _ & Hlast).
  destruct (path_last _ _ _ Hpa) as (i & Hlast' & Hcard).
  assert (i = apos) as -> by congruence.
  assert (q = p) by (by eapply btoa_inj). lia.
Qed.

Lemma patience_step_None p st :
  piles_inv p st -> btoa !! p = Some None -> piles_inv (S p) st.
Proof.
  intros [Hbp Hl Hasc Hk Hpath Hfresh Hlong] Hp. split; try done.
  - intros j s Hs. destruct (Hpath j s Hs) as (q & c & ? & ? & ?).
    exists q, c. split; [done|]. split; [lia|done].
  - intros q Hq. apply Hfresh. lia.
  - intros c Hc Hne Hpos. apply Hlong; [done..|].
    intros x Hx. pose proof (Hpos x Hx) as Hlt.
    destruct Hc as [_ Hcards]. rewrite Forall_forall in Hcards.
    pose proof (Hcards x Hx) as Hcard. unfold card in Hcard.
    destruct (decide (x.2 = p)) as [Heq|Hne']; [|lia].
    rewrite Heq in Hcard. congruence.
Qed.

Lemma patience_step_Some p st apos :
  piles_inv p st -> btoa !! p = Some (Some apos) ->
  exists st', patience_step st (p, Some apos) = Ok st' /\ piles_inv (S p) st'.
Proof.
  intros Hinv Hp. pose proof (stacks_fresh _ _ _ Hinv Hp) as Hnew.
  destruct Hinv as [Hbp Hl Hasc Hk Hpath Hfresh Hlong].
  destruct (choose_pile_spec _ _ _ Hasc Hnew Hk) as (k' & Hch & Hsp).
  pose proof Hsp as (Hk' & Hlo & Hhi).
  assert (p < length btoa) as Hplt by (by eapply lookup_lt_Some).
  unfold patience_step. rewrite Hch. cbn [bind].
  assert (exists bp' c',
    (if 0 <? k' then let* below := get (lasts st) (k' - 1) in
                     set (backpointers st) p (Some below)
     else Ok (backpointers st)) = Ok bp' /\
    length bp' = length btoa /\
    path bp' p c' /\ length c' = S k' /\ last c' = Some (apos, p) /\
    (forall q c, q < p -> path (backpointers st) q c -> path bp' q c) /\
    (forall q, S p <= q -> bp' !! q = backpointers st !! q))
    as (bp' & c' & -> & Hbp' & Hpath' & Hlen' & Hlast' & Hframe & Hrest).
  { destruct (Nat.ltb_spec 0 k') as [Hpos|Hzero].
    - destruct (lookup_lt_is_Some_2 (stacks st) (k' - 1)) as [s0 Hs0]; [lia|].
      destruct (Hpath _ _ Hs0) as (q0 & c0 & Hq0 & Hq0p & Hp0 & Hlen0 & Hlast0).
      rewrite (get_lookup _ _ _ Hq0). cbn [bind]. rewrite set_lt by lia.
      exists (<[p := Some q0]> (backpointers st)), (c0 ++ [(apos, p)]).
      split; [done|]. split; [by rewrite length_insert|]. split.
      { eapply path_more; [apply list_lookup_insert_eq; lia|done|by apply path_frame|done|].
        split; simpl; [|done]. apply (Hlo (k' - 1)); [lia|done]. }
      split; [rewrite length_app; simpl; lia|]. split; [apply last_snoc|].
      split; [intros q c Hq Hc; by apply path_frame|].
      intros q Hq. apply list_lookup_insert_ne. lia.
    - assert (k' = 0) as -> by lia.
      exists (backpointers st), [(apos, p)].
      split; [done|]. split; [done|]. split; [|done].
      apply path_one; [|done]. apply Hfresh; [lia|done]. }
  cbn [bind].
  exists (Piles bp' (place (stacks st) k' apos) (place (lasts st) k' p) k'). split.
  { unfold place. rewrite Hl. destruct (Nat.ltb_spec k' (length (stacks st))); [|done].
    rewrite !set_lt by lia. done. }
  split; cbn [backpointers stacks lasts k].
  - done.
  - rewrite !place_length by lia. lia.
  - by apply place_ascending.
  - left. rewrite place_length by lia. lia.
  - intros j s. rewrite !place_lookup by lia.
    destruct (decide (j = k')) as [->|Hj].
    + intros [= <-]. exists p, c'. split; [done|]. split; [lia|done].
    + intros Hs. destruct (Hpath j s Hs) as (q & c & ? & ? & ? & ?).
      exists q, c. split; [done|]. split; [lia|]. split; [by apply Hframe|done].
  - intros q Hq Hq'. rewrite Hrest by done. apply Hfresh; [lia|done].
  - intros c Hc Hne Hpos.
    destruct (last c) as [x|] eqn:Hx; [|by apply last_None in Hx].
    exists (default 0 (place (stacks st) k' apos !! (length c - 1))), x.
    apply last_Some in Hx as [c0 ->].
    assert (length (c0 ++ [x]) - 1 = length c0) as -> by (rewrite length_app; simpl; lia).
    destruct (chain_snoc_inv _ _ Hc) as (Hc0 & Hcard & Hbefore).
    assert (x.2 < S p) as Hxp by (apply Hpos, elem_of_app; right; by apply list_elem_of_singleton).
    rewrite place_lookup by lia.
    destruct (decide (x.2 = p)) as [Hxeq|Hxne].
    + assert (x.1 = apos) as Hx1 by (unfold card in Hcard; rewrite Hxeq in Hcard; congruence).
      assert (length c0 <= k') as Hle.
      { destruct c0 as [|y c0]; [simpl; lia|].
        destruct (Hlong (y :: c0)) as (s0 & x0 & Hs0 & Hx0 & Hsx); [done..| |].
        { intros z Hz. destruct (Hbefore z Hz). lia. }
        destruct (Nat.le_gt_cases (length (y :: c0)) k'); [done|].
        assert (apos < s0) by (apply (Hhi (length (y :: c0) - 1)); [lia|done]).
        destruct (Hbefore x0) as [? _]; [by apply last_Some_elem_of|]. lia. }
      destruct (decide (length c0 = k')) as [_|Hlt]; [simpl; split; [done|split; [done|lia]]|].
      destruct (lookup_lt_is_Some_2 (stacks st) (length c0)) as [s1 Hs1]; [lia|].
      rewrite Hs1. simpl. split; [done|]. split; [done|].
      assert (s1 < apos) by (apply (Hlo (length c0)); [lia|done]). lia.
    + destruct (Hlong (c0 ++ [x])) as (s & x' & Hs & Hx' & Hsx); [done..| |].
      { intros z Hz. apply elem_of_app in Hz as [Hz|Hz].
        - destruct (Hbefore z Hz). lia.
        - apply list_elem_of_singleton in Hz. subst z. lia. }
      rewrite last_snoc in Hx'. injection Hx' as <-.
      assert (length (c0 ++ [x]) - 1 = length c0) as Hlen by (rewrite length_app; simpl; lia).
      rewrite Hlen in Hs.
      destruct (decide (length c0 = k')) as [Heq|Hlt]; simpl.
      * split; [done|]. split; [done|].
        assert (apos < s) by (apply (Hhi (length c0)); [lia|done]). lia.
      * rewrite Hs. simpl. done.
Qed.

Lemma patience_loop l : forall pre st,
  btoa = pre ++ l -> piles_inv (length pre) st ->
  exists st', for_each patience_step (imap (fun n => pair (length pre + n)) l) st = Ok st' /\
    piles_inv (length btoa) st'.
Proof.
  induction l as [|o l IH]; intros pre st Hb Hinv.
  - exists st. split; [done|]. rewrite Hb, length_app. simpl. by rewrite Nat.add_0_r.
  - assert (btoa !! length pre = Some o) as Hp.
    { rewrite Hb. by apply list_lookup_middle. }
    assert (exists st1, patience_step st (length pre, o) = Ok st1 /\ piles_inv (S (length pre)) st1)
      as (st1 & Hst1 & Hinv1).
    { destruct o as [apos|]; [by apply patience_step_Some|].
      exists st. split; [done|]. by apply patience_step_None. }
    rewrite imap_cons. cbn [for_each]. rewrite Nat.add_0_r, Hst1.
    destruct (IH (pre ++ [o]) st1) as (st' & Hst' & Hinv').
    { by rewrite <- app_assoc. }
    { rewrite length_app. simpl. by rewrite Nat.add_1_r. }
    exists st'. split; [|done]. rewrite <- Hst'. f_equal. apply imap_ext.
    intros i x _. simpl. rewrite length_app. simpl. f_equal. lia.
Qed.

End piles.
End patience.

Section scan.
Context {A : Type} `{Countable A}.
Implicit Types (a b l : list A) (x y : A).
Local Open Scope nat_scope.

Lemma once_not_twice l x q : once_at l x q -> twice l x -> False.
Proof.
  intros [_ Hall] (i & j & Hij & Hi & Hj).
  apply Hall in Hi, Hj. congruence.
Qed.

Lemma not_elem_of_snoc l x y : x <> y -> x ∉ l -> x ∉ l ++ [y].
Proof.
  intros Hxy Hx Hin. apply elem_of_app in Hin as [Hin|Hin]; [done|].
  by apply list_elem_of_singleton in Hin.
Qed.

Lemma lookup_snoc_other l x y j : x <> y -> (l ++ [y]) !! j = Some x <-> l !! j = Some x.
Proof.
  intros Hxy. rewrite lookup_snoc_Some. split.
  - intros [[_ ?]|[_ ?]]; [done|congruence].
  - intros Hj. left. split; [by eapply lookup_lt_Some|done].
Qed.

Lemma once_at_snoc_other l x y q : x <> y -> once_at (l ++ [y]) x q <-> once_at l x q.
Proof.
  intros Hxy. unfold once_at. rewrite lookup_snoc_other by done.
  split; intros [Hq Hall]; (split; [done|]); intros j Hj; apply Hall;
    by apply (lookup_snoc_other l x y j).
Qed.

Lemma twice_snoc l x y : twice l x -> twice (l ++ [y]) x.
Proof.
  intros (i & j & Hij & Hi & Hj). exists i, j.
  split; [done|]. split; apply lookup_app_l_Some; done.
Qed.

Lemma twice_snoc_other l x y : x <> y -> twice (l ++ [y]) x -> twice l x.
Proof.
  intros Hxy (i & j & Hij & Hi & Hj). exists i, j.
  split; [done|]. split; by eapply lookup_snoc_other.
Qed.

Lemma once_at_snoc_new l x : x ∉ l -> once_at (l ++ [x]) x (length l).
Proof.
  intros Hx. split; [by apply list_lookup_middle|].
  intros j Hj. apply lookup_snoc_Some in Hj as [[_ Hj]|[Hj _]]; [|done].
  exfalso. apply Hx. by eapply list_elem_of_lookup_2.
Qed.

Lemma once_at_snoc_same l x q : once_at (l ++ [x]) x q -> q = length l /\ x ∉ l.
Proof.
  intros [Hq Hall].
  assert (length l = q) as <- by (apply Hall; by apply list_lookup_middle).
  split; [done|]. intros Hin. apply list_elem_of_lookup in Hin as [j Hj].
  pose proof (lookup_lt_Some _ _ _ Hj).
  assert (j = length l); [|lia]. apply Hall. by apply lookup_app_l_Some.
Qed.

Lemma once_twice_snoc l x q : once_at l x q -> twice (l ++ [x]) x.
Proof.
  intros [Hq _]. exists q, (length l).
  pose proof (lookup_lt_Some _ _ _ Hq).
  split; [lia|]. split; [by apply lookup_app_l_Some|by apply list_lookup_middle].
Qed.

(** What [index] knows of [x] after the loop over [a]. *)
Definition index_inv a (index : gmap A (option nat)) : Prop :=
  forall x,
    match index !! x with
    | None => x ∉ a
    | Some (Some i) => once_at a x i
    | Some None => twice a x
    end.

Lemma build_index_inv a : index_inv a (build_index a).
Proof.
  unfold build_index, enumerate.
  induction a as [|y a IH] using rev_ind.
  - intros x. simpl. rewrite lookup_empty. apply not_elem_of_nil.
  - rewrite imap_app, fold_left_app. simpl. rewrite Nat.add_0_r.
    set (index := fold_left index_step (imap pair a) ∅) in *.
    intros x. pose proof (IH x) as Hx. pose proof (IH y) as Hy.
    destruct (decide (x = y)) as [->|Hxy].
    + destruct (index !! y) as [[i|]|] eqn:Hiy; simpl; rewrite lookup_insert_eq.
      * by eapply once_twice_snoc.
      * by apply twice_snoc.
      * by apply once_at_snoc_new.
    + assert (match index !! y with
              | Some _ => <[y:=None]> index
              | None => <[y:=Some (length a)]> index
              end !! x = index !! x) as ->.
      { destruct (index !! y); by rewrite lookup_insert_ne. }
      destruct (index !! x) as [[i|]|].
      * by apply once_at_snoc_other.
      * by apply twice_snoc.
      * by apply not_elem_of_snoc.
Qed.

Lemma build_index_once a x i : build_index a !! x = Some (Some i) <-> once_at a x i.
Proof.
  pose proof (build_index_inv a x) as Hx. split.
  - intros Hi. by rewrite Hi in Hx.
  - intros Hi. destruct (build_index a !! x) as [[j|]|].
    + destruct Hx as [_ Hx], Hi as [Hi _]. by rewrite (Hx i Hi).
    + by destruct (once_not_twice _ _ _ Hi Hx).
    + destruct Hi as [Hi _]. exfalso. apply Hx. by eapply list_elem_of_lookup_2.
Qed.

Section btoa.
Variable index0 : gmap A (option nat).
Variable nb : nat.

(** What the second loop knows of [x] after the prefix [b]. *)
Definition known b (st : @scan A _ _) x : Prop :=
  match index0 !! x with
  | Some (Some i) =>
      ((x ∉ b) /\ index st !! x = Some (Some i) /\ index2 st !! x = None) \/
      (exists q, once_at b x q /\ index st !! x = Some (Some i) /\ index2 st !! x = Some q) \/
      (twice b x /\ index st !! x = None)
  | _ => index st !! x = index0 !! x
  end.

Record scan_inv b (st : @scan A _ _) : Prop := {
  scan_length : length (btoa st) = nb;
  scan_known : forall x, known b st x;
  scan_btoa : forall q i,
    btoa st !! q = Some (Some i) <->
    exists x, once_at b x q /\ index0 !! x = Some (Some i)
}.

Lemma known_snoc_other b st st' x y :
  x <> y -> index st' !! x = index st !! x -> index2 st' !! x = index2 st !! x ->
  known b st x -> known (b ++ [y]) st' x.
Proof.
  intros Hxy Hi Hi2. unfold known. rewrite Hi, Hi2.
  destruct (index0 !! x) as [[i|]|]; [|done..].
  intros [(? & ? & ?)|[(q & ? & ? & ?)|(? & ?)]].
  - left. split; [by apply not_elem_of_snoc|done].
  - right. left. exists q. split; [by apply once_at_snoc_other|done].
  - right. right. split; [by apply twice_snoc|done].
Qed.

Lemma btoa_step_skip b st y :
  (forall next, index st !! y <> Some (Some next)) ->
  scan_inv b st -> scan_inv (b ++ [y]) st.
Proof.
  intros Hiy [Hlen Hknown Hbtoa].
  assert (forall q i, once_at b y q -> index0 !! y = Some (Some i) -> False) as Hold.
  { intros q i Hq H0. pose proof (Hknown y) as Hy. unfold known in Hy. rewrite H0 in Hy.
    destruct Hy as [(? & Hi & ?)|[(? & ? & Hi & ?)|(Htw & ?)]];
      [by apply Hiy in Hi|by apply Hiy in Hi|by eapply once_not_twice]. }
  assert (forall q i, once_at (b ++ [y]) y q -> index0 !! y = Some (Some i) -> False) as Hnew.
  { intros q i Hq H0. pose proof (Hknown y) as Hy. unfold known in Hy. rewrite H0 in Hy.
    destruct Hy as [(? & Hi & ?)|[(? & ? & Hi & ?)|(Htw & ?)]];
      [by apply Hiy in Hi|by apply Hiy in Hi|].
    eapply once_not_twice; [done|]. by apply twice_snoc. }
  split; [done| |].
  - intros x. destruct (decide (x = y)) as [->|Hxy]; [|by apply (known_snoc_other b st st)].
    pose proof (Hknown y) as Hy. unfold known in *.
    destruct (index0 !! y) as [[i|]|]; [|done..].
    destruct Hy as [(? & Hi & ?)|[(? & ? & Hi & ?)|(Htw & ?)]];
      [by apply Hiy in Hi|by apply Hiy in Hi|].
    right. right. split; [by apply twice_snoc|done].
  - intros q i. rewrite Hbtoa. split; intros (x & Hx & H0); exists x; (split; [|done]);
      (destruct (decide (x = y)) as [->|Hxy]; [exfalso; eauto|]); by apply (once_at_snoc_other b x y q).
Qed.

Lemma btoa_step_inv b st y :
  scan_inv b st -> length b < nb ->
  exists st', btoa_step st (length b, y) = Ok st' /\ scan_inv (b ++ [y]) st'.
Proof.
  intros Hinv Hlt. unfold btoa_step.
  destruct (index st !! y) as [[next|]|] eqn:Hiy; cycle 1.
  { exists st. split; [done|]. apply btoa_step_skip; [|done]. intros ?. by rewrite Hiy. }
  { exists st. split; [done|]. apply btoa_step_skip; [|done]. intros ?. by rewrite Hiy. }
  destruct Hinv as [Hlen Hknown Hbtoa].
  pose proof (Hknown y) as Hy. unfold known in Hy.
  destruct (index0 !! y) as [[i|]|] eqn:H0y; [|congruence..].
  destruct Hy as [(Hnin & Hi & Hi2)|[(q & Hq & Hi & Hi2)|(Htw & Hi)]]; [| |congruence].
  - rewrite Hi2. rewrite set_lt by lia. cbn [bind]. eexists. split; [done|].
    assert (next = i) as -> by congruence.
    split; cbn [index index2 btoa].
    + by rewrite length_insert.
    + intros x. destruct (decide (x = y)) as [->|Hxy].
      * unfold known. rewrite H0y. right. left. exists (length b).
        split; [by apply once_at_snoc_new|]. split; [done|]. apply lookup_insert_eq.
      * eapply known_snoc_other; [done| | |done]; [done|]. simpl. by rewrite lookup_insert_ne.
    + intros q i'. destruct (decide (q = length b)) as [->|Hq].
      * rewrite list_lookup_insert_eq by lia. split.
        -- intros [= <-]. exists y. split; [by apply once_at_snoc_new|done].
        -- intros (x & [Hx _] & H0). rewrite list_lookup_middle in Hx by done.
           injection Hx as <-. congruence.
      * rewrite list_lookup_insert_ne by done. rewrite Hbtoa.
        split; intros (x & Hx & H0); exists x; (split; [|done]);
          destruct (decide (x = y)) as [->|Hxy]; try (by apply (once_at_snoc_other b x y q)).
        -- destruct Hx as [Hx _]. exfalso. apply Hnin. by eapply list_elem_of_lookup_2.
        -- apply once_at_snoc_same in Hx as [? _]. done.
  - pose proof Hq as [Hbq Hall]. pose proof (lookup_lt_Some _ _ _ Hbq) as Hqlt.
    rewrite Hi2. rewrite set_lt by lia. cbn [bind]. eexists. split; [done|].
    split; cbn [index index2 btoa].
    + by rewrite length_insert.
    + intros x. destruct (decide (x = y)) as [->|Hxy].
      * unfold known. rewrite H0y. right. right.
        split; [by eapply once_twice_snoc|]. apply lookup_delete_eq.
      * eapply known_snoc_other; [done| | |done]; [|done]. simpl. by rewrite lookup_delete_ne.
    + intros q' i'. destruct (decide (q' = q)) as [->|Hne].
      * rewrite list_lookup_insert_eq by lia. split; [done|].
        intros (x & Hx & _). exfalso.
        assert (x = y) as ->.
        { destruct Hx as [Hx _]. rewrite lookup_app_l in Hx by done. congruence. }
        apply once_at_snoc_same in Hx as [? _]. lia.
      * rewrite list_lookup_insert_ne by done. rewrite Hbtoa.
        split; intros (x & Hx & H0); exists x; (split; [|done]);
          destruct (decide (x = y)) as [->|Hxy]; try (by apply (once_at_snoc_other b x y q')).
        -- destruct Hx as [Hx _]. by apply Hall in Hx.
        -- apply once_at_snoc_same in Hx as [_ Hnin]. exfalso. apply Hnin.
           by eapply list_elem_of_lookup_2.
Qed.

Lemma btoa_loop b l : forall pre st,
  b = pre ++ l -> length b = nb -> scan_inv pre st ->
  exists st', for_each btoa_step (imap (fun n => pair (length pre + n)) l) st = Ok st' /\
    scan_inv b st'.
Proof.
  induction l as [|y l IH]; intros pre st Hb Hnb Hinv.
  - exists st. split; [done|]. by rewrite Hb, app_nil_r.
  - destruct (btoa_step_inv pre st y Hinv) as (st1 & Hst1 & Hinv1).
    { rewrite <- Hnb, Hb, length_app. simpl. lia. }
    rewrite imap_cons. cbn [for_each]. rewrite Nat.add_0_r, Hst1.
    destruct (IH (pre ++ [y]) st1) as (st' & Hst' & Hinv'); [by rewrite <- app_assoc|done..|].
    exists st'. split; [|done]. rewrite <- Hst'. f_equal. apply imap_ext.
    intros j x _. simpl. rewrite length_app. simpl. f_equal. lia.
Qed.

End btoa.

Lemma build_btoa_spec a b :
  exists btoa, build_btoa a b = Ok btoa /\ length btoa = length b /\
    forall q i, btoa !! q = Some (Some i) <-> exists x, once_at a x i /\ once_at b x q.
Proof.
  unfold build_btoa, enumerate.
  destruct (btoa_loop (build_index a) (length b) b b [] 
              (Scan (build_index a) ∅ (replicate (length b) None)))
    as (st & Hst & [Hlen Hknown Hbtoa]); [done..| |].
  { split; cbn [index index2 btoa].
    - apply length_replicate.
    - intros x. unfold known. cbn [index index2].
      destruct (build_index a !! x) as [[i|]|]; [|done..].
      left. split; [apply not_elem_of_nil|]. split; [done|apply lookup_empty].
    - intros q i. split.
      + intros Hq. apply lookup_replicate in Hq as [? _]. done.
      + intros (x & [Hx _] & _). done. }
  change (imap _ b) with (imap (@pair nat A) b) in Hst.
  rewrite Hst. cbn [bind]. exists (btoa st). split; [done|]. split; [done|].
  intros q i. rewrite Hbtoa. split; intros (x & H1 & H2); exists x.
  - split; [by apply build_index_once|done].
  - split; [done|by apply build_index_once].
Qed.

End scan.

Section unique_lcs_py_correct.
Context {A : Type} `{Countable A}.
Local Open Scope nat_scope.

Lemma chain_unique_common_subsequence (a b : list A) btoa c :
  (forall q i, btoa !! q = Some (Some i) <-> exists x, once_at a x i /\ once_at b x q) ->
  chain btoa c <-> unique_common_subsequence a b c.
Proof.
  intros Hspec. unfold chain, unique_common_subsequence.
  assert (Forall (card btoa) c <-> Forall (unique_match a b) c) as ->; [|done].
  apply Forall_iff. intros [i q]. unfold card, unique_match. simpl. apply Hspec.
Qed.

(** The result of [unique_lcs_py], for the proofs that build on it. *)
Lemma unique_lcs_py_spec (a b : list A) :
  exists result,
    unique_lcs_py a b = Ok result /\
    unique_common_subsequence a b result /\
    (forall c, unique_common_subsequence a b c -> length c <= length result) /\
    ((forall p, ~ unique_match a b p) -> result = []).
Proof.
  destruct (build_btoa_spec a b) as (btoa & Hb & Hlen & Hspec).
  assert (forall q1 q2 i,
    btoa !! q1 = Some (Some i) -> btoa !! q2 = Some (Some i) -> q1 = q2) as Hinj.
  { intros q1 q2 i H1 H2. apply Hspec in H1 as (x1 & [Ha1 _] & [_ Hb1]).
    apply Hspec in H2 as (x2 & [Ha2 _] & [Hb2 _]).
    assert (x1 = x2) as -> by congruence. symmetry. by apply Hb1. }
  destruct (patience_loop btoa Hinj btoa [] (Piles (replicate (length btoa) None) [] [] 0))
    as (st & Hst & Hinv); [done|apply piles_inv_init|].
  change (imap _ btoa) with (imap (@pair nat (option nat)) btoa) in Hst.
  assert (forall c, unique_common_subsequence a b c -> length c <= length (stacks st)) as Hmax.
  { intros c Hc. apply (chain_unique_common_subsequence a b btoa c Hspec) in Hc.
    destruct c as [|x c]; [simpl; lia|].
    destruct (inv_longest _ _ _ Hinv (x :: c)) as (s & _ & Hs & _); [done..| |].
    - intros y Hy. destruct Hc as [_ Hc]. rewrite Forall_forall in Hc.
      apply Hc in Hy. by eapply lookup_lt_Some.
    - apply lookup_lt_Some in Hs. lia. }
  unfold unique_lcs_py. rewrite Hb. cbn [bind]. unfold enumerate.
  rewrite <- Hlen, Hst. cbn [bind].
  destruct (last (lasts st)) as [top|] eqn:Htop.
  - apply last_Some in Htop as [l' Hl'].
    pose proof (inv_lasts _ _ _ Hinv) as Hlasts.
    destruct (lookup_lt_is_Some_2 (stacks st) (length l')) as [s Hs].
    { rewrite <- Hlasts, Hl', length_app. simpl. lia. }
    destruct (inv_path _ _ _ Hinv _ _ Hs) as (q & c & Hq & Hqlt & Hpath & Hc & _).
    assert (q = top) as ->.
    { rewrite Hl', list_lookup_middle in Hq by done. congruence. }
    assert (length c = length (stacks st)) as Hcn.
    { rewrite Hc, <- Hlasts, Hl', length_app. simpl. lia. }
    rewrite (path_follow _ _ _ _ Hpath) by (pose proof (path_length _ _ _ _ Hpath); lia).
    cbn [bind]. simpl. rewrite rev_involutive. exists c.
    split; [done|].
    split; [apply (chain_unique_common_subsequence a b btoa c Hspec); by eapply path_chain|].
    split; [intros c' Hc'; rewrite Hcn; by apply Hmax|].
    intros Hnone. destruct c as [|x c]; [done|].
    pose proof (path_chain _ _ _ _ Hpath) as Hchain.
    apply (chain_unique_common_subsequence a b btoa _ Hspec) in Hchain as [_ Hall].
    apply Forall_inv in Hall. by apply Hnone in Hall.
  - apply last_None in Htop.
    assert (stacks st = []) as Hempty.
    { apply nil_length_inv. rewrite <- (inv_lasts _ _ _ Hinv), Htop. done. }
    exists []. split; [done|]. split; [split; constructor|].
    split; [|done]. intros c Hc. apply Hmax in Hc. by rewrite Hempty in Hc.
Qed.

(** C6: [unique_lcs_py a b] returns pairs [(ai, bi)] with [a[ai] == b[bi]],
    strictly increasing in both coordinates, each matching an element that
    occurs exactly once in [a] and exactly once in [b]; no such common
    subsequence is longer; and the result is empty when no element is shared
    uniquely. *)
Theorem unique_lcs_py_longest (a b : list A) :
  exists result,
    unique_lcs_py a b = Ok result /\
    unique_common_subsequence a b result /\
    (forall c, unique_common_subsequence a b c -> length c <= length result) /\
    ((forall p, ~ unique_match a b p) -> result = []).
Proof.
  destruct (build_btoa_spec a b) as (btoa & Hb & Hlen & Hspec).
  assert (forall q1 q2 i,
    btoa !! q1 = Some (Some i) -> btoa !! q2 = Some (Some i) -> q1 = q2) as Hinj.
  { intros q1 q2 i H1 H2. apply Hspec in H1 as (x1 & [Ha1 _] & [_ Hb1]).
    apply Hspec in H2 as (x2 & [Ha2 _] & [Hb2 _]).
    assert (x1 = x2) as -> by congruence. symmetry. by apply Hb1. }
  destruct (patience_loop btoa Hinj btoa [] (Piles (replicate (length btoa) None) [] [] 0))
    as (st & Hst & Hinv); [done|apply piles_inv_init|].
  change (imap _ btoa) with (imap (@pair nat (option nat)) btoa) in Hst.
  assert (forall c, unique_common_subsequence a b c -> length c <= length (stacks st)) as Hmax.
  { intros c Hc. apply (chain_unique_common_subsequence a b btoa c Hspec) in Hc.
    destruct c as [|x c]; [simpl; lia|].
    destruct (inv_longest _ _ _ Hinv (x :: c)) as (s & _ & Hs & _); [done..| |].
    - intros y Hy. destruct Hc as [_ Hc]. rewrite Forall_forall in Hc.
      apply Hc in Hy. by eapply lookup_lt_Some.
    - apply lookup_lt_Some in Hs. lia. }
  unfold unique_lcs_py. rewrite Hb. cbn [bind]. unfold enumerate.
  rewrite <- Hlen, Hst. cbn [bind].
  destruct (last (lasts st)) as [top|] eqn:Htop.
  - apply last_Some in Htop as [l' Hl'].
    pose proof (inv_lasts _ _ _ Hinv) as Hlasts.
    destruct (lookup_lt_is_Some_2 (stacks st) (length l')) as [s Hs].
    { rewrite <- Hlasts, Hl', length_app. simpl. lia. }
    destruct (inv_path _ _ _ Hinv _ _ Hs) as (q & c & Hq & Hqlt & Hpath & Hc & _).
    assert (q = top) as ->.
    { rewrite Hl', list_lookup_middle in Hq by done. congruence. }
    assert (length c = length (stacks st)) as Hcn.
    { rewrite Hc, <- Hlasts, Hl', length_app. simpl. lia. }
    rewrite (path_follow _ _ _ _ Hpath) by (pose proof (path_length _ _ _ _ Hpath); lia).
    cbn [bind]. simpl. rewrite rev_involutive. exists c.
    split; [done|].
    split; [apply (chain_unique_common_subsequence a b btoa c Hspec); by eapply path_chain|].
    split; [intros c' Hc'; rewrite Hcn; by apply Hmax|].
    intros Hnone. destruct c as [|x c]; [done|].
    pose proof (path_chain _ _ _ _ Hpath) as Hchain.
    apply (chain_unique_common_subsequence a b btoa _ Hspec) in Hchain as [_ Hall].
    apply Forall_inv in Hall. by apply Hnone in Hall.
  - apply last_None in Htop.
    assert (stacks st = []) as Hempty.
    { apply nil_length_inv. rewrite <- (inv_lasts _ _ _ Hinv), Htop. done. }
    exists []. split; [done|]. split; [split; constructor|].
    split; [|done]. intros c Hc. apply Hmax in Hc. by rewrite Hempty in Hc.
Qed.

End unique_lcs_py_correct.

(** ** [recurse_matches_py] *)

Lemma index_lookup {A} (l : list A) (i : Z) x :
  0 <= i -> l !! Z.to_nat i = Some x -> Py.index l i = Ok x.
Proof.
  intros Hi Hx. unfold Py.index, len. pose proof (lookup_lt_Some _ _ _ Hx).
  destruct (Z.ltb_spec i 0); [lia|].
  destruct (Z.leb_spec 0 i); [|lia].
  destruct (Z.ltb_spec i (Z.of_nat (length l))); [|lia].
  simpl. by rewrite Hx.
Qed.

Lemma index_in_range {A} (l : list A) (i : Z) :
  0 <= i < len l -> exists x, Py.index l i = Ok x /\ l !! Z.to_nat i = Some x.
Proof.
  intros Hi. unfold len in Hi.
  destruct (lookup_lt_is_Some_2 l (Z.to_nat i)) as [x Hx]; [lia|].
  exists x. split; [|done]. apply index_lookup; [lia|done].
Qed.

Lemma slice_lookup {A} (l : list A) (lo hi : Z) (k : nat) x :
  0 <= lo <= hi -> hi <= len l ->
  slice l (Some lo) (Some hi) !! k = Some x ->
  Z.of_nat k < hi - lo /\ l !! Z.to_nat (Z.of_nat k + lo) = Some x.
Proof.
  intros Hlo Hhi. unfold slice, slice_bound. simpl.
  destruct (Z.ltb_spec lo 0); [lia|]. destruct (Z.ltb_spec hi 0); [lia|].
  rewrite !Z.min_l by lia. intros Hk.
  apply lookup_take_Some in Hk as [Hk Hlt]. rewrite lookup_drop in Hk.
  split; [lia|].
  by replace (Z.to_nat (Z.of_nat k + lo)) with (Z.to_nat lo + k)%nat by lia.
Qed.

Lemma seqZ_sorted n : forall m k, Z.to_nat k = n -> StronglySorted Z.lt (seqZ m k).
Proof.
  induction n as [|n IH]; intros m k Hk.
  - rewrite seqZ_nil by lia. constructor.
  - rewrite seqZ_cons by lia. constructor; [apply IH; lia|].
    apply Forall_seqZ. intros; lia.
Qed.

Lemma StronglySorted_map {A B} (R1 : relation A) (R2 : relation B) (f : A -> B) l :
  (forall x y, R1 x y -> R2 (f x) (f y)) ->
  StronglySorted R1 l -> StronglySorted R2 (map f l).
Proof.
  intros Hf. induction 1 as [|x l Hl IH Hx]; simpl; constructor; [done|].
  apply Forall_map. eapply Forall_impl; [done|]. intros y. apply Hf.
Qed.

Section recurse_matches_sound.
Context {A : Type} `{Countable A}.
Variables a b : list A.

Definition beforeZ (p q : Z * Z) : Prop := p.1 < q.1 /\ p.2 < q.2.

(** The pair lies in the region and matches equal elements there. *)
Definition in_region (alo blo ahi bhi : Z) (p : Z * Z) : Prop :=
  alo <= p.1 < ahi /\ blo <= p.2 < bhi /\
  exists x, a !! Z.to_nat p.1 = Some x /\ b !! Z.to_nat p.2 = Some x.

(** Monotone matches inside a region. *)
Definition region_matches (alo blo ahi bhi : Z) (new : pairs) : Prop :=
  StronglySorted beforeZ new /\ Forall (in_region alo blo ahi bhi) new.

Lemma region_matches_nil alo blo ahi bhi : region_matches alo blo ahi bhi [].
Proof. split; constructor. Qed.

Lemma region_matches_one alo blo ahi bhi p :
  in_region alo blo ahi bhi p -> region_matches alo blo ahi bhi [p].
Proof. intros Hp. split; [repeat constructor|by constructor]. Qed.

Lemma region_matches_widen alo blo ahi bhi alo' blo' ahi' bhi' new :
  region_matches alo' blo' ahi' bhi' new ->
  alo <= alo' -> blo <= blo' -> ahi' <= ahi -> bhi' <= bhi ->
  region_matches alo blo ahi bhi new.
Proof.
  intros [Hs Hall] ? ? ? ?. split; [done|].
  eapply Forall_impl; [done|]. intros p (? & ? & ?). split; [lia|]. split; [lia|done].
Qed.

Lemma region_matches_app alo blo am bm ahi bhi new1 new2 :
  region_matches alo blo am bm new1 -> region_matches am bm ahi bhi new2 ->
  alo <= am -> blo <= bm -> am <= ahi -> bm <= bhi ->
  region_matches alo blo ahi bhi (new1 ++ new2).
Proof.
  intros [Hs1 Hall1] [Hs2 Hall2] ? ? ? ?. split.
  - apply StronglySorted_app_2; [|done..].
    intros p q Hp Hq. rewrite Forall_forall in Hall1, Hall2.
    destruct (Hall1 p Hp) as (? & ? & _), (Hall2 q Hq) as (? & ? & _).
    split; lia.
  - apply Forall_app. split.
    + eapply Forall_impl; [done|]. intros p (? & ? & ?). split; [lia|]. split; [lia|done].
    + eapply Forall_impl; [done|]. intros p (? & ? & ?). split; [lia|]. split; [lia|done].
Qed.

Lemma head_loop ahi bhi (answer : pairs) fuel : forall alo blo alo' blo' new,
  0 <= alo <= alo' -> 0 <= blo <= blo' ->
  alo' <= ahi <= len a -> blo' <= bhi <= len b ->
  region_matches alo blo alo' blo' new ->
  (Z.to_nat (ahi - alo') < fuel)%nat ->
  exists alo'' blo'' new',
    while fuel (Patience.head_cond a b ahi bhi) Patience.head_body (alo', blo', answer ++ new)
      = Ok (alo'', blo'', answer ++ new') /\
    region_matches alo blo alo'' blo'' new' /\
    alo' <= alo'' <= ahi /\ blo' <= blo'' <= bhi.
Proof.
  induction fuel as [|fuel IH]; intros alo blo alo' blo' new Ha Hb Ha' Hb' Hnew Hf; [lia|].
  cbn [while Patience.head_cond].
  assert (Hstop : exists alo'' blo'' new',
    Ok (alo', blo', answer ++ new) = Ok (alo'', blo'', answer ++ new') /\
    region_matches alo blo alo'' blo'' new' /\
    alo' <= alo'' <= ahi /\ blo' <= blo'' <= bhi).
  { exists alo', blo', new. split; [done|]. split; [done|]. lia. }
  destruct ((alo' <? ahi) && (blo' <? bhi)) eqn:Hin; [|done].
  apply andb_true_iff in Hin as [Hlt1 Hlt2]. apply Z.ltb_lt in Hlt1, Hlt2.
  destruct (index_in_range a alo') as (x & -> & Hx); [lia|].
  destruct (index_in_range b blo') as (y & -> & Hy); [lia|].
  cbn [bind]. case_bool_decide as Hxy; [|done]. subst y.
  cbn [Patience.head_body]. rewrite <- app_assoc.
  destruct (IH alo blo (alo' + 1) (blo' + 1) (new ++ [(alo', blo')]))
    as (alo'' & blo'' & new' & Hw & Hr & ? & ?); try lia.
  { eapply region_matches_app; [done| |lia..].
    apply region_matches_one. split; [simpl; lia|]. split; [simpl; lia|]. by exists x. }
  exists alo'', blo'', new'. split; [done|]. split; [done|]. lia.
Qed.

(** The lines below [(nahi, nbhi)] up to [(ahi, bhi)] match pairwise. *)
Definition tail_run (ahi bhi nahi nbhi : Z) : Prop :=
  ahi - nahi = bhi - nbhi /\
  forall i, 0 <= i < ahi - nahi ->
    exists x, a !! Z.to_nat (nahi + i) = Some x /\ b !! Z.to_nat (nbhi + i) = Some x.

Lemma tail_loop alo blo ahi bhi fuel : forall nahi nbhi,
  0 <= alo <= nahi -> 0 <= blo <= nbhi ->
  nahi <= ahi <= len a -> nbhi <= bhi <= len b ->
  tail_run ahi bhi nahi nbhi ->
  (Z.to_nat (nahi - alo) < fuel)%nat ->
  exists nahi' nbhi',
    while fuel (Patience.tail_cond a b alo blo) Patience.tail_body (nahi, nbhi)
      = Ok (nahi', nbhi') /\
    tail_run ahi bhi nahi' nbhi' /\
    alo <= nahi' <= nahi /\ blo <= nbhi' <= nbhi.
Proof.
  induction fuel as [|fuel IH]; intros nahi nbhi Ha Hb Ha' Hb' Hrun Hf; [lia|].
  cbn [while Patience.tail_cond].
  assert (Hstop : exists nahi' nbhi',
    Ok (nahi, nbhi) = Ok (nahi', nbhi') /\
    tail_run ahi bhi nahi' nbhi' /\
    alo <= nahi' <= nahi /\ blo <= nbhi' <= nbhi).
  { exists nahi, nbhi. split; [done|]. split; [done|]. lia. }
  destruct ((alo <? nahi) && (blo <? nbhi)) eqn:Hin; [|done].
  apply andb_true_iff in Hin as [Hlt1 Hlt2]. apply Z.ltb_lt in Hlt1, Hlt2.
  destruct (index_in_range a (nahi - 1)) as (x & -> & Hx); [lia|].
  destruct (index_in_range b (nbhi - 1)) as (y & -> & Hy); [lia|].
  cbn [bind]. case_bool_decide as Hxy; [|done]. subst y.
  cbn [Patience.tail_body].
  destruct (IH (nahi - 1) (nbhi - 1)) as (nahi' & nbhi' & Hw & Hr & ? & ?); try lia.
  { destruct Hrun as [Hlen Hrun]. split; [lia|]. intros i Hi.
    destruct (decide (i = 0)) as [->|Hne].
    - exists x. by rewrite !Z.add_0_r.
    - destruct (Hrun (i - 1)) as (z & Hz1 & Hz2); [lia|]. exists z.
      by replace (nahi - 1 + i) with (nahi + (i - 1)) by lia;
         replace (nbhi - 1 + i) with (nbhi + (i - 1)) by lia. }
  exists nahi', nbhi'. split; [done|]. split; [done|]. lia.
Qed.

Lemma tail_run_matches ahi bhi nahi nbhi :
  0 <= nahi <= ahi -> 0 <= nbhi -> tail_run ahi bhi nahi nbhi ->
  region_matches nahi nbhi ahi bhi
    (map (fun i => (nahi + i, nbhi + i)) (seqZ 0 (ahi - nahi))).
Proof.
  intros Ha Hb [Hlen Hrun]. split.
  - apply StronglySorted_map with (R1 := Z.lt).
    + intros i j Hij. split; simpl; lia.
    + by eapply seqZ_sorted.
  - apply Forall_map, Forall_seqZ. intros i Hi.
    split; [simpl; lia|]. split; [simpl; lia|]. apply Hrun. lia.
Qed.

(** An anchor of the region, above the last position. *)
Definition anchor (alo blo ahi bhi la lb : Z) (e : nat * nat) : Prop :=
  la < Z.of_nat e.1 + alo < ahi /\ lb < Z.of_nat e.2 + blo < bhi /\
  exists x, a !! Z.to_nat (Z.of_nat e.1 + alo) = Some x /\
            b !! Z.to_nat (Z.of_nat e.2 + blo) = Some x.

(** What a call on a region within the sequences does. *)
Definition sound_call (recurse : Z -> Z -> Z -> Z -> pairs -> result pairs) : Prop :=
  forall alo blo ahi bhi answer,
    0 <= alo <= ahi -> ahi <= len a -> 0 <= blo <= bhi -> bhi <= len b ->
    exists new, recurse alo blo ahi bhi answer = Ok (answer ++ new) /\
      region_matches alo blo ahi bhi new.

Lemma anchor_loop recurse alo blo ahi bhi answer lcs : forall la lb new,
  sound_call recurse ->
  0 <= alo -> 0 <= blo -> ahi <= len a -> bhi <= len b ->
  alo - 1 <= la < ahi -> blo - 1 <= lb < bhi ->
  increasing lcs -> Forall (anchor alo blo ahi bhi la lb) lcs ->
  region_matches alo blo (la + 1) (lb + 1) new ->
  exists la' lb' new',
    for_each (Patience.anchor_step recurse alo blo) lcs (la, lb, answer ++ new)
      = Ok (la', lb', answer ++ new') /\
    region_matches alo blo (la' + 1) (lb' + 1) new' /\
    la <= la' < ahi /\ lb <= lb' < bhi /\
    (lcs = [] -> new' = new /\ la' = la /\ lb' = lb) /\
    (lcs <> [] -> (length new < length new')%nat).
Proof.
  intros la lb new Hrec Halo Hblo Hahi Hbhi. revert la lb new.
  induction lcs as [|e lcs IH]; intros la lb new Hla Hlb Hinc Hall Hnew.
  - exists la, lb, new. split; [done|]. split; [done|]. repeat split; try lia; done.
  - apply StronglySorted_inv in Hinc as [Hinc He].
    apply Forall_cons in Hall as [(Hea & Heb & x & Hxa & Hxb) Hall].
    cbn [for_each Patience.anchor_step].
    set (apos := Z.of_nat e.1 + alo) in *. set (bpos := Z.of_nat e.2 + blo) in *.
    assert (forall new1, region_matches (la + 1) (lb + 1) apos bpos new1 ->
      exists la' lb' new',
        for_each (Patience.anchor_step recurse alo blo) lcs
          (apos, bpos, ((answer ++ new) ++ new1) ++ [(apos, bpos)])
          = Ok (la', lb', answer ++ new') /\
        region_matches alo blo (la' + 1) (lb' + 1) new' /\
        la <= la' < ahi /\ lb <= lb' < bhi /\
        (e :: lcs = [] -> new' = new /\ la' = la /\ lb' = lb) /\
        (e :: lcs <> [] -> (length new < length new')%nat)) as Hcont.
    { intros new1 Hnew1.
      assert (region_matches alo blo (apos + 1) (bpos + 1) (new ++ new1 ++ [(apos, bpos)]))
        as Hnew'.
      { eapply region_matches_app; [done| |lia..].
        eapply region_matches_app; [done| |lia..].
        apply region_matches_one. split; [simpl; lia|]. split; [simpl; lia|]. by exists x. }
      destruct (IH apos bpos (new ++ new1 ++ [(apos, bpos)]))
        as (la' & lb' & new' & Hloop & Hr & ? & ? & Hnil & Hlen); try lia; try done.
      { rewrite Forall_forall in Hall, He. apply Forall_forall. intros e' He'.
        destruct (Hall e' He') as (? & ? & ?), (He e' He') as [? ?].
        split; [unfold apos; lia|]. split; [unfold bpos; lia|done]. }
      exists la', lb', new'.
      replace (((answer ++ new) ++ new1) ++ [(apos, bpos)])
        with (answer ++ new ++ new1 ++ [(apos, bpos)]) by (by rewrite !app_assoc).
      split; [done|]. split; [done|].
      split; [lia|]. split; [lia|]. split; [done|]. intros _.
      assert (length (new ++ new1 ++ [(apos, bpos)]) <= length new')%nat as Hle.
      { destruct lcs as [|e' lcs'].
        - destruct Hnil as (-> & _); [done|]. done.
        - assert (e' :: lcs' <> []) as Hne by done. apply Hlen in Hne. lia. }
      rewrite !length_app in Hle. simpl in Hle. lia. }
    destruct (negb (la + 1 =? apos) || negb (lb + 1 =? bpos)).
    + destruct (Hrec (la + 1) (lb + 1) apos bpos (answer ++ new))
        as (new1 & -> & Hnew1); try lia.
      cbn [bind]. by apply Hcont.
    + cbn [bind]. destruct (Hcont []) as (la' & lb' & new' & Hloop & ?);
        [apply region_matches_nil|].
      rewrite app_nil_r in Hloop. by exists la', lb', new'.
Qed.

Lemma recurse_matches_rec_sound depth : sound_call (Patience.recurse_matches_rec depth a b).
Proof.
  induction depth as [|depth IH]; intros alo blo ahi bhi answer Ha Hahi Hb Hbhi.
  { exists []. rewrite app_nil_r. split; [done|apply region_matches_nil]. }
  cbn [Patience.recurse_matches_rec].
  destruct ((alo =? ahi) || (blo =? bhi)) eqn:Hempty.
  { exists []. rewrite app_nil_r. split; [done|apply region_matches_nil]. }
  apply orb_false_iff in Hempty as [Hne1 Hne2]. apply Z.eqb_neq in Hne1, Hne2.
  destruct (unique_lcs_py_spec (slice a (Some alo) (Some ahi)) (slice b (Some blo) (Some bhi)))
    as (lcs & -> & [Hinc Hall] & _). cbn [bind].
  destruct (anchor_loop _ alo blo ahi bhi answer lcs (alo - 1) (blo - 1) [] IH)
    as (la & lb & new & Hloop & Hnew & Hla & Hlb & Hnil & Hcons); try lia; try done.
  { eapply Forall_impl; [done|]. intros e (x & [Hxa _] & [Hxb _]).
    apply slice_lookup in Hxa as [? ?]; [|lia..].
    apply slice_lookup in Hxb as [? ?]; [|lia..].
    split; [lia|]. split; [lia|]. by exists x. }
  { replace (alo - 1 + 1) with alo by lia. replace (blo - 1 + 1) with blo by lia.
    apply region_matches_nil. }
  rewrite app_nil_r in Hloop. rewrite Hloop. cbn [bind].
  rewrite length_app. destruct (Nat.ltb_spec (length answer) (length answer + length new)).
  - destruct (IH (la + 1) (lb + 1) ahi bhi (answer ++ new)) as (new2 & -> & Hnew2); try lia.
    exists (new ++ new2). rewrite app_assoc. split; [done|].
    eapply region_matches_app; [done..|lia|lia|lia|lia].
  - assert (lcs = []) as Hlcs.
    { destruct lcs; [done|]. assert (length (@nil (Z * Z)) < length new)%nat; [by apply Hcons|].
      simpl in *. lia. }
    destruct (Hnil Hlcs) as (-> & -> & ->). rewrite app_nil_r.
    destruct (index_in_range a alo) as (a0 & -> & Ha0); [lia|].
    destruct (index_in_range b blo) as (b0 & -> & Hb0); [lia|]. cbn [bind].
    case_bool_decide as Hhead.
    + destruct (head_loop ahi bhi answer (Z.to_nat (ahi - alo) + 1) alo blo alo blo [])
        as (alo' & blo' & new1 & Hw & Hnew1 & ? & ?); try lia; [apply region_matches_nil|].
      rewrite app_nil_r in Hw. rewrite Hw. cbn [bind].
      destruct (IH alo' blo' ahi bhi (answer ++ new1)) as (new2 & -> & Hnew2); try lia.
      exists (new1 ++ new2). rewrite app_assoc. split; [done|].
      eapply region_matches_app; [done..|lia|lia|lia|lia].
    + destruct (index_in_range a (ahi - 1)) as (a1 & -> & Ha1); [lia|].
      destruct (index_in_range b (bhi - 1)) as (b1 & -> & Hb1); [lia|]. cbn [bind].
      case_bool_decide as Htail; cycle 1.
      { exists []. rewrite app_nil_r. split; [done|apply region_matches_nil]. }
      subst b1.
      destruct (tail_loop alo blo ahi bhi (Z.to_nat (ahi - alo) + 1) (ahi - 1) (bhi - 1))
        as (nahi & nbhi & -> & Hrun & ? & ?); try lia.
      { split; [lia|]. intros i Hi. assert (i = 0) as -> by lia.
        exists a1. by rewrite !Z.add_0_r. }
      cbn [bind]. replace (alo - 1 + 1) with alo by lia. replace (blo - 1 + 1) with blo by lia.
      destruct (IH alo blo nahi nbhi answer) as (new1 & -> & Hnew1); try lia.
      cbn [bind]. eexists. rewrite <- app_assoc. split; [done|].
      eapply region_matches_app; [done| |lia..].
      apply tail_run_matches; [lia|lia|done].
Qed.

End recurse_matches_sound.



(** ** [unified_diff] *)

Section unified_diff_header.
Variables a b : list string.
Variables fromfile tofile fromfiledate tofiledate : string.
Variable n : Z.
Variable lineterm : string.
Variable function_regexp : option (string -> bool).
Variable strip_function : bool.

Let emit := Unified.emit a b fromfile tofile fromfiledate tofiledate n lineterm
  function_regexp strip_function.
Let hunks := Unified.hunks a b n lineterm function_regexp strip_function.

Lemma emit_started groups : forall current_function,
  emit groups true current_function = hunks groups current_function.
Proof.
  induction groups as [|g groups IH]; intros current_function; [done|].
  unfold emit, hunks in *. cbn [Unified.emit Unified.hunks].
  destruct (Unified.hunk _ _ _ _ _ _ _ _) as [lines current_function'].
  by rewrite IH.
Qed.

Lemma slice_elem_of {X} (l : list X) (lo hi : option Z) (x : X) : x ∈ slice l lo hi -> x ∈ l.
Proof. unfold slice. intros Hx. by apply subseteq_take, subseteq_drop in Hx. Qed.

(** A line of a hunk body: a line of [a] after a space or a [-], or a line
    of [b] after a [+]. *)
Definition body_line (line : string) : Prop :=
  (exists l, l ∈ a /\ (line = " " +:+ l \/ line = "-" +:+ l)) \/
  (exists l, l ∈ b /\ line = "+" +:+ l).

(** The lines of the hunk of a group: the [@@] line with the ranges
    [first[1]:last[2]] and [first[3]:last[4]], then body lines. *)
Definition hunk_of (g : Unified.group) (lines : list string) : Prop :=
  exists function body,
    lines =
      ("@@ -" +:+ Unified._format_range_unified g.1.1.1.1.2 (List.last g.2 g.1).1.1.2 +:+
       " +" +:+ Unified._format_range_unified g.1.1.2 (List.last g.2 g.1).2 +:+
       " @@" +:+ function +:+ lineterm) :: body /\
    Forall body_line body.

Lemma opcode_lines_body (o : opcode) : Forall body_line (Unified.opcode_lines a b o).
Proof.
  destruct o as [[[[t i1] i2] j1] j2]. unfold Unified.opcode_lines.
  assert (forall c : string, c = " "%string \/ c = "-"%string ->
            Forall body_line (map (String.append c) (slice a (Some i1) (Some i2)))) as Hold.
  { intros c Hc. apply Forall_forall. intros line (l & -> & Hl)%list_elem_of_fmap.
    left. exists l. split; [by eapply slice_elem_of|]. by destruct Hc as [-> | ->]; [left|right]. }
  assert (Forall body_line (map (String.append "+") (slice b (Some j1) (Some j2)))) as Hnew.
  { apply Forall_forall. intros line (l & -> & Hl)%list_elem_of_fmap.
    right. exists l. split; [by eapply slice_elem_of|done]. }
  destruct t; [apply Hold; by left|..]; apply Forall_app; split;
    repeat case_bool_decide; try done; apply Hold; by right.
Qed.

Lemma hunk_hunk_of (current_function : nat) (g : Unified.group) :
  hunk_of g (Unified.hunk a b n lineterm function_regexp strip_function current_function g).1.
Proof.
  unfold hunk_of, Unified.hunk. cbn [fst snd]. eexists _, _. split; [reflexivity|].
  apply Forall_flat_map, Forall_forall. intros o _. apply opcode_lines_body.
Qed.

Lemma hunks_hunk_of groups : forall current_function,
  exists hs, hunks groups current_function = concat hs /\ Forall2 hunk_of groups hs.
Proof.
  induction groups as [|g groups IH]; intros current_function.
  { exists []. split; [done|constructor]. }
  unfold hunks in *. cbn [Unified.hunks].
  pose proof (hunk_hunk_of current_function g) as Hg.
  destruct (Unified.hunk _ _ _ _ _ _ _ _) as [lines current_function'].
  destruct (IH current_function') as (hs & -> & Hhs).
  exists (lines :: hs). split; [done|]. by constructor.
Qed.

(** C10: [unified_diff] yields nothing at all when there is no group.
    Otherwise it yields the line [--- fromfile] and the line [+++ tofile]
    (each with its date after a tab, when there is one, and [lineterm])
    once, and right after them the hunks, one for each group in order; a
    hunk is its [@@] line followed by body lines, so that no hunk yields a
    header. *)
Theorem unified_diff_header_once (groups : list Unified.group) :
  match groups with
  | [] =>
      Unified.unified_diff a b fromfile tofile fromfiledate tofiledate n lineterm
        function_regexp strip_function groups = []
  | _ :: _ =>
      exists hs,
        Unified.unified_diff a b fromfile tofile fromfiledate tofiledate n lineterm
          function_regexp strip_function groups =
        ["--- " +:+ fromfile +:+
           match fromfiledate with
           | EmptyString => EmptyString
           | String _ _ => String tab fromfiledate
           end +:+ lineterm;
         "+++ " +:+ tofile +:+
           match tofiledate with
           | EmptyString => EmptyString
           | String _ _ => String tab tofiledate
           end +:+ lineterm] ++ concat hs /\
        Forall2 hunk_of groups hs
  end.
Proof.
  destruct groups as [|g groups]; [done|].
  unfold Unified.unified_diff. cbn [Unified.emit].
  pose proof (hunk_hunk_of O g) as Hg.
  destruct (Unified.hunk _ _ _ _ _ _ _ _) as [lines current_function].
  pose proof (emit_started groups current_function) as Hrest.
  destruct (hunks_hunk_of groups current_function) as (hs & Hhs & Hall).
  unfold emit, hunks in *. rewrite Hrest, Hhs.
  exists (lines :: hs). split; [|by constructor].
  unfold Unified.header. by destruct fromfiledate, tofiledate.
Qed.

End unified_diff_header.

(** ** The intra-line highlighter *)

Section highlighter.
Variable difflib_blocks : matcher.
Variable colorstring : string -> string -> string.

(** Each element with the one after it. *)
Definition consecutive {X} (l : list X) : list (X * X) := zip l (tail l).

(** The chunks of the old line for a match and the gap up to the next one:
    the match in the style [oldsame], the gap in the style [oldtext]. *)
Definition old_chunks (oldtext : string) (e : block * block) : list string :=
  let '(m, next) := e in
  [colorstring "oldsame" (Colordiff.substr oldtext (Some m.1.1) (Some (m.1.1 + m.2)));
   colorstring "oldtext" (Colordiff.substr oldtext (Some (m.1.1 + m.2)) (Some next.1.1))].

(** The same for the new line, in the styles [newsame] and [newtext]. *)
Definition new_chunks (newtext : string) (e : block * block) : list string :=
  let '(m, next) := e in
  [colorstring "newsame" (Colordiff.substr newtext (Some m.1.2) (Some (m.1.2 + m.2)));
   colorstring "newtext" (Colordiff.substr newtext (Some (m.1.2 + m.2)) (Some next.1.2))].

(** The highlighted old line: the marker and the text before the first
    match in the style [oldtext], then every match but the last in the
    style [oldsame], each followed by the gap up to the next match in the
    style [oldtext]; all of it joined without a separator. *)
Definition highlighted_old (oldtext : string) (matches : list block) : string :=
  String.concat EmptyString
    ([colorstring "oldtext" "-";
      colorstring "oldtext"
        (Colordiff.substr oldtext (Some 0) (Some (default (0, 0, 0) (head matches)).1.1))] ++
     flat_map (old_chunks oldtext) (consecutive matches)).

Definition highlighted_new (newtext : string) (matches : list block) : string :=
  String.concat EmptyString
    ([colorstring "newtext" "+";
      colorstring "newtext"
        (Colordiff.substr newtext (Some 0) (Some (default (0, 0, 0) (head matches)).1.2))] ++
     flat_map (new_chunks newtext) (consecutive matches)).

Lemma append_empty_r (s : string) : s +:+ EmptyString = s.
Proof.
  induction s as [|c s IH]; [done|].
  change (String c (s +:+ EmptyString) = String c s). by rewrite IH.
Qed.

Lemma concat_all_concat (l : list string) :
  Colordiff.concat_all l = String.concat EmptyString l.
Proof.
  induction l as [|x l IH]; [done|].
  change (x +:+ Colordiff.concat_all l = String.concat EmptyString (x :: l)). rewrite IH.
  destruct l as [|y l]; [apply append_empty_r|done].
Qed.

Lemma render_loop oldtext newtext matches rest : forall pre old new,
  matches = pre ++ rest ->
  for_each (Colordiff.render_step colorstring oldtext newtext matches)
    (imap (fun n => pair (length pre + n)%nat) (removelast rest)) (old, new) =
  Ok (old ++ flat_map (old_chunks oldtext) (consecutive rest),
      new ++ flat_map (new_chunks newtext) (consecutive rest)).
Proof.
  induction rest as [|m rest IH]; intros pre old new Hm.
  { simpl. by rewrite !app_nil_r. }
  destruct rest as [|m' rest].
  { simpl. by rewrite !app_nil_r. }
  change (removelast (m :: m' :: rest)) with (m :: removelast (m' :: rest)).
  rewrite imap_cons. cbn [for_each Colordiff.render_step].
  assert (matches !! (length pre + 0 + 1)%nat = Some m') as Hnext.
  { rewrite Hm, Nat.add_0_r. rewrite lookup_app_r by lia.
    by replace (length pre + 1 - length pre)%nat with 1%nat by lia. }
  rewrite (get_lookup _ _ _ Hnext). cbn [bind].
  erewrite imap_ext; [rewrite (IH (pre ++ [m]))|].
  - unfold consecutive. cbn [tail zip zip_with flat_map old_chunks new_chunks].
    by rewrite <- !app_assoc.
  - by rewrite Hm, <- app_assoc.
  - intros k x _. simpl. rewrite length_app. simpl. f_equal. lia.
Qed.

Lemma render_highlighted oldtext newtext matches :
  matches <> [] ->
  Colordiff.render colorstring oldtext newtext matches =
  Ok [highlighted_old oldtext matches; highlighted_new newtext matches].
Proof.
  intros Hne. destruct matches as [|m matches]; [done|].
  unfold Colordiff.render. cbn [get lookup list_lookup bind].
  pose proof (render_loop oldtext newtext (m :: matches) (m :: matches) []) as Hloop.
  unfold enumerate. simpl length in Hloop.
  change (imap (fun n => pair (0 + n)%nat) (removelast (m :: matches)))
    with (imap (@pair nat block) (removelast (m :: matches))) in Hloop.
  rewrite Hloop by done. cbn [bind]. by rewrite !concat_all_concat.
Qed.

(** [size] is the length of the longest of the [blocks]. *)
Definition longest_size (blocks : list block) (size : Z) : Prop :=
  (exists m, m ∈ blocks /\ m.2 = size) /\ forall m, m ∈ blocks -> m.2 <= size.

Lemma longest_fold rest : forall best,
  let size := fold_left (fun best (m' : block) => Z.max best m'.2) rest best in
  best <= size /\ (forall m, m ∈ rest -> m.2 <= size) /\
  (size = best \/ exists m, m ∈ rest /\ m.2 = size).
Proof.
  induction rest as [|m rest IH]; intros best; simpl.
  { split; [lia|]. split; [|by left]. intros m Hm. by apply not_elem_of_nil in Hm. }
  destruct (IH (Z.max best m.2)) as (Hle & Hall & Hex).
  split; [lia|]. split.
  - intros m' Hm'. apply elem_of_cons in Hm' as [->|Hm']; [lia|by apply Hall].
  - destruct Hex as [Heq|(m' & Hm' & Heq)].
    + destruct (Z.max_spec best m.2) as [[? Hmax]|[? Hmax]]; rewrite Hmax in Heq |- *.
      * right. exists m. split; [left|by rewrite Heq].
      * by left.
    + right. exists m'. split; [by right|done].
Qed.

Lemma longest_spec blocks :
  blocks <> [] -> exists size, Colordiff.longest blocks = Ok size /\ longest_size blocks size.
Proof.
  intros Hne. destruct blocks as [|m rest]; [done|].
  eexists. split; [done|].
  destruct (longest_fold rest m.2) as (Hle & Hall & Hex). split.
  - destruct Hex as [Heq|(m' & Hm' & Heq)].
    + exists m. split; [left|done].
    + exists m'. split; [by right|done].
  - intros m' Hm'. apply elem_of_cons in Hm' as [->|Hm']; [done|by apply Hall].
Qed.

(** C9: with the blocks that the classical matcher reports for the lines
    without their markers, [parse_changed_line] highlights if and only if the
    longest block has length at least 5.  It then keeps the blocks of length 0
    (the sentinel) or at least 3, in order, and returns the pair
    [highlighted_old], [highlighted_new] made from them: the text of each
    kept match but the last in the style [oldsame] (or [newsame]), the text
    before the first match and between the matches in the style [oldtext]
    (or [newtext]); the last kept match, the sentinel, only ends the last
    changed chunk.  Otherwise it returns the two lines whole, in the styles
    [oldtext] and [newtext]. *)
Theorem parse_changed_line_highlights (oldtext newtext : string) (blocks : list block) :
  let old1 := Colordiff.substr oldtext (Some 1) None in
  let new1 := Colordiff.substr newtext (Some 1) None in
  difflib_blocks ascii _ _ (list_ascii_of_string old1) (list_ascii_of_string new1) = Ok blocks ->
  blocks <> [] ->
  exists size, longest_size blocks size /\
    (5 <= size ->
       Colordiff.parse_changed_line difflib_blocks colorstring oldtext newtext =
       Ok [highlighted_old old1 (Colordiff.retained blocks);
           highlighted_new new1 (Colordiff.retained blocks)]) /\
    (size < 5 ->
       Colordiff.parse_changed_line difflib_blocks colorstring oldtext newtext =
       Ok [colorstring "oldtext" oldtext; colorstring "newtext" newtext]) /\
    (forall m, m ∈ Colordiff.retained blocks <-> m ∈ blocks /\ (m.2 = 0 \/ 3 <= m.2)) /\
    sublist (Colordiff.retained blocks) blocks.
Proof.
  intros old1 new1 Hblocks Hne.
  destruct (longest_spec blocks Hne) as (size & Hsize & Hlongest).
  exists size. split; [done|].
  assert (forall m, m ∈ Colordiff.retained blocks <-> m ∈ blocks /\ (m.2 = 0 \/ 3 <= m.2))
    as Hretained.
  { intros m. unfold Colordiff.retained. rewrite !list_elem_of_In, filter_In.
    rewrite orb_true_iff, Z.eqb_eq, Z.leb_le. done. }
  unfold Colordiff.parse_changed_line. fold old1 new1. rewrite Hblocks. cbn [bind].
  rewrite Hsize. cbn [bind].
  split; [|split; [|split; [done|]]].
  - intros Hfive. destruct (Z.leb_spec 5 size); [|lia].
    apply render_highlighted. destruct Hlongest as [(m & Hm & Heq) _].
    intros Hnil. assert (m ∈ Colordiff.retained blocks) as Hin.
    { apply Hretained. split; [done|lia]. }
    rewrite Hnil in Hin. by apply not_elem_of_nil in Hin.
  - intros Hfew. by destruct (Z.leb_spec 5 size); [lia|].
  - unfold Colordiff.retained. clear. induction blocks as [|m rest IH]; [done|].
    simpl. destruct ((m.2 =? 0) || (3 <=? m.2)); by constructor.
Qed.

End highlighter.

(** ** The klondike matcher *)

Lemma index_past_end {A} (l : list A) : Py.index l (len l) = Raise IndexError.
Proof.
  unfold Py.index. unfold len. destruct (Z.ltb_spec (Z.of_nat (length l)) 0); [lia|].
  rewrite Z.ltb_irrefl. by rewrite andb_false_r.
Qed.

Lemma common_prefix_loop_equal (a_ws : list string) fuel : forall start_line,
  0 <= start_line <= len a_ws ->
  (Z.to_nat (len a_ws - start_line) < fuel)%nat ->
  while fuel (Klondike.same_at a_ws a_ws) (fun start_line => Ok (start_line + 1)) start_line
    = Raise IndexError.
Proof.
  induction fuel as [|fuel IH]; intros start_line Hs Hf; [lia|].
  cbn [while]. unfold Klondike.same_at at 1.
  destruct (decide (start_line = len a_ws)) as [->|Hne].
  - by rewrite index_past_end.
  - destruct (index_in_range a_ws start_line) as (x & -> & _); [lia|].
    cbn [bind]. rewrite bool_decide_eq_true_2 by done. apply IH; lia.
Qed.

Lemma common_prefix_equal (a_ws : list string) :
  Klondike.common_prefix a_ws a_ws = Raise IndexError.
Proof.
  unfold Klondike.common_prefix. apply common_prefix_loop_equal; unfold len; lia.
Qed.

(** C1 fails on the code: when every line of [a] equals the corresponding
    line of [b] after junk clearing (in particular when [a == b]), the
    unguarded prefix loop runs off the end: [get_matching_blocks] and
    [get_opcodes] of the klondike matcher and [get_opcodes] of the matcher of
    [_piersdiff_py.py] raise [IndexError]. *)
Theorem normalized_equal_raises (difflib_blocks : matcher) (a b : list string) :
  map clear_junk a = map clear_junk b ->
  Klondike.get_matching_blocks difflib_blocks a b = Raise IndexError /\
  Klondike.get_opcodes difflib_blocks a b = Raise IndexError /\
  Klondike.piers_get_opcodes difflib_blocks a b = Raise IndexError.
Proof.
  intros Heq.
  assert (Klondike.get_matching_blocks difflib_blocks a b = Raise IndexError) as Hblocks.
  { unfold Klondike.get_matching_blocks, Klondike.shifted_matches.
    by rewrite Heq, common_prefix_equal. }
  split; [done|]. split.
  - unfold Klondike.get_opcodes, Klondike.get_opcodes_with. by rewrite Hblocks.
  - unfold Klondike.piers_get_opcodes, Klondike.get_nearly_matching_blocks.
    by rewrite Heq, common_prefix_equal.
Qed.

Lemma identical_file_raises :
  map clear_junk (lines ["x"]) = map clear_junk (lines ["x"]) /\
  (klondike_matching_blocks (lines ["x"]) (lines ["x"]) = Raise IndexError /\
   klondike_opcodes (lines ["x"]) (lines ["x"]) = Raise IndexError /\
   piers_opcodes (lines ["x"]) (lines ["x"]) = Raise IndexError).
Proof.
  split; [reflexivity|].
  apply (normalized_equal_raises (@Difflib.get_matching_blocks) (lines ["x"]) (lines ["x"])).
  reflexivity.
Defined.

(** C7 fails on the code: for [A = ["foo(x,y)\n"]] and
    [B = ["foo( x , y )\n"]] the klondike matcher raises [IndexError] instead
    of returning [[(0,0,1),(1,1,0)]], and so does [get_opcodes] of
    [_piersdiff_py.py]; the patience blocks are the sentinel alone. *)
Theorem whitespace_reformat_raises :
  klondike_matching_blocks (lines ["foo(x,y)"]) (lines ["foo( x , y )"]) = Raise IndexError /\
  piers_opcodes (lines ["foo(x,y)"]) (lines ["foo( x , y )"]) = Raise IndexError /\
  Patience.get_matching_blocks (lines ["foo(x,y)"]) (lines ["foo( x , y )"]) = Ok [(1, 1, 0)].
Proof. vm_compute. done. Qed.

(** C5 fails on the code: the blank-line shift leaves a block of length 0 in
    front of the klondike blocks of these two files. *)
Theorem blank_shift_leaves_empty_block :
  klondike_matching_blocks (lines ["y"; ""; "y"; "u"; "w"]) (lines ["y"; "u"; "z"; ""; ""])
  = Ok [(0, 0, 0); (2, 0, 2); (5, 5, 0)].
Proof. vm_compute. done. Qed.

(** C2 fails on the code: an anchor grown backwards past the start of [b]
    (the index -1 is the last line) gives a delete opcode with [j1 = 0] and
    [j2 = -1], and the sanity check lets it through. *)
Theorem opcodes_delete_not_empty_in_b :
  klondike_opcodes (lines ["p"; "x"; "p"; "u"; "y"]) (lines ["u"; "p"])
  = Ok [(Delete, 0, 2, 0, -1); (Equal, 2, 4, -1, 1); (Replace, 4, 5, 1, 2)] /\
  piers_opcodes (lines ["p"; "x"; "p"; "u"; "y"]) (lines ["u"; "p"])
  = Ok [(Delete, 0, 2, 0, -1); (Equal, 2, 4, -1, 1); (Replace, 4, 5, 1, 2)].
Proof. vm_compute. done. Qed.

(** C3 fails on the code: on the same files the equal opcode
    [(equal, 2, 4, -1, 1)] names the slices [A[2:4] = ["p\n", "u\n"]] and
    [B[-1:1] = []]. *)
Theorem equal_opcode_not_honest :
  let A := lines ["p"; "x"; "p"; "u"; "y"] in
  let B := lines ["u"; "p"] in
  exists ops, klondike_opcodes A B = Ok ops /\
    In (Equal, 2, 4, -1, 1) ops /\
    slice A (Some 2) (Some 4) = lines ["p"; "u"] /\
    slice B (Some (-1)) (Some 1) = [].
Proof.
  eexists. split; [vm_compute; reflexivity|].
  split; [right; left; reflexivity|]. split; reflexivity.
Qed.

(** ** The patience pipeline *)

(** Blocks that follow each other from [(na, nb)] on, each of length at
    least 1, up to [(ea, eb)]. *)
Inductive blocks_between (na nb : Z) : list block -> Z -> Z -> Prop :=
| blocks_none : blocks_between na nb [] na nb
| blocks_snoc bl ea eb i j n :
    blocks_between na nb bl ea eb -> ea <= i -> eb <= j -> 1 <= n ->
    blocks_between na nb (bl ++ [(i, j, n)]) (i + n) (j + n).

(** The block list is monotone: each block starts at or after the end of the
    one before. *)
Fixpoint monotone_from (na nb : Z) (bl : list block) : Prop :=
  match bl with
  | [] => True
  | (i, j, n) :: rest => na <= i /\ nb <= j /\ monotone_from (i + n) (j + n) rest
  end.

(** A monotone block list of [a] and [b]: blocks of length at least 1 and
    then the sentinel. *)
Definition valid_blocks (la lb : Z) (bl : list block) : Prop :=
  exists body, bl = body ++ [(la, lb, 0)] /\
    Forall (fun m : block => 1 <= m.2) body /\ monotone_from 0 0 bl.

Lemma monotone_from_app na nb bl1 bl2 ea eb :
  blocks_between na nb bl1 ea eb -> monotone_from ea eb bl2 ->
  monotone_from na nb (bl1 ++ bl2).
Proof.
  intros Hb. revert bl2. induction Hb as [|bl ea eb i j n Hb IH Hi Hj Hn]; intros bl2 H2; [done|].
  rewrite <- app_assoc. apply IH. simpl. done.
Qed.

Lemma monotone_from_weaken na nb na' nb' bl :
  monotone_from na nb bl -> na' <= na -> nb' <= nb -> monotone_from na' nb' bl.
Proof. destruct bl as [|[[i j] n] rest]; [done|]. simpl. intros (? & ? & ?) ? ?. repeat split; [lia..|done]. Qed.

Lemma blocks_between_sizes na nb bl ea eb :
  blocks_between na nb bl ea eb -> Forall (fun m : block => 1 <= m.2) bl /\ na <= ea /\ nb <= eb.
Proof.
  induction 1 as [|bl ea eb i j n Hb (IH & ? & ?) Hi Hj Hn]; [split; [constructor|lia]|].
  split; [|lia]. apply Forall_app. split; [done|]. by repeat constructor.
Qed.

Lemma check_from_monotone bl : forall na nb,
  monotone_from na nb bl -> Patience.check_from bl na nb = Ok tt.
Proof.
  induction bl as [|[[i j] n] rest IH]; intros na nb Hm; [done|].
  destruct Hm as (Hi & Hj & Hrest). simpl.
  destruct (Z.ltb_spec i na); [lia|]. destruct (Z.ltb_spec j nb); [lia|]. by apply IH.
Qed.

Section patience_pipeline.
Variables a b : list string.

(** The pair lies in the files. *)
Definition in_files (p : Z * Z) : Prop := 0 <= p.1 < len a /\ 0 <= p.2 < len b.

Lemma filter_equal_sorted matches :
  StronglySorted beforeZ matches -> Forall in_files matches ->
  exists matches', Patience.filter_equal a b matches = Ok matches' /\
    StronglySorted beforeZ matches' /\ Forall in_files matches' /\
    forall p, p ∈ matches' -> p ∈ matches.
Proof.
  induction 1 as [|[i j] rest Hs IH Hp]; intros Hall.
  { exists []. split; [done|]. split; [constructor|]. split; [constructor|done]. }
  apply Forall_cons in Hall as [[Hi Hj] Hall].
  destruct (IH Hall) as (rest' & Hrest & Hs' & Hall' & Hsub).
  cbn [Patience.filter_equal].
  destruct (index_in_range a i) as (x & -> & _); [done|].
  destruct (index_in_range b j) as (y & -> & _); [done|].
  cbn [bind]. rewrite Hrest. cbn [bind].
  case_bool_decide; eexists; (split; [done|]).
  - split; [|split].
    + constructor; [done|]. rewrite Forall_forall in Hp |- *. intros q Hq. by apply Hp, Hsub.
    + by constructor.
    + intros q Hq. apply elem_of_cons in Hq as [->|Hq]; [left|right; by apply Hsub].
  - split; [done|]. split; [done|]. intros q Hq. right. by apply Hsub.
Qed.

Lemma collapse_fold matches : forall answer sa sb n ea eb,
  blocks_between 0 0 answer ea eb -> ea <= sa -> eb <= sb -> 1 <= n ->
  sa + n <= len a -> sb + n <= len b ->
  StronglySorted beforeZ matches ->
  Forall (fun p => sa + n - 1 < p.1 < len a /\ sb + n - 1 < p.2 < len b) matches ->
  exists answer' sa' sb' n' ea' eb',
    fold_left Patience.collapse_step matches (answer, Some (sa, sb), n)
      = (answer', Some (sa', sb'), n') /\
    blocks_between 0 0 answer' ea' eb' /\ ea' <= sa' /\ eb' <= sb' /\ 1 <= n' /\
    sa' + n' <= len a /\ sb' + n' <= len b.
Proof.
  induction matches as [|[i j] rest IH]; intros answer sa sb n ea eb Hb Ha Hb' Hn Hla Hlb Hs Hall.
  { exists answer, sa, sb, n, ea, eb. done. }
  apply StronglySorted_inv in Hs as [Hs Hp].
  apply Forall_cons in Hall as [[Hi Hj] Hall]. simpl in Hi, Hj.
  cbn [fold_left Patience.collapse_step].
  assert (Forall (fun p : Z * Z => i < p.1 < len a /\ j < p.2 < len b) rest) as Hrest.
  { rewrite Forall_forall in Hp, Hall |- *. intros q Hq.
    destruct (Hp q Hq) as [? ?], (Hall q Hq) as [? ?]. simpl in *. lia. }
  destruct ((i =? sa + n) && (j =? sb + n)) eqn:Hnext.
  - apply andb_true_iff in Hnext as [Hi' Hj']. apply Z.eqb_eq in Hi', Hj'.
    eapply (IH _ sa sb (n + 1) ea eb); try done; try lia.
    eapply Forall_impl; [done|]. intros q [? ?]. simpl in *. lia.
  - assert (sa + n <= i /\ sb + n <= j) as [? ?] by lia.
    eapply (IH _ i j 1 (sa + n) (sb + n)); try done; try lia.
    + by apply (blocks_snoc _ _ _ ea eb).
    + eapply Forall_impl; [done|]. intros q [? ?]. simpl in *. lia.
Qed.

Lemma collapse_sequences_blocks matches :
  StronglySorted beforeZ matches -> Forall in_files matches ->
  exists ea eb, blocks_between 0 0 (Patience._collapse_sequences matches) ea eb /\
    ea <= len a /\ eb <= len b.
Proof.
  intros Hs Hall. unfold Patience._collapse_sequences.
  destruct matches as [|[i j] rest].
  { simpl. exists 0, 0. split; [constructor|]. unfold len. lia. }
  apply StronglySorted_inv in Hs as [Hs Hp].
  apply Forall_cons in Hall as [[Hi Hj] Hall]. simpl in Hi, Hj.
  cbn [fold_left Patience.collapse_step].
  destruct (collapse_fold rest [] i j 1 0 0)
    as (answer & sa & sb & n & ea & eb & -> & Hb & ? & ? & ? & ? & ?);
    try done; try lia; [constructor| |].
  { rewrite Forall_forall in Hp, Hall |- *. intros q Hq.
    destruct (Hp q Hq) as [? ?], (Hall q Hq) as [[? ?] [? ?]]. simpl in *. lia. }
  destruct (Z.eqb_spec n 0); [lia|].
  exists (sa + n), (sb + n). split; [by apply (blocks_snoc _ _ _ ea eb)|lia].
Qed.

End patience_pipeline.

Lemma patience_blocks_valid (maxrecursion : Z) (a b : list string) :
  exists blocks, Patience.get_matching_blocks_bounded maxrecursion a b = Ok blocks /\
    valid_blocks (len a) (len b) blocks.
Proof.
  unfold Patience.get_matching_blocks_bounded, Patience.recurse_matches_py.
  destruct (recurse_matches_rec_sound (map strip a) (map strip b)
              (Z.to_nat (maxrecursion + 1)) 0 0 (len a) (len b) [])
    as (new & -> & [Hs Hall]); try (unfold len; rewrite ?length_map; lia).
  cbn [bind app].
  destruct (filter_equal_sorted a b new Hs) as (matches & -> & Hs' & Hall' & _).
  { eapply Forall_impl; [done|]. intros p (? & ? & _). by split. }
  cbn [bind].
  destruct (collapse_sequences_blocks a b matches Hs' Hall') as (ea & eb & Hb & ? & ?).
  assert (monotone_from 0 0 (Patience._collapse_sequences matches ++ [(len a, len b, 0)]))
    as Hmono.
  { eapply monotone_from_app; [done|]. simpl. done. }
  unfold Patience._check_consistency.
  rewrite check_from_monotone by (eapply monotone_from_weaken; [done|lia..]).
  cbn [bind]. eexists. split; [done|].
  exists (Patience._collapse_sequences matches). split; [done|]. split; [|done].
  by destruct (blocks_between_sizes _ _ _ _ _ Hb).
Qed.

(** C8: on a region within the sequences, [recurse_matches_py] returns and
    only appends to [answer]; the appended pairs are strictly increasing in
    both coordinates, lie in [[alo,ahi) x [blo,bhi)] and match equal elements;
    with the depth bound used up ([maxrecursion < 0]) it returns [answer] as
    it is.  Whatever the bound, [get_matching_blocks] of the patience matcher
    returns a monotone block list that ends with the sentinel. *)
Theorem recurse_matches_py_bounded :
  (forall (A : Type) (EqA : EqDecision A) (CountA : Countable A) (a b : list A)
          (alo blo ahi bhi : Z) (answer : pairs) (maxrecursion : Z),
     0 <= alo <= ahi -> ahi <= len a -> 0 <= blo <= bhi -> bhi <= len b ->
     exists new,
       Patience.recurse_matches_py a b alo blo ahi bhi answer maxrecursion = Ok (answer ++ new) /\
       region_matches a b alo blo ahi bhi new /\
       (maxrecursion < 0 -> new = [])) /\
  (forall (maxrecursion : Z) (a b : list string),
     exists blocks, Patience.get_matching_blocks_bounded maxrecursion a b = Ok blocks /\
       valid_blocks (len a) (len b) blocks).
Proof.
  split; [|apply patience_blocks_valid].
  intros A EqA CountA a b alo blo ahi bhi answer maxrecursion Ha Hahi Hb Hbhi.
  unfold Patience.recurse_matches_py.
  destruct (Z.ltb_spec maxrecursion 0) as [Hneg|Hpos].
  - replace (Z.to_nat (maxrecursion + 1)) with O by lia.
    exists []. rewrite app_nil_r. split; [done|]. split; [apply region_matches_nil|done].
  - destruct (recurse_matches_rec_sound a b (Z.to_nat (maxrecursion + 1))
                alo blo ahi bhi answer) as (new & Hrec & Hnew); try done.
    exists new. split; [done|]. split; [done|lia].
Qed.

Lemma recurse_matches_py_example :
  exists new,
    Patience.recurse_matches_py ["a"; "b"; "x"; "c"; "d"]%string ["a"; "b"; "c"; "d"]%string
      0 0 5 4 [] 10 = Ok ([] ++ new) /\
    region_matches ["a"; "b"; "x"; "c"; "d"]%string ["a"; "b"; "c"; "d"]%string 0 0 5 4 new /\
    (10 < 0 -> new = []).
Proof.
  apply (proj1 recurse_matches_py_bounded string _ _
           ["a"; "b"; "x"; "c"; "d"]%string ["a"; "b"; "c"; "d"]%string 0 0 5 4 [] 10);
    vm_compute; try split; congruence.
Defined.

Lemma parse_changed_line_example :
  let colorstring := fun t s : string => ("<" +:+ t +:+ ">" +:+ s)%string in
  let blocks := [(0, 0, 6); (6, 12, 5); (11, 17, 0)] in
  Difflib.get_matching_blocks (list_ascii_of_string "hello world")
    (list_ascii_of_string "hello brave world") = Ok blocks /\
  blocks <> [] /\
  (exists size, longest_size blocks size /\
    (5 <= size ->
       Colordiff.parse_changed_line (@Difflib.get_matching_blocks) colorstring
         "-hello world" "+hello brave world" =
       Ok [highlighted_old colorstring "hello world" (Colordiff.retained blocks);
           highlighted_new colorstring "hello brave world" (Colordiff.retained blocks)]) /\
    (size < 5 ->
       Colordiff.parse_changed_line (@Difflib.get_matching_blocks) colorstring
         "-hello world" "+hello brave world" =
       Ok [colorstring "oldtext" "-hello world"; colorstring "newtext" "+hello brave world"]) /\
    (forall m, m ∈ Colordiff.retained blocks <-> m ∈ blocks /\ (m.2 = 0 \/ 3 <= m.2)) /\
    sublist (Colordiff.retained blocks) blocks) /\
  highlighted_old colorstring "hello world" (Colordiff.retained blocks) =
    "<oldtext>-<oldtext><oldsame>hello <oldtext><oldsame>world<oldtext>"%string /\
  highlighted_new colorstring "hello brave world" (Colordiff.retained blocks) =
    "<newtext>+<newtext><newsame>hello <newtext>brave <newsame>world<newtext>"%string.
Proof.
  intros colorstring blocks.
  assert (Difflib.get_matching_blocks (list_ascii_of_string "hello world")
            (list_ascii_of_string "hello brave world") = Ok blocks) as Hblocks
    by (vm_compute; reflexivity).
  assert (blocks <> []) as Hne by discriminate.
  split; [exact Hblocks|]. split; [exact Hne|].
  split; [|split; vm_compute; reflexivity].
  exact (parse_changed_line_highlights (@Difflib.get_matching_blocks) colorstring
           "-hello world" "+hello brave world" blocks Hblocks Hne).
Defined.

(** * Further properties of the code *)

(** ** [_collapse_sequences] *)

(** The pairs that a block stands for. *)
Definition block_pairs (m : block) : pairs :=
  map (fun k => (m.1.1 + k, m.1.2 + k)) (seqZ 0 m.2).

Definition expand (bl : list block) : pairs := flat_map block_pairs bl.

(** The run that [_collapse_sequences] has open. *)
Definition open_run (start : option (Z * Z)) (n : Z) : pairs :=
  match start with
  | Some (start_a, start_b) => block_pairs (start_a, start_b, n)
  | None => []
  end.

Lemma block_pairs_grow i j n :
  0 <= n -> block_pairs (i, j, n + 1) = block_pairs (i, j, n) ++ [(i + n, j + n)].
Proof.
  intros Hn. unfold block_pairs. simpl.
  rewrite seqZ_app by lia. rewrite map_app. by f_equal.
Qed.

Lemma block_pairs_one i j : block_pairs (i, j, 1) = [(i, j)].
Proof.
  unfold block_pairs. cbn [fst snd]. rewrite seqZ_cons by lia.
  rewrite seqZ_nil by lia. cbn [map]. by rewrite !Z.add_0_r.
Qed.

Lemma expand_snoc bl m : expand (bl ++ [m]) = expand bl ++ block_pairs m.
Proof. unfold expand. rewrite flat_map_app. simpl. by rewrite app_nil_r. Qed.

Lemma collapse_fold_expand matches : forall answer start n,
  match start with Some _ => 1 <= n | None => True end ->
  let '(answer', start', n') :=
    fold_left Patience.collapse_step matches (answer, start, n) in
  expand answer' ++ open_run start' n' = (expand answer ++ open_run start n) ++ matches /\
  match start' with Some _ => 1 <= n' | None => matches = [] /\ start = None end.
Proof.
  induction matches as [|[i j] rest IH]; intros answer start n Hn.
  { simpl. rewrite app_nil_r. split; [done|]. by destruct start. }
  cbn [fold_left Patience.collapse_step].
  destruct start as [[sa sb]|].
  - destruct ((i =? sa + n) && (j =? sb + n)) eqn:Hnext.
    + apply andb_true_iff in Hnext as [Hi Hj]. apply Z.eqb_eq in Hi, Hj. subst i j.
      specialize (IH answer (Some (sa, sb)) (n + 1)).
      destruct (fold_left _ rest _) as [[answer' start'] n'].
      destruct IH as [IH1 IH2]; [lia|]. split.
      * rewrite IH1. cbn [open_run]. rewrite block_pairs_grow by lia.
        by rewrite <- !app_assoc.
      * destruct start'; [done|]. by destruct IH2.
    + specialize (IH (answer ++ [(sa, sb, n)]) (Some (i, j)) 1).
      destruct (fold_left _ rest _) as [[answer' start'] n'].
      destruct IH as [IH1 IH2]; [lia|]. split.
      * rewrite IH1. cbn [open_run]. rewrite expand_snoc, block_pairs_one.
        by rewrite <- !app_assoc.
      * destruct start'; [done|]. by destruct IH2.
  - specialize (IH answer (Some (i, j)) 1).
    destruct (fold_left _ rest _) as [[answer' start'] n'].
    destruct IH as [IH1 IH2]; [lia|]. split.
    + rewrite IH1. cbn [open_run]. rewrite block_pairs_one. by rewrite <- !app_assoc.
    + destruct start'; [done|]. by destruct IH2.
Qed.

Lemma expand_collapse (matches : pairs) :
  expand (Patience._collapse_sequences matches) = matches.
Proof.
  unfold Patience._collapse_sequences.
  pose proof (collapse_fold_expand matches [] None 0 I) as Hfold.
  destruct (fold_left _ matches _) as [[answer start] n].
  destruct Hfold as [Hexp Hn]. simpl in Hexp.
  destruct start as [[sa sb]|].
  - destruct (Z.eqb_spec n 0); [lia|]. by rewrite expand_snoc.
  - destruct Hn as [-> _]. simpl in Hexp. by rewrite app_nil_r in Hexp.
Qed.

(** X1: the blocks of [_collapse_sequences] stand for exactly the pairs it
    was given, in their order: expanding every block [(i, j, n)] into
    [(i, j), ..., (i+n-1, j+n-1)] gives the input back.  This holds for any
    list of pairs, sorted or not. *)
Theorem collapse_sequences_expand (matches : pairs) :
  expand (Patience._collapse_sequences matches) = matches.
Proof. apply expand_collapse. Qed.

(** The second block continues the first one. *)
Definition continues (x y : block) : Prop :=
  y.1.1 = x.1.1 + x.2 /\ y.1.2 = x.1.2 + x.2.

(** No block is empty and no block continues the one before it. *)
Definition maximal_runs (bl : list block) : Prop :=
  Forall (fun m : block => 1 <= m.2) bl /\
  forall k x y, bl !! k = Some x -> bl !! S k = Some y -> ~ continues x y.

Lemma maximal_runs_grow bl i j n :
  maximal_runs (bl ++ [(i, j, n)]) -> maximal_runs (bl ++ [(i, j, n + 1)]).
Proof.
  intros [Hsize Hsep]. apply Forall_app in Hsize as [Hbl Hlast].
  apply Forall_inv in Hlast. simpl in Hlast. split.
  - apply Forall_app. split; [done|]. repeat constructor. simpl. lia.
  - intros k x y Hx Hy.
    destruct (decide (S k = length bl)) as [Hk|Hk].
    + rewrite lookup_app_l in Hx by lia.
      rewrite lookup_app_r in Hy by lia. rewrite Hk, Nat.sub_diag in Hy.
      injection Hy as <-.
      specialize (Hsep k x (i, j, n)). rewrite lookup_app_l in Hsep by lia.
      rewrite lookup_app_r in Hsep by lia. rewrite Hk, Nat.sub_diag in Hsep.
      by apply Hsep.
    + pose proof (lookup_lt_Some _ _ _ Hy) as Hlt. rewrite length_app in Hlt. simpl in Hlt.
      rewrite lookup_app_l in Hx by lia. rewrite lookup_app_l in Hy by lia.
      apply (Hsep k x y); by rewrite lookup_app_l by lia.
Qed.

Lemma maximal_runs_snoc bl x y :
  maximal_runs (bl ++ [x]) -> 1 <= y.2 -> ~ continues x y ->
  maximal_runs ((bl ++ [x]) ++ [y]).
Proof.
  intros [Hsize Hsep] Hy Hxy. split.
  - apply Forall_app. split; [done|]. by repeat constructor.
  - intros k u v Hu Hv.
    pose proof (lookup_lt_Some _ _ _ Hv) as Hlt. rewrite !length_app in Hlt. simpl in Hlt.
    destruct (decide (k = length bl)) as [->|Hk].
    + rewrite lookup_app_l in Hu by (rewrite length_app; simpl; lia).
      rewrite list_lookup_middle in Hu by done.
      rewrite lookup_app_r in Hv by (rewrite length_app; simpl; lia).
      rewrite length_app in Hv. simpl in Hv.
      replace (S (length bl) - (length bl + 1))%nat with O in Hv by lia.
      simpl in Hv. by simplify_eq.
    + rewrite lookup_app_l in Hu by (rewrite length_app; simpl; lia).
      rewrite lookup_app_l in Hv by (rewrite length_app; simpl; lia).
      by apply (Hsep k u v).
Qed.

Lemma maximal_runs_one m : 1 <= m.2 -> maximal_runs [m].
Proof.
  intros Hm. split; [by repeat constructor|].
  intros k x y Hx Hy. apply lookup_lt_Some in Hy. simpl in Hy. lia.
Qed.

Lemma collapse_fold_maximal matches : forall answer sa sb n,
  maximal_runs (answer ++ [(sa, sb, n)]) ->
  exists answer' sa' sb' n',
    fold_left Patience.collapse_step matches (answer, Some (sa, sb), n)
      = (answer', Some (sa', sb'), n') /\
    maximal_runs (answer' ++ [(sa', sb', n')]).
Proof.
  induction matches as [|[i j] rest IH]; intros answer sa sb n Hmax.
  { by exists answer, sa, sb, n. }
  cbn [fold_left Patience.collapse_step].
  destruct ((i =? sa + n) && (j =? sb + n)) eqn:Hnext.
  - apply IH. by apply maximal_runs_grow.
  - apply IH. apply maximal_runs_snoc; [done|simpl; lia|].
    intros [Hi Hj]. simpl in Hi, Hj. subst i j. by rewrite !Z.eqb_refl in Hnext.
Qed.

(** X2: the blocks of [_collapse_sequences] are maximal runs: every block has
    length at least 1 and no block starts where the block before it ends in
    both sequences. *)
Theorem collapse_sequences_maximal (matches : pairs) :
  maximal_runs (Patience._collapse_sequences matches).
Proof.
  unfold Patience._collapse_sequences.
  destruct matches as [|[i j] rest].
  { simpl. split; [constructor|]. intros k x y Hx. done. }
  cbn [fold_left Patience.collapse_step].
  destruct (collapse_fold_maximal rest [] i j 1) as (answer & sa & sb & n & -> & Hmax).
  { by apply maximal_runs_one. }
  destruct (Z.eqb_spec n 0) as [->|Hn]; [|done].
  destruct Hmax as [Hsize _]. apply Forall_app in Hsize as [_ Hlast].
  apply Forall_inv in Hlast. simpl in Hlast. lia.
Qed.

(** ** The blocks of the patience matcher *)

Lemma filter_equal_raw (a b : list string) matches :
  Forall (in_files a b) matches ->
  exists matches', Patience.filter_equal a b matches = Ok matches' /\
    forall p, p ∈ matches' ->
      in_files a b p /\ a !! Z.to_nat p.1 = b !! Z.to_nat p.2.
Proof.
  induction matches as [|[i j] rest IH]; intros Hall.
  { exists []. split; [done|]. intros p Hp. by apply not_elem_of_nil in Hp. }
  apply Forall_cons in Hall as [[Hi Hj] Hall].
  destruct (IH Hall) as (rest' & Hrest & Hraw).
  cbn [Patience.filter_equal].
  destruct (index_in_range a i) as (x & -> & Hx); [done|].
  destruct (index_in_range b j) as (y & -> & Hy); [done|].
  cbn [bind]. rewrite Hrest. cbn [bind].
  case_bool_decide as Hxy; eexists; (split; [done|]); [|done].
  intros p Hp. apply elem_of_cons in Hp as [->|Hp]; [|by apply Hraw].
  split; [done|]. simpl. by rewrite Hx, Hy, Hxy.
Qed.

Lemma elem_of_expand (bl : list block) m k :
  m ∈ bl -> 0 <= k < m.2 -> (m.1.1 + k, m.1.2 + k) ∈ expand bl.
Proof.
  intros Hm Hk. unfold expand. apply list_elem_of_In, in_flat_map.
  exists m. split; [by apply list_elem_of_In|].
  unfold block_pairs. apply in_map_iff. exists k. split; [done|].
  apply list_elem_of_In, elem_of_seqZ. lia.
Qed.

(** X3: [get_matching_blocks] of the patience matcher returns, whatever the
    recursion bound, and every block [(i, j, n)] it returns is honest on the
    raw lines: for [0 <= k < n] the positions [i+k] and [j+k] lie in the files
    and [a[i+k] == b[j+k]], although the anchors were found on stripped
    lines. *)
Theorem patience_blocks_honest (maxrecursion : Z) (a b : list string) :
  exists blocks, Patience.get_matching_blocks_bounded maxrecursion a b = Ok blocks /\
    forall (m : block) k, m ∈ blocks -> 0 <= k < m.2 ->
      0 <= m.1.1 + k < len a /\ 0 <= m.1.2 + k < len b /\
      a !! Z.to_nat (m.1.1 + k) = b !! Z.to_nat (m.1.2 + k).
Proof.
  destruct (patience_blocks_valid maxrecursion a b) as (blocks & Hblocks & _).
  exists blocks. split; [done|].
  unfold Patience.get_matching_blocks_bounded, Patience.recurse_matches_py in Hblocks.
  destruct (recurse_matches_rec_sound (map strip a) (map strip b)
              (Z.to_nat (maxrecursion + 1)) 0 0 (len a) (len b) [])
    as (new & Hrec & [_ Hall]); try (unfold len; rewrite ?length_map; lia).
  rewrite Hrec in Hblocks. cbn [bind app] in Hblocks.
  destruct (filter_equal_raw a b new) as (matches & Hfilter & Hraw).
  { eapply Forall_impl; [done|]. intros p (? & ? & _). by split. }
  rewrite Hfilter in Hblocks. cbn [bind] in Hblocks.
  destruct (Patience._check_consistency _); [|done].
  cbn [bind] in Hblocks. injection Hblocks as <-.
  intros m k Hm Hk. apply elem_of_app in Hm as [Hm|Hm].
  - pose proof (elem_of_expand _ m k Hm Hk) as Hin.
    rewrite expand_collapse in Hin.
    destruct (Hraw _ Hin) as [[? ?] ?]. done.
  - apply list_elem_of_singleton in Hm. subst m. simpl in Hk. lia.
Qed.

(** ** More on [unique_lcs_py] *)

Section unique_lcs_py_more.
Context {A : Type} `{Countable A}.
Local Open Scope nat_scope.

Lemma sorted_lookup_gap (l : list nat) :
  StronglySorted lt l -> forall k k' v v',
  k <= k' -> l !! k = Some v -> l !! k' = Some v' -> v + (k' - k) <= v'.
Proof.
  induction 1 as [|x l Hl IH Hx]; intros k k' v v' Hk Hv Hv'; [done|].
  destruct k as [|k].
  - simpl in Hv. injection Hv as <-. destruct k' as [|k']; simpl in Hv'.
    + injection Hv' as <-. lia.
    + destruct (lookup_lt_is_Some_2 l 0) as [v0 Hv0].
      { apply lookup_lt_Some in Hv'. lia. }
      pose proof (IH 0 k' v0 v' (Nat.le_0_l _) Hv0 Hv').
      rewrite Forall_forall in Hx.
      assert (x < v0) by (apply Hx; by eapply list_elem_of_lookup_2). lia.
  - destruct k' as [|k']; [lia|]. simpl in Hv, Hv'.
    pose proof (IH k k' v v' ltac:(lia) Hv Hv'). lia.
Qed.

Lemma sorted_full (l : list nat) n :
  StronglySorted lt l -> Forall (fun v => v < n) l -> n <= length l -> l = seq 0 n.
Proof.
  intros Hs Hall Hlen.
  assert (forall k v, l !! k = Some v -> v = k /\ k < n) as Hpos.
  { intros k v Hv.
    destruct (lookup_lt_is_Some_2 l 0) as [v0 Hv0]; [apply lookup_lt_Some in Hv; lia|].
    destruct (lookup_lt_is_Some_2 l (length l - 1)) as [vl Hvl];
      [apply lookup_lt_Some in Hv; lia|].
    pose proof (lookup_lt_Some _ _ _ Hv).
    pose proof (sorted_lookup_gap l Hs 0 k v0 v (Nat.le_0_l _) Hv0 Hv).
    pose proof (sorted_lookup_gap l Hs k (length l - 1) v vl) as Hgap.
    rewrite Forall_forall in Hall.
    assert (vl < n) by (apply Hall; by eapply list_elem_of_lookup_2).
    specialize (Hgap ltac:(lia) Hv Hvl). lia. }
  apply list_eq. intros k. destruct (l !! k) as [v|] eqn:Hv.
  - destruct (Hpos k v Hv) as [-> ?]. symmetry. by apply lookup_seq.
  - symmetry. apply lookup_ge_None. rewrite length_seq.
    apply lookup_ge_None in Hv. lia.
Qed.

Lemma NoDup_once_at (a : list A) x i : NoDup a -> a !! i = Some x -> once_at a x i.
Proof.
  intros Hnd Hi. split; [done|]. intros j Hj. by eapply NoDup_lookup.
Qed.

(** The pairs [(0, 0), ..., (n-1, n-1)]. *)
Definition diagonal (n : nat) : list (nat * nat) := map (fun k => (k, k)) (seq 0 n).

(** X4: on a sequence without repeated elements compared with itself,
    [unique_lcs_py] returns every position matched with itself. *)
Theorem unique_lcs_py_identity (a : list A) :
  NoDup a -> unique_lcs_py a a = Ok (diagonal (length a)).
Proof.
  intros Hnd.
  destruct (unique_lcs_py_spec a a) as (result & -> & [Hinc Hall] & Hmax & _).
  f_equal.
  assert (unique_common_subsequence a a (diagonal (length a))) as Hdiag.
  { split.
    - apply StronglySorted_map with (R1 := lt); [intros x y Hxy; by split|].
      clear. generalize 0. induction (length a) as [|n IH]; intros m; simpl; constructor;
        [apply IH|]. apply Forall_forall. intros v Hv. apply list_elem_of_In, in_seq in Hv. lia.
    - apply Forall_map, Forall_forall. intros k Hk. apply list_elem_of_In, in_seq in Hk.
      destruct (lookup_lt_is_Some_2 a k) as [x Hx]; [lia|].
      exists x. split; by apply NoDup_once_at. }
  apply Hmax in Hdiag. unfold diagonal in Hdiag. rewrite length_map, length_seq in Hdiag.
  assert (Forall (fun p : nat * nat => p.2 = p.1 /\ p.1 < length a) result) as Hsame.
  { eapply Forall_impl; [done|]. intros [i q] (x & [Hi _] & [Hq _]). simpl in *.
    split; [by eapply NoDup_lookup|by eapply lookup_lt_Some]. }
  assert (map fst result = seq 0 (length a)) as Hfst.
  { apply sorted_full.
    - apply StronglySorted_map with (R1 := before); [by intros x y [? ?]|done].
    - apply Forall_map. eapply Forall_impl; [done|]. by intros p [_ ?].
    - by rewrite length_map. }
  unfold diagonal. rewrite <- Hfst, map_map.
  clear -Hsame. induction Hsame as [|[i q] rest [Hq _] _ IH]; [done|].
  simpl in *. subst q. by rewrite <- IH.
Qed.

Lemma unique_common_subsequence_swap (a b : list A) c :
  unique_common_subsequence a b c ->
  unique_common_subsequence b a (map (fun p : nat * nat => (p.2, p.1)) c).
Proof.
  intros [Hinc Hall]. split.
  - apply StronglySorted_map with (R1 := before); [|done].
    intros x y [? ?]. by split.
  - apply Forall_map. eapply Forall_impl; [done|].
    intros p (x & ? & ?). by exists x.
Qed.

(** X5: the number of anchors that [unique_lcs_py] finds does not depend on
    the order of its two arguments. *)
Theorem unique_lcs_py_length_symmetric (a b : list A) :
  exists r1 r2, unique_lcs_py a b = Ok r1 /\ unique_lcs_py b a = Ok r2 /\
    length r1 = length r2.
Proof.
  destruct (unique_lcs_py_spec a b) as (r1 & H1 & Hc1 & Hmax1 & _).
  destruct (unique_lcs_py_spec b a) as (r2 & H2 & Hc2 & Hmax2 & _).
  exists r1, r2. split; [done|]. split; [done|].
  apply unique_common_subsequence_swap, Hmax2 in Hc1.
  apply unique_common_subsequence_swap, Hmax1 in Hc2.
  rewrite length_map in Hc1, Hc2. lia.
Qed.

End unique_lcs_py_more.

Lemma unique_lcs_py_identity_example :
  NoDup ["a"; "b"; "c"]%string /\
  unique_lcs_py ["a"; "b"; "c"]%string ["a"; "b"; "c"]%string = Ok (diagonal 3).
Proof.
  assert (NoDup ["a"; "b"; "c"]%string) as Hnd by (apply (bool_decide_unpack _); vm_compute; exact I).
  split; [exact Hnd|]. exact (unique_lcs_py_identity ["a"; "b"; "c"]%string Hnd).
Defined.

(** ** More on junk clearing *)

Lemma keep_filter_no_blank s c : c ∈ keep_filter s -> is_blank c = false.
Proof.
  induction s as [|x s IH]; simpl; [by intros ?%not_elem_of_nil|].
  unfold kept at 1. destruct (is_blank x) eqn:Hx; simpl; [done|].
  destruct (run_length x s <? 2)%nat; [|done].
  intros [->|Hc]%elem_of_cons; [done|by apply IH].
Qed.

(** X6: a junk-cleared line holds no space, tab, carriage return or line
    feed; in particular the separators ["a\n"] and ["b\n"] that [get_opcodes]
    joins the junk-cleared lines with cannot occur inside one of them. *)
Theorem clear_junk_no_blank (s : string) :
  Forall (fun c => is_blank c = false /\ c <> lf) (list_ascii_of_string (clear_junk s)).
Proof.
  unfold clear_junk. rewrite list_ascii_of_string_of_list_ascii.
  rewrite sub_empty_keep_filter by done. apply Forall_forall. intros c Hc.
  apply keep_filter_no_blank in Hc. split; [done|]. by intros ->.
Qed.

(** ** The prefix and suffix loops of the klondike matcher *)

(** The first position at which the two lists differ, when both have it. *)
Fixpoint mismatch (va vb : list string) : option nat :=
  match va, vb with
  | x :: va', y :: vb' => if bool_decide (x = y) then S <$> mismatch va' vb' else Some O
  | _, _ => None
  end.

Lemma index_nat {A} (l : list A) (k : nat) : Py.index l (Z.of_nat k) = get l k.
Proof.
  unfold Py.index, get, len. destruct (Z.ltb_spec (Z.of_nat k) 0); [lia|].
  rewrite Nat2Z.id. destruct (l !! k) as [x|] eqn:Hk.
  - apply lookup_lt_Some in Hk.
    destruct (Z.leb_spec 0 (Z.of_nat k)); [|lia].
    by destruct (Z.ltb_spec (Z.of_nat k) (Z.of_nat (length l))); [|lia].
  - by destruct (_ && _).
Qed.

Lemma index_from_end {A} (l : list A) (k : nat) :
  Py.index l (-1 - Z.of_nat k) = get (reverse l) k.
Proof.
  unfold Py.index, get, len. destruct (Z.ltb_spec (-1 - Z.of_nat k) 0); [|lia].
  destruct (decide (k < length l)%nat) as [Hk|Hk].
  - rewrite reverse_lookup by done.
    destruct (Z.leb_spec 0 (-1 - Z.of_nat k + Z.of_nat (length l))); [|lia].
    destruct (Z.ltb_spec (-1 - Z.of_nat k + Z.of_nat (length l)) (Z.of_nat (length l))); [|lia].
    simpl. by replace (Z.to_nat (-1 - Z.of_nat k + Z.of_nat (length l)))
      with (length l - S k)%nat by lia.
  - rewrite (lookup_ge_None_2 (reverse l)) by (rewrite length_reverse; lia).
    by destruct (Z.leb_spec 0 (-1 - Z.of_nat k + Z.of_nat (length l))); [lia|].
Qed.

Lemma scan_loop (a b va vb : list string) (pos : nat -> Z) (step : Z -> Z) :
  (forall k, Py.index a (pos k) = get va k) ->
  (forall k, Py.index b (pos k) = get vb k) ->
  (forall k, step (pos k) = pos (S k)) ->
  forall fuel k, (length va - k < fuel)%nat ->
  while fuel (Klondike.same_at a b) (fun s => Ok (step s)) (pos k) =
  match mismatch (drop k va) (drop k vb) with
  | Some m => Ok (pos (k + m)%nat)
  | None => Raise IndexError
  end.
Proof.
  intros Ha Hb Hstep. induction fuel as [|fuel IH]; intros k Hf; [lia|].
  cbn [while]. unfold Klondike.same_at at 1. rewrite Ha, Hb. unfold get.
  destruct (va !! k) as [x|] eqn:Hx; cycle 1.
  { apply lookup_ge_None in Hx. by rewrite (drop_ge va) by done. }
  rewrite (drop_S va x k Hx).
  destruct (vb !! k) as [y|] eqn:Hy; cycle 1.
  { apply lookup_ge_None in Hy. by rewrite (drop_ge vb) by done. }
  rewrite (drop_S vb y k Hy). cbn [bind mismatch].
  case_bool_decide; [|by rewrite Nat.add_0_r].
  rewrite Hstep, IH by (apply lookup_lt_Some in Hx; lia).
  destruct (mismatch _ _) as [m|]; simpl; [|done].
  by replace (k + S m)%nat with (S k + m)%nat by lia.
Qed.

Lemma common_prefix_mismatch (a b : list string) :
  Klondike.common_prefix a b =
  match mismatch a b with
  | Some m => Ok (Z.of_nat m)
  | None => Raise IndexError
  end.
Proof.
  unfold Klondike.common_prefix.
  pose proof (scan_loop a b a b Z.of_nat (fun s => s + 1)
                (index_nat a) (index_nat b)) as Hloop.
  specialize (Hloop ltac:(intros; lia) (length a + 1)%nat O ltac:(lia)).
  simpl in Hloop. exact Hloop.
Qed.

Lemma common_suffix_mismatch (a b : list string) :
  Klondike.common_suffix a b =
  match mismatch (reverse a) (reverse b) with
  | Some m => Ok (-1 - Z.of_nat m)
  | None => Raise IndexError
  end.
Proof.
  unfold Klondike.common_suffix.
  pose proof (scan_loop a b (reverse a) (reverse b) (fun k => -1 - Z.of_nat k)
                (fun s => s - 1) (index_from_end a) (index_from_end b)) as Hloop.
  specialize (Hloop ltac:(intros; cbv beta; lia) (length a + 1)%nat O).
  rewrite length_reverse in Hloop. specialize (Hloop ltac:(lia)).
  simpl in Hloop. exact Hloop.
Qed.

Lemma mismatch_prefix (va vb : list string) :
  mismatch va vb = None <-> va `prefix_of` vb \/ vb `prefix_of` va.
Proof.
  revert vb. induction va as [|x va IH]; intros vb.
  { simpl. split; [intros _; left; apply prefix_nil|done]. }
  destruct vb as [|y vb].
  { simpl. split; [intros _; right; apply prefix_nil|done]. }
  simpl. case_bool_decide as Hxy.
  - subst y. rewrite fmap_None, IH. split.
    + intros [?|?]; [left|right]; by apply prefix_cons.
    + intros [?|?]; [left|right]; by eapply prefix_cons_inv_2.
  - split; [done|]. intros [Hp|Hp]; apply prefix_cons_inv_1 in Hp; congruence.
Qed.

Lemma mismatch_first (va vb : list string) m :
  mismatch va vb = Some m ->
  take m va = take m vb /\
  exists x y, va !! m = Some x /\ vb !! m = Some y /\ x <> y.
Proof.
  revert vb m. induction va as [|x va IH]; intros vb m; [done|].
  destruct vb as [|y vb]; [done|]. simpl. case_bool_decide as Hxy.
  - subst y. destruct (mismatch va vb) as [m'|] eqn:Hm; [|done].
    intros [= <-]. destruct (IH vb m' Hm) as (Htake & Hdiff).
    split; [simpl; by rewrite Htake|done].
  - intros [= <-]. split; [done|]. by exists x, y.
Qed.

(** X7: the prefix loop [while a_ws[start_line] == b_ws[start_line]] of the
    klondike matcher either raises [IndexError], exactly when one list is a
    prefix of the other (an empty list and equal lists included), or stops
    at the first position where the two lists differ. *)
Theorem common_prefix_first_mismatch (a_ws b_ws : list string) :
  (Klondike.common_prefix a_ws b_ws = Raise IndexError /\
   (a_ws `prefix_of` b_ws \/ b_ws `prefix_of` a_ws)) \/
  (exists m : nat,
     Klondike.common_prefix a_ws b_ws = Ok (Z.of_nat m) /\
     take m a_ws = take m b_ws /\
     (exists x y, a_ws !! m = Some x /\ b_ws !! m = Some y /\ x <> y) /\
     ~ (a_ws `prefix_of` b_ws \/ b_ws `prefix_of` a_ws)).
Proof.
  rewrite common_prefix_mismatch.
  destruct (mismatch a_ws b_ws) as [m|] eqn:Hm.
  - right. exists m. split; [done|].
    destruct (mismatch_first _ _ _ Hm) as [Htake Hdiff].
    split; [done|]. split; [done|]. rewrite <- mismatch_prefix. congruence.
  - left. split; [done|]. by apply mismatch_prefix.
Qed.

Lemma prefix_or_suffix_blocks_raise (difflib_blocks : matcher) (a b : list string) :
  map clear_junk a `prefix_of` map clear_junk b \/
  map clear_junk b `prefix_of` map clear_junk a \/
  map clear_junk a `suffix_of` map clear_junk b \/
  map clear_junk b `suffix_of` map clear_junk a ->
  Klondike.shifted_matches difflib_blocks a b = Raise IndexError /\
  Klondike.get_nearly_matching_blocks difflib_blocks a b = Raise IndexError.
Proof.
  set (a_ws := map clear_junk a). set (b_ws := map clear_junk b). intros Hcase.
  assert (Klondike.common_prefix a_ws b_ws = Raise IndexError \/
          exists s, Klondike.common_prefix a_ws b_ws = Ok s /\
                    Klondike.common_suffix a_ws b_ws = Raise IndexError) as Hloops.
  { rewrite common_prefix_mismatch, common_suffix_mismatch.
    destruct (mismatch a_ws b_ws) as [m|] eqn:Hm; [|by left].
    right. eexists. split; [done|].
    assert (mismatch (reverse a_ws) (reverse b_ws) = None) as ->; [|done].
    apply mismatch_prefix.
    destruct Hcase as [Hp|[Hp|[Hs|Hs]]].
    - assert (mismatch a_ws b_ws = None) by (apply mismatch_prefix; by left). congruence.
    - assert (mismatch a_ws b_ws = None) by (apply mismatch_prefix; by right). congruence.
    - left. by apply suffix_prefix_reverse.
    - right. by apply suffix_prefix_reverse. }
  split.
  - unfold Klondike.shifted_matches. fold a_ws b_ws.
    destruct Hloops as [->|(s & -> & Hsuffix)]; [done|].
    cbn [bind]. by rewrite Hsuffix.
  - unfold Klondike.get_nearly_matching_blocks. fold a_ws b_ws.
    destruct Hloops as [->|(s & -> & Hsuffix)]; [done|].
    cbn [bind]. by rewrite Hsuffix.
Qed.

(** X8: when the junk-cleared lines of one file are a prefix or a suffix of
    those of the other (lines only appended or only prepended, an empty
    file, equal files), then on a new matcher, whatever the classical
    matcher does: [get_matching_blocks] of the klondike matcher raises
    [IndexError] and leaves the caches empty, so that it raises at every
    call; [get_opcodes] of the klondike matcher and of [_piersdiff_py.py]
    raises [IndexError] at its first call and leaves the empty list in
    [self.opcodes], so that a later call raises nothing and returns the
    empty list, which it leaves there. *)
Theorem prefix_or_suffix_raises (difflib_blocks : matcher) (extra_effort : bool)
    (a b : list string) :
  map clear_junk a `prefix_of` map clear_junk b \/
  map clear_junk b `prefix_of` map clear_junk a \/
  map clear_junk a `suffix_of` map clear_junk b \/
  map clear_junk b `suffix_of` map clear_junk a ->
  Klondike.get_matching_blocks_cached difflib_blocks a b Klondike.fresh
    = (Raise IndexError, Klondike.fresh) /\
  (Klondike.get_opcodes_cached difflib_blocks extra_effort a b Klondike.fresh
     = (Raise IndexError, Klondike.Caches None (Some [])) /\
   Klondike.get_opcodes_cached difflib_blocks extra_effort a b (Klondike.Caches None (Some []))
     = (Ok [], Klondike.Caches None (Some []))) /\
  (Klondike.piers_get_opcodes_cached difflib_blocks a b Klondike.fresh
     = (Raise IndexError, Klondike.Caches None (Some [])) /\
   Klondike.piers_get_opcodes_cached difflib_blocks a b (Klondike.Caches None (Some []))
     = (Ok [], Klondike.Caches None (Some []))).
Proof.
  intros Hcase.
  destruct (prefix_or_suffix_blocks_raise difflib_blocks a b Hcase) as [Hblocks Hnearly].
  split; [|split; split; [|done| |done]].
  - unfold Klondike.get_matching_blocks_cached. simpl. by rewrite Hblocks.
  - unfold Klondike.get_opcodes_cached, Klondike.bind_method,
      Klondike.get_matching_blocks_cached. simpl. by rewrite Hblocks.
  - unfold Klondike.piers_get_opcodes_cached, Klondike.bind_method,
      Klondike.get_nearly_matching_blocks_cached. simpl. by rewrite Hnearly.
Qed.

Lemma appended_line_raises :
  let a := lines ["x"] in
  let b := lines ["x"; "y"] in
  let raised := (@Raise (list opcode) IndexError, Klondike.Caches None (Some [])) in
  let empty := (@Ok (list opcode) [], Klondike.Caches None (Some [])) in
  (map clear_junk a `prefix_of` map clear_junk b \/
   map clear_junk b `prefix_of` map clear_junk a \/
   map clear_junk a `suffix_of` map clear_junk b \/
   map clear_junk b `suffix_of` map clear_junk a) /\
  (Klondike.get_matching_blocks_cached (@Difflib.get_matching_blocks) a b Klondike.fresh
     = (Raise IndexError, Klondike.fresh) /\
   (Klondike.get_opcodes_cached (@Difflib.get_matching_blocks) true a b Klondike.fresh = raised /\
    Klondike.get_opcodes_cached (@Difflib.get_matching_blocks) true a b
      (Klondike.Caches None (Some [])) = empty) /\
   (Klondike.piers_get_opcodes_cached (@Difflib.get_matching_blocks) a b Klondike.fresh = raised /\
    Klondike.piers_get_opcodes_cached (@Difflib.get_matching_blocks) a b
      (Klondike.Caches None (Some [])) = empty)).
Proof.
  intros a b raised empty.
  assert (map clear_junk a `prefix_of` map clear_junk b) as Hp.
  { exists [clear_junk ("y" +:+ nl)]. reflexivity. }
  split; [by left|].
  exact (prefix_or_suffix_raises (@Difflib.get_matching_blocks) true a b (or_introl Hp)).
Defined.

(** ** What the sanity check of [get_opcodes] guarantees *)

(** The opcodes lead from [(i, j)] to [(i', j')]: the first starts at
    [(i, j)], each one starts where the one before ends, and the last ends
    at [(i', j')]. *)
Fixpoint covers (i j : Z) (ops : list opcode) (i' j' : Z) : Prop :=
  match ops with
  | [] => i = i' /\ j = j'
  | (_, i1, i2, j1, j2) :: rest => (i1 = i /\ j1 = j) /\ covers i2 j2 rest i' j'
  end.

(** Where the opcodes end. *)
Definition ends (i j : Z) (ops : list opcode) : Z * Z :=
  match last ops with
  | Some (_, _, i2, _, j2) => (i2, j2)
  | None => (i, j)
  end.

(** Each opcode starts where the one before ends. *)
Fixpoint linked (i j : Z) (ops : list opcode) : Prop :=
  match ops with
  | [] => True
  | (_, i1, i2, j1, j2) :: rest => (i1 = i /\ j1 = j) /\ linked i2 j2 rest
  end.

Lemma covers_linked i j ops i' j' :
  covers i j ops i' j' <-> linked i j ops /\ ends i j ops = (i', j').
Proof.
  revert i j. induction ops as [|[[[[t i1] i2] j1] j2] rest IH]; intros i j.
  - unfold ends. simpl. split; [intros [-> ->]; done|]. intros [_ [= -> ->]]. done.
  - cbn [covers linked]. rewrite IH.
    assert (ends i j ((t, i1, i2, j1, j2) :: rest) = ends i2 j2 rest) as ->; [|tauto].
    unfold ends. rewrite last_cons. by destruct (last rest).
Qed.

Lemma covers_app i j ops1 ops2 i1 j1 i2 j2 :
  covers i j ops1 i1 j1 -> covers i1 j1 ops2 i2 j2 -> covers i j (ops1 ++ ops2) i2 j2.
Proof.
  revert i j. induction ops1 as [|[[[[t a1] a2] b1] b2] rest IH]; intros i j.
  - simpl. by intros [-> ->].
  - simpl. intros [? ?] ?. split; [done|]. by apply IH.
Qed.

Lemma cover_fold (ops : list opcode) : forall errors i j,
  exists errs,
    fold_left Klondike.cover_step ops (errors, i, j) = (errors ++ errs, (ends i j ops).1, (ends i j ops).2) /\
    (errs = [] <-> linked i j ops).
Proof.
  induction ops as [|[[[[t i1] i2] j1] j2] rest IH]; intros errors i j.
  - exists []. simpl. by rewrite app_nil_r.
  - cbn [fold_left Klondike.cover_step linked].
    assert (ends i j ((t, i1, i2, j1, j2) :: rest) = ends i2 j2 rest) as ->.
    { unfold ends. rewrite last_cons. by destruct (last rest). }
    destruct (Z.eqb_spec i1 i) as [->|Hi]; [destruct (Z.eqb_spec j1 j) as [->|Hj]|]; cbn [andb].
    + destruct (IH errors i2 j2) as (errs & -> & Hiff). exists errs. split; [done|]. tauto.
    + destruct (IH (errors ++ [(t, i, i2, j1, j2)]) i2 j2) as (errs & -> & _).
      exists ((t, i, i2, j1, j2) :: errs). rewrite <- app_assoc. split; [done|].
      split; [done|]. intros [[_ ?] _]. done.
    + destruct (IH (errors ++ [(t, i1, i2, j1, j2)]) i2 j2) as (errs & -> & _).
      exists ((t, i1, i2, j1, j2) :: errs). rewrite <- app_assoc. split; [done|].
      split; [done|]. intros [[? _] _]. done.
Qed.

Lemma sanity_check_covers (a b : list string) (answer r : list opcode) :
  Klondike.sanity_check a b answer = Ok r <->
  r = answer /\ covers 0 0 answer (len a) (len b).
Proof.
  unfold Klondike.sanity_check. rewrite covers_linked.
  destruct (cover_fold answer [] 0 0) as (errs & -> & Hiff). cbn [app].
  destruct (ends 0 0 answer) as [i3 j3] eqn:Hends. cbn [fst snd].
  destruct (Z.eqb_spec i3 (len a)) as [->|Hi]; [destruct (Z.eqb_spec j3 (len b)) as [->|Hj]|];
    cbn [andb bind].
  - destruct errs as [|e errs].
    + split; [intros [= <-]; tauto|]. by intros [-> _].
    + split; [done|]. intros [_ [Hl _]]. apply Hiff in Hl. done.
  - split; [|intros [_ [_ [= ?]]]; done].
    destruct (last answer); cbn [bind]; [|done]. by destruct errs.
  - split; [|intros [_ [_ [= ? _]]]; done].
    destruct (last answer); cbn [bind]; [|done]. by destruct errs.
Qed.

(** A method that leaves a list in [self.opcodes] when there is one. *)
Definition keeps_answer {X} (m : Klondike.method X) : Prop :=
  forall c, is_Some (Klondike.opcodes c) -> is_Some (Klondike.opcodes (m c).2).

Lemma keeps_unit {X} (x : X) : keeps_answer (Klondike.unit_method x).
Proof. by intros c. Qed.

Lemma keeps_lift {X} (r : result X) : keeps_answer (Klondike.lift r).
Proof. by intros c. Qed.

Lemma keeps_append (o : opcode) : keeps_answer (Klondike.append o).
Proof. intros c _. by eexists. Qed.

Lemma keeps_bind {X Y} (m : Klondike.method X) (k : X -> Klondike.method Y) :
  keeps_answer m -> (forall x, keeps_answer (k x)) -> keeps_answer (Klondike.bind_method m k).
Proof.
  intros Hm Hk c Hc. unfold Klondike.bind_method. specialize (Hm c Hc).
  destruct (m c) as [[x|e] c']; [by apply Hk|done].
Qed.

Lemma keeps_each {S E} (body : S -> E -> Klondike.method S) (l : list E) :
  (forall s e, keeps_answer (body s e)) -> forall s, keeps_answer (Klondike.each body l s).
Proof.
  intros Hbody. induction l as [|e l IH]; intros s; [apply keeps_unit|].
  apply keeps_bind; [apply Hbody|apply IH].
Qed.

Lemma keeps_if {X} (t : bool) (m1 m2 : Klondike.method X) :
  keeps_answer m1 -> keeps_answer m2 -> keeps_answer (if t then m1 else m2).
Proof. by destruct t. Qed.

Section caches.
Variable difflib_blocks : matcher.

Local Ltac keeps :=
  repeat first
    [ apply keeps_unit | apply keeps_lift | apply keeps_append | apply keeps_if
    | match goal with |- keeps_answer (let '(_, _) := ?p in _) => destruct p end
    | apply keeps_bind; [|match goal with |- forall _, _ => intro end]
    | apply keeps_each; intros
    | progress unfold Klondike.split_step_cached, Klondike.split_replace_cached,
        Klondike.junk_step_cached, Klondike.junk_changes_cached,
        Klondike.opcode_step_cached ].

Lemma keeps_opcode_step extra_effort a b a_ws b_ws st blk :
  keeps_answer (Klondike.opcode_step_cached difflib_blocks extra_effort a b a_ws b_ws st blk).
Proof. destruct st as [i j], blk as [[ai bj] size]. keeps. Qed.

Lemma keeps_get_matching_blocks a b :
  keeps_answer (Klondike.get_matching_blocks_cached difflib_blocks a b).
Proof.
  intros c Hc. unfold Klondike.get_matching_blocks_cached.
  destruct (Klondike.matching_blocks c); [done|].
  by destruct (Klondike.shifted_matches _ _ _).
Qed.

Lemma keeps_get_nearly_matching_blocks a b :
  keeps_answer (Klondike.get_nearly_matching_blocks_cached difflib_blocks a b).
Proof.
  intros c Hc. unfold Klondike.get_nearly_matching_blocks_cached.
  destruct (Klondike.matching_blocks c); [done|].
  by destruct (Klondike.get_nearly_matching_blocks _ _ _).
Qed.

(** A call of [get_opcodes] that finds [self.opcodes] empty, for either
    matcher: [get_blocks] is the method that it takes the blocks from. *)
Definition opcodes_call (get_blocks : Klondike.method (list block)) (extra_effort : bool)
    (a b a_ws b_ws : list string) : Klondike.method (list opcode) :=
  fun c =>
    match Klondike.opcodes c with
    | Some answer => (Ok answer, c)
    | None =>
        Klondike.bind_method get_blocks
          (Klondike.fill_opcodes difflib_blocks extra_effort a b a_ws b_ws)
          (Klondike.Caches (Klondike.matching_blocks c) (Some []))
    end.

Lemma opcodes_call_cover get_blocks extra_effort a b a_ws b_ws (c : Klondike.caches) :
  keeps_answer get_blocks ->
  Klondike.opcodes c = None ->
  match opcodes_call get_blocks extra_effort a b a_ws b_ws c with
  | (Ok ops, c') =>
      covers 0 0 ops (len a) (len b) /\
      opcodes_call get_blocks extra_effort a b a_ws b_ws c' = (Ok ops, c')
  | (Raise _, c') =>
      exists left, opcodes_call get_blocks extra_effort a b a_ws b_ws c' = (Ok left, c')
  end.
Proof.
  intros Hblocks Hc. unfold opcodes_call at 1. rewrite Hc.
  set (c0 := Klondike.Caches (Klondike.matching_blocks c) (Some [])).
  assert (forall c' : Klondike.caches, is_Some (Klondike.opcodes c') ->
            exists left, opcodes_call get_blocks extra_effort a b a_ws b_ws c' = (Ok left, c'))
    as Hleft.
  { intros c' [left Hc']. exists left. unfold opcodes_call. by rewrite Hc'. }
  unfold Klondike.bind_method at 1.
  pose proof (Hblocks c0 ltac:(by eexists)) as H1.
  destruct (get_blocks c0) as [[blocks|e] c1]; [|by apply Hleft].
  unfold Klondike.fill_opcodes, Klondike.bind_method.
  pose proof (keeps_each (Klondike.opcode_step_cached difflib_blocks extra_effort a b a_ws b_ws)
                blocks ltac:(intros; apply keeps_opcode_step) (0, 0) c1 H1) as H2.
  destruct (Klondike.each _ blocks (0, 0) c1) as [[st|e] c2]; [|by apply Hleft].
  simpl in H2. destruct H2 as [answer Hanswer]. rewrite Hanswer. cbn [from_option id].
  destruct (Klondike.sanity_check a b answer) as [ops|e] eqn:Hcheck.
  - apply sanity_check_covers in Hcheck as [-> Hcover]. split; [done|].
    unfold opcodes_call. by rewrite Hanswer.
  - apply Hleft. by eexists.
Qed.

(** X9: a call of [get_opcodes], of the klondike matcher or of
    [_piersdiff_py.py], on a matcher whose cache [self.opcodes] is empty
    (a new matcher, whatever [self.matching_blocks] holds).  If the call
    returns, its opcodes cover both files: the first one starts at
    [(0, 0)], each one starts where the one before ends, in [a] and in [b],
    and the last one ends at [(len(a), len(b))]; the next call returns the
    same list.  If the call raises, the next call raises nothing: it
    returns the list that the call left in [self.opcodes], of which
    nothing is said. *)
Theorem get_opcodes_cover (extra_effort : bool) (a b : list string) (c : Klondike.caches) :
  Klondike.opcodes c = None ->
  match Klondike.get_opcodes_cached difflib_blocks extra_effort a b c with
  | (Ok ops, c') =>
      covers 0 0 ops (len a) (len b) /\
      Klondike.get_opcodes_cached difflib_blocks extra_effort a b c' = (Ok ops, c')
  | (Raise _, c') =>
      exists left, Klondike.get_opcodes_cached difflib_blocks extra_effort a b c' = (Ok left, c')
  end /\
  match Klondike.piers_get_opcodes_cached difflib_blocks a b c with
  | (Ok ops, c') =>
      covers 0 0 ops (len a) (len b) /\
      Klondike.piers_get_opcodes_cached difflib_blocks a b c' = (Ok ops, c')
  | (Raise _, c') =>
      exists left, Klondike.piers_get_opcodes_cached difflib_blocks a b c' = (Ok left, c')
  end.
Proof.
  intros Hc. split.
  - exact (opcodes_call_cover (Klondike.get_matching_blocks_cached difflib_blocks a b)
             extra_effort a b (map clear_junk a) (map clear_junk b) c
             (keeps_get_matching_blocks a b) Hc).
  - exact (opcodes_call_cover (Klondike.get_nearly_matching_blocks_cached difflib_blocks a b)
             false a b [] [] c (keeps_get_nearly_matching_blocks a b) Hc).
Qed.

(** *** The first call on a new matcher

    The value of [get_matching_blocks_cached] and [get_opcodes_cached] on
    the caches of a new matcher is that of [get_matching_blocks] and
    [get_opcodes]. *)

Definition with_answer (c : Klondike.caches) (answer : list opcode) : Klondike.caches :=
  Klondike.Caches (Klondike.matching_blocks c) (Some answer).

(** The method did to the list in [self.opcodes] what the function did to
    its argument [answer], and raised when it raised; [enc] puts the other
    variables and [answer] together as the function has them. *)
Definition agree {P S} (enc : S -> list opcode -> P) (c : Klondike.caches)
    (pure : result P) (out : result S * Klondike.caches) : Prop :=
  match pure with
  | Ok p => exists s answer, p = enc s answer /\ out = (Ok s, with_answer c answer)
  | Raise e => out.1 = Raise e
  end.

Lemma each_agree {P S E} (enc : S -> list opcode -> P)
    (body : P -> E -> result P) (body_m : S -> E -> Klondike.method S) :
  (forall s answer e c, Klondike.opcodes c = Some answer ->
     agree enc c (body (enc s answer) e) (body_m s e c)) ->
  forall l s answer c, Klondike.opcodes c = Some answer ->
    agree enc c (for_each body l (enc s answer)) (Klondike.each body_m l s c).
Proof.
  intros Hbody. induction l as [|e l IH]; intros s answer c Hc.
  - simpl. exists s, answer. split; [done|].
    destruct c as [mb oc]. simpl in Hc. by subst oc.
  - cbn [for_each Klondike.each]. unfold Klondike.bind_method.
    pose proof (Hbody s answer e c Hc) as Hstep.
    destruct (body (enc s answer) e) as [p|err].
    + destruct Hstep as (s' & answer' & -> & ->).
      exact (IH s' answer' (with_answer c answer') eq_refl).
    + simpl in Hstep. destruct (body_m s e c) as [r c']. simpl in Hstep. by subst r.
Qed.

Lemma junk_step_agree a b ai bj n1 n answer c :
  Klondike.opcodes c = Some answer ->
  agree pair c (Klondike.junk_step a b ai bj (n1, answer) n)
    (Klondike.junk_step_cached a b ai bj n1 n c).
Proof.
  intros Hc. destruct c as [mb oc]. simpl in Hc. subst oc.
  unfold Klondike.junk_step, Klondike.junk_step_cached, Klondike.bind_method, Klondike.lift.
  destruct (Py.index a (ai + n)) as [x|]; [|done].
  destruct (Py.index b (bj + n)) as [y|]; [|done]. cbn [bind].
  case_bool_decide; [by eexists _, _|].
  destruct (n1 <? n); eexists _, _; (split; [reflexivity|]); reflexivity.
Qed.

Lemma junk_changes_agree a b ai bj size answer c :
  Klondike.opcodes c = Some answer ->
  agree (fun (_ : unit) answer => answer) c (Klondike.junk_changes a b ai bj size answer)
    (Klondike.junk_changes_cached a b ai bj size c).
Proof.
  intros Hc. unfold Klondike.junk_changes, Klondike.junk_changes_cached.
  pose proof (each_agree pair (Klondike.junk_step a b ai bj)
                (Klondike.junk_step_cached a b ai bj)
                ltac:(intros; by apply junk_step_agree) (seqZ 0 size) 0 answer c Hc) as Hloop.
  unfold Klondike.bind_method.
  destruct (for_each _ _ _) as [[n1 answer']|err].
  - destruct Hloop as (s & answer'' & [= <- <-] & ->). cbn [bind].
    destruct (n1 <? size); by eexists tt, _.
  - simpl in Hloop. destruct (Klondike.each _ _ _ _) as [r c']. simpl in Hloop. by subst r.
Qed.

Definition split_vars (vars : Z * Z * Z * Z * Z * Z) (answer : list opcode)
    : Klondike.split_state :=
  let '(at_a, at_an, at_b, at_bn, done_an, done_bn) := vars in
  Klondike.Split at_a at_an at_b at_bn done_an done_bn answer.

Lemma split_step_agree a b a_ws b_ws i j vars m answer c :
  Klondike.opcodes c = Some answer ->
  agree split_vars c (Klondike.split_step a b a_ws b_ws i j (split_vars vars answer) m)
    (Klondike.split_step_cached a b a_ws b_ws i j vars m c).
Proof.
  intros Hc. destruct c as [mb oc]. simpl in Hc. subst oc.
  destruct vars as [[[[[at_a at_an] at_b] at_bn] done_an] done_bn].
  unfold Klondike.split_step, Klondike.split_step_cached, Klondike.bind_method, Klondike.lift.
  cbn [split_vars Klondike.cur_a Klondike.cur_an Klondike.cur_b Klondike.cur_bn
       Klondike.prev_an Klondike.prev_bn Klondike.split_answer].
  destruct (5 <=? m.2); [|by eexists (_, _, _, _, _, _), _].
  destruct (Klondike.line_of a_ws i m.1.1 (at_a, at_an)) as [[at_a' at_an']|]; [|done].
  destruct (Klondike.line_of b_ws j m.1.2 (at_b, at_bn)) as [[at_b' at_bn']|]; [|done].
  cbn [bind].
  destruct ((done_an <? at_an') && (done_bn <? at_bn')); [|by eexists (_, _, _, _, _, _), _].
  destruct ((done_an <? at_an' - 1) || (done_bn <? at_bn' - 1)); simpl;
    (destruct (Py.index a (i + at_an' - 1)) as [x|]; [|done]);
    (destruct (Py.index b (j + at_bn' - 1)) as [y|]; [|done]); simpl;
    by eexists (_, _, _, _, _, _), _.
Qed.

Lemma split_replace_agree a b a_ws b_ws i ai j bj answer c :
  Klondike.opcodes c = Some answer ->
  agree (fun (_ : unit) answer => answer) c
    (Klondike.split_replace difflib_blocks a b a_ws b_ws i ai j bj answer)
    (Klondike.split_replace_cached difflib_blocks a b a_ws b_ws i ai j bj c).
Proof.
  intros Hc. unfold Klondike.split_replace, Klondike.split_replace_cached.
  unfold Klondike.bind_method at 1. unfold Klondike.lift at 1.
  destruct (difflib_blocks ascii _ _ _ _) as [matches|]; [|done]. cbn [bind].
  pose proof (each_agree split_vars (Klondike.split_step a b a_ws b_ws i j)
                (Klondike.split_step_cached a b a_ws b_ws i j)
                ltac:(intros; by apply split_step_agree) matches (0, 0, 0, 0, 0, 0) answer c Hc)
    as Hloop.
  unfold Klondike.bind_method. cbn [split_vars] in Hloop.
  destruct (for_each _ _ _) as [st|err].
  - destruct Hloop as ([[[[[at_a at_an] at_b] at_bn] done_an] done_bn] & answer' & -> & ->).
    cbn [bind split_vars Klondike.prev_an Klondike.prev_bn Klondike.split_answer].
    destruct ((i + done_an <? ai) || (j + done_bn <? bj)); by eexists tt, _.
  - simpl in Hloop. destruct (Klondike.each _ _ _ _) as [r c']. simpl in Hloop. by subst r.
Qed.

Lemma opcode_step_agree extra_effort a b a_ws b_ws st blk answer c :
  Klondike.opcodes c = Some answer ->
  agree pair c
    (Klondike.opcode_step difflib_blocks extra_effort a b a_ws b_ws (st, answer) blk)
    (Klondike.opcode_step_cached difflib_blocks extra_effort a b a_ws b_ws st blk c).
Proof.
  intros Hc. destruct st as [i j], blk as [[ai bj] size].
  unfold Klondike.opcode_step, Klondike.opcode_step_cached.
  unfold Klondike.bind_method at 1.
  set (first :=
    if (i <? ai) && (j <? bj)
    then if extra_effort && ((i <? ai - 1) || (j <? bj - 1))
         then Klondike.split_replace difflib_blocks a b a_ws b_ws i ai j bj answer
         else Ok (answer ++ [(Replace, i, ai, j, bj)])
    else if i <? ai then Ok (answer ++ [(Delete, i, ai, j, bj)])
    else if j <? bj then Ok (answer ++ [(Insert, i, ai, j, bj)])
    else Ok answer).
  set (first_cached :=
    if (i <? ai) && (j <? bj)
    then if extra_effort && ((i <? ai - 1) || (j <? bj - 1))
         then Klondike.split_replace_cached difflib_blocks a b a_ws b_ws i ai j bj
         else Klondike.append (Replace, i, ai, j, bj)
    else if i <? ai then Klondike.append (Delete, i, ai, j, bj)
    else if j <? bj then Klondike.append (Insert, i, ai, j, bj)
    else Klondike.unit_method tt).
  assert (agree (fun (_ : unit) answer => answer) c first (first_cached c)) as Hfirst.
  { assert (forall o, agree (fun (_ : unit) answer => answer) c (Ok (answer ++ [o]))
                        (Klondike.append o c)) as Happend.
    { intros o. exists tt, (answer ++ [o]). split; [done|].
      unfold Klondike.append. by rewrite Hc. }
    subst first first_cached. destruct ((i <? ai) && (j <? bj)).
    - destruct (extra_effort && _); [by apply split_replace_agree|apply Happend].
    - destruct (i <? ai); [apply Happend|]. destruct (j <? bj); [apply Happend|].
      exists tt, answer. split; [done|]. destruct c as [mb oc]. simpl in Hc. by subst oc. }
  clearbody first first_cached.
  destruct first as [answer1|err].
  - destruct Hfirst as (? & ? & <- & ->). cbn [bind].
    pose proof (junk_changes_agree a b ai bj size answer1 (with_answer c answer1) eq_refl)
      as Hjunk.
    unfold Klondike.bind_method.
    destruct (Klondike.junk_changes a b ai bj size answer1) as [answer2|err].
    + destruct Hjunk as (? & ? & <- & ->). cbn [bind]. by eexists (_, _), _.
    + simpl in Hjunk. destruct (Klondike.junk_changes_cached _ _ _ _ _ _) as [r c'].
      simpl in Hjunk. by subst r.
  - simpl in Hfirst. destruct (first_cached c) as [r c'].
    simpl in Hfirst. by subst r.
Qed.

Lemma fill_opcodes_agree extra_effort a b a_ws b_ws blocks mb :
  (Klondike.fill_opcodes difflib_blocks extra_effort a b a_ws b_ws blocks
     (Klondike.Caches mb (Some []))).1 =
  let* (_, _, answer) :=
    for_each (Klondike.opcode_step difflib_blocks extra_effort a b a_ws b_ws) blocks (0, 0, []) in
  Klondike.sanity_check a b answer.
Proof.
  unfold Klondike.fill_opcodes, Klondike.bind_method.
  pose proof (each_agree pair
                (Klondike.opcode_step difflib_blocks extra_effort a b a_ws b_ws)
                (Klondike.opcode_step_cached difflib_blocks extra_effort a b a_ws b_ws)
                ltac:(intros; by apply opcode_step_agree) blocks (0, 0) []
                (Klondike.Caches mb (Some [])) eq_refl) as Hloop.
  destruct (for_each _ _ _) as [[[i j] answer]|err].
  - by destruct Hloop as (? & ? & [= <- <-] & ->).
  - simpl in Hloop. destruct (Klondike.each _ _ _ _) as [r c']. simpl in Hloop. by subst r.
Qed.

Lemma get_matching_blocks_cached_fresh a b oc :
  (Klondike.get_matching_blocks_cached difflib_blocks a b (Klondike.Caches None oc)).1 =
  Klondike.get_matching_blocks difflib_blocks a b.
Proof.
  unfold Klondike.get_matching_blocks_cached, Klondike.get_matching_blocks. simpl.
  by destruct (Klondike.shifted_matches _ _ _).
Qed.

Lemma get_opcodes_cached_fresh extra_effort a b :
  (Klondike.get_opcodes_cached difflib_blocks extra_effort a b Klondike.fresh).1 =
  Klondike.get_opcodes_with difflib_blocks extra_effort a b.
Proof.
  unfold Klondike.get_opcodes_cached, Klondike.get_opcodes_with, Klondike.bind_method. simpl.
  rewrite <- (get_matching_blocks_cached_fresh a b (Some [])).
  unfold Klondike.get_matching_blocks_cached. simpl.
  destruct (Klondike.shifted_matches _ _ _) as [matches|]; [|done].
  destruct (Klondike._check_consistency matches); [|done]. cbn [bind fst].
  apply fill_opcodes_agree.
Qed.

Lemma piers_get_opcodes_cached_fresh a b :
  (Klondike.piers_get_opcodes_cached difflib_blocks a b Klondike.fresh).1 =
  Klondike.piers_get_opcodes difflib_blocks a b.
Proof.
  unfold Klondike.piers_get_opcodes_cached, Klondike.piers_get_opcodes, Klondike.bind_method,
    Klondike.get_nearly_matching_blocks_cached. simpl.
  destruct (Klondike.get_nearly_matching_blocks _ _ _) as [matches|]; [|done].
  cbn [bind]. apply fill_opcodes_agree.
Qed.

End caches.

Lemma get_opcodes_cover_example :
  let a := lines ["a"; "x"; "b"; "c"; "d"; "e"] in
  let b := lines ["a"; "b"; "y"; "c"; "d"; "f"] in
  let ops := [(Equal, 0, 1, 0, 1); (Delete, 1, 2, 1, 1); (Equal, 2, 3, 1, 2);
              (Insert, 3, 3, 2, 3); (Equal, 3, 5, 3, 5); (Replace, 5, 6, 5, 6)] in
  Klondike.opcodes Klondike.fresh = None /\
  (match Klondike.get_opcodes_cached (@Difflib.get_matching_blocks) true a b Klondike.fresh with
   | (Ok ops, c') =>
       covers 0 0 ops (len a) (len b) /\
       Klondike.get_opcodes_cached (@Difflib.get_matching_blocks) true a b c' = (Ok ops, c')
   | (Raise _, c') =>
       exists left,
         Klondike.get_opcodes_cached (@Difflib.get_matching_blocks) true a b c' = (Ok left, c')
   end /\
   match Klondike.piers_get_opcodes_cached (@Difflib.get_matching_blocks) a b Klondike.fresh with
   | (Ok ops, c') =>
       covers 0 0 ops (len a) (len b) /\
       Klondike.piers_get_opcodes_cached (@Difflib.get_matching_blocks) a b c' = (Ok ops, c')
   | (Raise _, c') =>
       exists left,
         Klondike.piers_get_opcodes_cached (@Difflib.get_matching_blocks) a b c' = (Ok left, c')
   end) /\
  (Klondike.get_opcodes_cached (@Difflib.get_matching_blocks) true a b Klondike.fresh).1 = Ok ops.
Proof.
  intros a b ops. split; [reflexivity|]. split; [|vm_compute; reflexivity].
  exact (get_opcodes_cover (@Difflib.get_matching_blocks) true a b Klondike.fresh eq_refl).
Defined.

(** ** The junk check of a matching block *)

(** What the junk check may emit: an [Equal] opcode over a range that is not
    empty and whose raw lines are pairwise equal, or a [Replace] of one line
    by one line that differs from it. *)
Definition junk_opcode (a b : list string) (o : opcode) : Prop :=
  let '(t, i1, i2, j1, j2) := o in
  match t with
  | Equal =>
      i1 < i2 /\ i2 - i1 = j2 - j1 /\
      forall k, 0 <= k < i2 - i1 -> a !! Z.to_nat (i1 + k) = b !! Z.to_nat (j1 + k)
  | Replace =>
      i2 = i1 + 1 /\ j2 = j1 + 1 /\ a !! Z.to_nat i1 <> b !! Z.to_nat j1
  | _ => False
  end.

Lemma junk_loop (a b : list string) (ai bj : Z) (m : nat) : forall n n1 answer,
  0 <= ai -> 0 <= bj -> 0 <= n1 <= n ->
  ai + n + Z.of_nat m <= len a -> bj + n + Z.of_nat m <= len b ->
  (forall k, n1 <= k < n -> a !! Z.to_nat (ai + k) = b !! Z.to_nat (bj + k)) ->
  exists n1' new,
    for_each (Klondike.junk_step a b ai bj) (seqZ n (Z.of_nat m)) (n1, answer)
      = Ok (n1', answer ++ new) /\
    n1 <= n1' <= n + Z.of_nat m /\
    covers (ai + n1) (bj + n1) new (ai + n1') (bj + n1') /\
    Forall (junk_opcode a b) new /\
    (forall k, n1' <= k < n + Z.of_nat m -> a !! Z.to_nat (ai + k) = b !! Z.to_nat (bj + k)).
Proof.
  induction m as [|m IH]; intros n n1 answer Hai Hbj Hn1 Ha Hb Heq.
  { exists n1, []. simpl. rewrite app_nil_r. split; [done|]. split; [lia|].
    split; [done|]. split; [done|]. intros k Hk. apply Heq. lia. }
  rewrite seqZ_cons by lia. cbn [for_each].
  replace (Z.pred (Z.of_nat (S m))) with (Z.of_nat m) by lia.
  unfold Klondike.junk_step at 1.
  destruct (index_in_range a (ai + n)) as (x & -> & Hx); [lia|].
  destruct (index_in_range b (bj + n)) as (y & -> & Hy); [lia|].
  cbn [bind]. case_bool_decide as Hxy.
  - subst y.
    destruct (IH (Z.succ n) n1 answer) as (n1' & new & Hloop & Hn1' & Hc & Hall & Heq');
      [lia..| |].
    { intros k Hk. destruct (decide (k = n)) as [->|]; [congruence|]. apply Heq. lia. }
    exists n1', new. split; [done|]. split; [lia|]. split; [done|]. split; [done|].
    intros k Hk. apply Heq'. lia.
  - set (equal := if n1 <? n then [(Equal, ai + n1, ai + n, bj + n1, bj + n)] else []).
    assert ((if n1 <? n then answer ++ [(Equal, ai + n1, ai + n, bj + n1, bj + n)] else answer)
            = answer ++ equal) as ->.
    { unfold equal. destruct (n1 <? n); [done|]. by rewrite app_nil_r. }
    destruct (IH (Z.succ n) (n + 1)
                ((answer ++ equal) ++ [(Replace, ai + n, ai + n + 1, bj + n, bj + n + 1)]))
      as (n1' & new & Hloop & Hn1' & Hc & Hall & Heq'); [lia..| |].
    { intros k Hk. lia. }
    exists n1', (equal ++ (Replace, ai + n, ai + n + 1, bj + n, bj + n + 1) :: new).
    split. { rewrite Hloop. f_equal. f_equal. rewrite <- !app_assoc. done. }
    split; [lia|]. split; [|split].
    + apply covers_app with (ai + n) (bj + n).
      * unfold equal. destruct (Z.ltb_spec n1 n); simpl; [done|].
        split; f_equal; lia.
      * simpl. split; [done|].
        replace (ai + n + 1) with (ai + (n + 1)) by lia.
        replace (bj + n + 1) with (bj + (n + 1)) by lia. done.
    + apply Forall_app. split.
      * unfold equal. destruct (Z.ltb_spec n1 n); [|done].
        apply Forall_singleton. simpl. split; [lia|]. split; [lia|].
        intros k Hk. rewrite <- !Z.add_assoc. apply Heq. lia.
      * apply Forall_cons. split; [|done]. simpl. split; [done|]. split; [done|].
        rewrite Hx, Hy. congruence.
    + intros k Hk. apply Heq'. lia.
Qed.

(** X10: for a block [(ai, bj, size)] that lies in both files, the junk
    check of [get_opcodes] returns and only appends to [answer]; the opcodes
    it appends lead from [(ai, bj)] to the end of the block, and each one is
    an [Equal] over raw lines that are pairwise equal or a [Replace] of one
    line by one that differs: a block found on junk-cleared lines never
    reports lines that differ as equal. *)
Theorem junk_changes_honest (a b : list string) (ai bj size : Z) (answer : list opcode) :
  0 <= ai -> 0 <= bj -> 0 <= size -> ai + size <= len a -> bj + size <= len b ->
  exists new,
    Klondike.junk_changes a b ai bj size answer = Ok (answer ++ new) /\
    covers ai bj new (ai + size) (bj + size) /\
    Forall (junk_opcode a b) new.
Proof.
  intros Hai Hbj Hsize Ha Hb. unfold Klondike.junk_changes.
  destruct (junk_loop a b ai bj (Z.to_nat size) 0 0 answer)
    as (n1 & new & Hloop & Hn1 & Hc & Hall & Heq); [lia..| |].
  { intros k Hk. lia. }
  rewrite Z2Nat.id in * by lia. rewrite Hloop. cbn [bind].
  rewrite !Z.add_0_r in Hc. simpl in Hn1, Heq.
  destruct (Z.ltb_spec n1 size).
  - exists (new ++ [(Equal, ai + n1, ai + size, bj + n1, bj + size)]).
    rewrite app_assoc. split; [done|]. split.
    + eapply covers_app; [done|]. simpl. done.
    + apply Forall_app. split; [done|]. apply Forall_singleton. simpl.
      split; [lia|]. split; [lia|].
      intros k Hk. rewrite <- !Z.add_assoc. apply Heq. lia.
  - exists new. split; [done|]. replace size with n1 by lia. done.
Qed.

Lemma junk_changes_honest_example :
  (0 <= 1 /\ 0 <= 0 /\ 0 <= 3 /\ 1 + 3 <= len (lines ["q"; "a"; " b"; "c"]) /\
   0 + 3 <= len (lines ["a"; "b"; "c"])) /\
  exists new,
    Klondike.junk_changes (lines ["q"; "a"; " b"; "c"]) (lines ["a"; "b"; "c"]) 1 0 3 []
      = Ok ([] ++ new) /\
    covers 1 0 new (1 + 3) (0 + 3) /\
    Forall (junk_opcode (lines ["q"; "a"; " b"; "c"]) (lines ["a"; "b"; "c"])) new.
Proof.
  split; [vm_compute; repeat split; discriminate|].
  apply (junk_changes_honest (lines ["q"; "a"; " b"; "c"]) (lines ["a"; "b"; "c"]) 1 0 3 []);
    vm_compute; discriminate.
Defined.

(** ** The shift of overlapping blocks *)

(** Block [c] is block [m] made smaller: it starts no earlier, ends no
    later and lies on the same diagonal. *)
Definition shrunk (m c : block) : Prop :=
  m.1.1 <= c.1.1 /\ c.1.1 - c.1.2 = m.1.1 - m.1.2 /\ c.1.1 + c.2 <= m.1.1 + m.2.

(** Block [n] ends, in [a] and in [b], at or before the start of block
    [n+1]. *)
Definition apart (l : list block) (n : nat) : Prop :=
  forall m m' : block, l !! n = Some m -> l !! S n = Some m' ->
    m.1.1 + m.2 <= m'.1.1 /\ m.1.2 + m.2 <= m'.1.2.

(** The state of [matches] before the step for block [k]. *)
Record shift_inv (ms cur : list block) (k : nat) : Prop := {
  shift_length : length cur = length ms;
  shift_shrunk : forall n m c, ms !! n = Some m -> cur !! n = Some c -> shrunk m c;
  shift_rest : forall n, (k < n)%nat -> cur !! n = ms !! n;
  shift_end : forall m c : block,
    ms !! k = Some m -> cur !! k = Some c -> c.1.1 + c.2 = m.1.1 + m.2;
  shift_apart : forall n, (n < k)%nat -> apart cur n
}.

Lemma for_each_app {S E} (body : S -> E -> result S) (l1 l2 : list E) (s : S) :
  for_each body (l1 ++ l2) s = bind (for_each body l1 s) (for_each body l2).
Proof.
  revert s. induction l1 as [|e l1 IH]; intros s; [done|].
  simpl. destruct (body s e); [apply IH|done].
Qed.

Lemma first_blank_found (a_ws : list string) (base : Z) (ks : list Z) (k : Z) :
  Klondike.first_blank a_ws base ks = Ok (Some k) -> k ∈ ks.
Proof.
  induction ks as [|k' ks IH]; [done|]. simpl.
  destruct (Py.index a_ws (base - k' - 1)) as [line|]; [|done]. cbn [bind].
  case_bool_decide.
  - intros [= ->]. apply list_elem_of_here.
  - intros Hk. apply list_elem_of_further. by apply IH.
Qed.

Lemma shift_step_result (a_ws : list string) (cur : list block) (n : nat)
    (e : block) (res : list block) :
  Klondike.shift_step a_ws cur (n, e) = Ok res ->
  exists next : block, cur !! S n = Some next /\
    let d := Z.max (e.1.1 + e.2 - next.1.1) (e.1.2 + e.2 - next.1.2) in
    (d <= 0 /\ res = cur) \/
    (0 < d /\ exists (k : Z) (this : block),
       0 <= k < d /\ cur !! n = Some this /\
       res = <[S n := (next.1.1 + (d - k), next.1.2 + (d - k), next.2 - (d - k))]>
               (<[n := (this.1.1, this.1.2, this.2 - k)]> cur)).
Proof.
  destruct e as [[apos bpos] size]. unfold Klondike.shift_step.
  replace (n + 1)%nat with (S n) by lia. unfold get at 1.
  destruct (cur !! S n) as [next|] eqn:Hnext; [|done]. cbn [bind fst snd].
  intros Hres. exists next. split; [done|]. cbv zeta.
  set (d := Z.max (apos + size - next.1.1) (bpos + size - next.1.2)) in *.
  destruct (Z.ltb_spec 0 d) as [Hd|Hd]; [|left; split; [lia|congruence]].
  right. split; [done|].
  destruct (Klondike.first_blank a_ws (next.1.1 + d) (seqZ 0 d)) as [blank|] eqn:Hblank;
    [|done].
  cbn [bind] in Hres.
  assert (S n < length cur)%nat as Hlen by (by apply lookup_lt_Some in Hnext).
  destruct (lookup_lt_is_Some_2 cur n) as [this Hthis]; [lia|].
  destruct blank as [k|].
  - apply first_blank_found, elem_of_seqZ in Hblank.
    unfold get at 1 in Hres. rewrite Hthis in Hres. cbn [bind] in Hres.
    rewrite set_lt in Hres by lia. cbn [bind] in Hres.
    unfold get in Hres. rewrite list_lookup_insert_ne, Hnext in Hres by lia.
    cbn [bind] in Hres. rewrite set_lt in Hres by (rewrite length_insert; lia).
    exists k, this. split; [lia|]. split; [done|]. congruence.
  - cbn [bind] in Hres. unfold get in Hres. rewrite Hnext in Hres. cbn [bind] in Hres.
    rewrite set_lt in Hres by lia.
    exists 0, this. split; [lia|]. split; [done|].
    rewrite (list_insert_id cur n); [|rewrite Hthis; destruct this as [[? ?] ?]; simpl; do 2 f_equal; lia].
    rewrite !Z.sub_0_r. congruence.
Qed.

Lemma shift_step_inv (a_ws : list string) (ms cur res : list block) (k : nat) (e : block) :
  ms !! k = Some e -> (S k < length ms)%nat ->
  shift_inv ms cur k ->
  Klondike.shift_step a_ws cur (k, e) = Ok res ->
  shift_inv ms res (S k).
Proof.
  intros He Hk [Hlen Hshrunk Hrest Hend Hapart] Hres.
  apply shift_step_result in Hres as (next & Hnext & Hres). cbv zeta in Hres.
  assert (ms !! S k = Some next) as Hnext0 by (rewrite <- Hrest by lia; done).
  destruct (lookup_lt_is_Some_2 cur k) as [this Hthis]; [lia|].
  pose proof (Hend _ _ He Hthis) as Hthis_end.
  destruct (Hshrunk _ _ _ He Hthis) as (Hthis_lo & Hthis_diag & _).
  destruct Hres as [[Hd ->]|(Hd & kk & this' & Hkk & Hthis' & ->)].
  - split; [done|done|intros; apply Hrest; lia|congruence|].
    intros n Hn. destruct (decide (n = k)) as [->|]; [|apply Hapart; lia].
    intros m m' Hm Hm'. assert (m = this) as -> by congruence.
    assert (m' = next) as -> by congruence. lia.
  - assert (this' = this) as -> by congruence. clear Hthis'.
    set (d := Z.max (e.1.1 + e.2 - next.1.1) (e.1.2 + e.2 - next.1.2)) in *.
    set (this1 := (this.1.1, this.1.2, this.2 - kk)).
    set (next1 := (next.1.1 + (d - kk), next.1.2 + (d - kk), next.2 - (d - kk))).
    assert (forall n, <[S k := next1]> (<[k := this1]> cur) !! n =
              if decide (n = S k) then Some next1
              else if decide (n = k) then Some this1 else cur !! n) as Hlookup.
    { intros n. destruct (decide (n = S k)) as [->|].
      - apply list_lookup_insert_eq. rewrite length_insert. lia.
      - rewrite list_lookup_insert_ne by done. destruct (decide (n = k)) as [->|].
        + apply list_lookup_insert_eq. lia.
        + by rewrite list_lookup_insert_ne. }
    split.
    + by rewrite !length_insert.
    + intros n m c Hm. rewrite Hlookup. repeat case_decide; subst.
      * intros [= <-]. assert (m = next) as -> by congruence.
        unfold shrunk, next1. simpl. lia.
      * intros [= <-]. assert (m = e) as -> by congruence.
        unfold shrunk, this1. simpl. lia.
      * by apply Hshrunk.
    + intros n Hn. rewrite Hlookup. repeat case_decide; try lia. apply Hrest. lia.
    + intros m c Hm. rewrite Hlookup. rewrite decide_True by done.
      intros [= <-]. assert (m = next) as -> by congruence. unfold next1. simpl. lia.
    + intros n Hn m m'. rewrite !Hlookup. repeat case_decide; subst; try lia.
      * intros [= <-] [= <-]. unfold this1, next1. simpl. lia.
      * intros Hm [= <-]. destruct (Hapart n ltac:(lia) m this Hm) as [? ?]; [by subst|].
        unfold this1. simpl. lia.
      * intros Hm Hm'. by apply (Hapart n ltac:(lia)).
Qed.

Lemma shift_loop (a_ws : list string) (ms : list block) (k : nat) : forall cur,
  (k <= length (removelast ms))%nat ->
  for_each (Klondike.shift_step a_ws) (take k (enumerate (removelast ms))) ms = Ok cur ->
  shift_inv ms cur k.
Proof.
  induction k as [|k IH]; intros cur Hk Hloop.
  - simpl in Hloop. injection Hloop as <-. split; [done| |done|congruence|intros; lia].
    intros n m c Hm Hc. assert (c = m) as -> by congruence. unfold shrunk. lia.
  - rewrite removelast_firstn_len in Hk. rewrite length_take in Hk.
    destruct (lookup_lt_is_Some_2 ms k) as [e He]; [lia|].
    assert (enumerate (removelast ms) !! k = Some (k, e)) as Hek.
    { unfold enumerate. rewrite list_lookup_imap, removelast_firstn_len.
      rewrite lookup_take_lt by lia. by rewrite He. }
    rewrite (take_S_r _ _ _ Hek), for_each_app in Hloop.
    destruct (for_each _ (take k _) ms) as [mid|] eqn:Hmid; [|done].
    cbn [bind for_each] in Hloop.
    destruct (Klondike.shift_step a_ws mid (k, e)) as [res|] eqn:Hstep; [|done].
    injection Hloop as <-.
    eapply shift_step_inv; [done|lia| |done].
    apply IH; [|done]. rewrite removelast_firstn_len, length_take. lia.
Qed.

Lemma shift_blocks_spec (a_ws : list string) (matches shifted : list block) :
  Klondike.shift_blocks a_ws matches = Ok shifted ->
  length shifted = length matches /\
  (forall n m c, matches !! n = Some m -> shifted !! n = Some c -> shrunk m c) /\
  (forall n, apart shifted n).
Proof.
  unfold Klondike.shift_blocks. intros Hloop.
  rewrite <- (take_ge (enumerate (removelast matches)) (length (removelast matches)))
    in Hloop by (unfold enumerate; by rewrite length_imap).
  apply shift_loop in Hloop as [Hlen Hshrunk _ _ Hapart]; [|done].
  split; [done|]. split; [done|].
  intros n. destruct (decide (n < length (removelast matches))%nat); [by apply Hapart|].
  intros m m' _ Hm'. apply lookup_lt_Some in Hm'.
  rewrite removelast_firstn_len, length_take in *. lia.
Qed.

(** X11: when the loop that shifts overlapping blocks returns, the list has
    as many blocks as before; every block is the one it was made smaller
    (it starts no earlier, ends no later and lies on the same diagonal, so
    it pairs only lines the block before paired); and no block overlaps
    the next one, in [a] or in [b]. *)
Theorem shift_blocks_apart (a_ws : list string) (matches shifted : list block) :
  Klondike.shift_blocks a_ws matches = Ok shifted ->
  length shifted = length matches /\
  (forall n m c, matches !! n = Some m -> shifted !! n = Some c -> shrunk m c) /\
  (forall n, apart shifted n).
Proof. apply shift_blocks_spec. Qed.

Lemma shift_blocks_apart_example :
  Klondike.shift_blocks ["x"; "y"; ""; "y"; "z"; "w"] [(0, 0, 4); (2, 4, 3); (6, 8, 0)]
    = Ok [(0, 0, 3); (3, 5, 2); (6, 8, 0)] /\
  (length [(0, 0, 3); (3, 5, 2); (6, 8, 0)] = length [(0, 0, 4); (2, 4, 3); (6, 8, 0)] /\
   (forall n m c, [(0, 0, 4); (2, 4, 3); (6, 8, 0)] !! n = Some m ->
                  [(0, 0, 3); (3, 5, 2); (6, 8, 0)] !! n = Some c -> shrunk m c) /\
   (forall n, apart [(0, 0, 3); (3, 5, 2); (6, 8, 0)] n)).
Proof.
  assert (Klondike.shift_blocks ["x"; "y"; ""; "y"; "z"; "w"] [(0, 0, 4); (2, 4, 3); (6, 8, 0)]
          = Ok [(0, 0, 3); (3, 5, 2); (6, 8, 0)]) as Hshift by (vm_compute; reflexivity).
  split; [exact Hshift|].
  exact (shift_blocks_apart _ _ _ Hshift).
Defined.

(** ** The hunks of [unified_diff] *)

Section unified_diff_hunks.
Variables a b : list string.
Variable n : Z.
Variable lineterm : string.
Variable function_regexp : option (string -> bool).
Variable strip_function : bool.

Definition starts_with (c : ascii) (s : string) : bool :=
  match s with
  | String c' _ => Ascii.eqb c c'
  | EmptyString => false
  end.

(** The lines of a hunk that stand for a line of [a]: context and removed
    lines; and for a line of [b]: context and added lines. *)
Definition old_count (body : list string) : Z :=
  len (List.filter (fun s => starts_with " " s || starts_with "-" s) body).

Definition new_count (body : list string) : Z :=
  len (List.filter (fun s => starts_with " " s || starts_with "+" s) body).

(** An opcode as a sequence matcher reports it: its ranges lie in the
    files, an [equal] has ranges of one length, a [delete] takes nothing
    from [b] and an [insert] nothing from [a]. *)
Definition shaped (o : opcode) : Prop :=
  let '(t, i1, i2, j1, j2) := o in
  (0 <= i1 <= i2 /\ i2 <= len a) /\ (0 <= j1 <= j2 /\ j2 <= len b) /\
  match t with
  | Equal => i2 - i1 = j2 - j1
  | Delete => j1 = j2
  | Insert => i1 = i2
  | Replace => True
  end.

Lemma slice_length {A} (l : list A) (lo hi : Z) :
  0 <= lo <= hi -> hi <= len l -> len (slice l (Some lo) (Some hi)) = hi - lo.
Proof.
  intros Hlo Hhi. unfold slice, slice_bound, len in *. simpl.
  destruct (Z.ltb_spec lo 0); [lia|]. destruct (Z.ltb_spec hi 0); [lia|].
  rewrite !Z.min_l by lia. rewrite length_take, length_drop. lia.
Qed.

Lemma count_prefixed (c d e : ascii) (l : list string) :
  len (List.filter (fun s => starts_with d s || starts_with e s)
         (map (String.append (String c EmptyString)) l)) =
  if Ascii.eqb d c || Ascii.eqb e c then len l else 0.
Proof.
  unfold len. induction l as [|x l IH]; [by destruct (_ || _)|].
  cbn [map List.filter]. change (String c EmptyString +:+ x) with (String c x).
  cbn [starts_with]. destruct (Ascii.eqb d c || Ascii.eqb e c); cbn [length] in *; lia.
Qed.

Lemma count_app (keep : string -> bool) (l1 l2 : list string) :
  len (List.filter keep (l1 ++ l2)) = len (List.filter keep l1) + len (List.filter keep l2).
Proof. unfold len. rewrite List.filter_app, length_app. lia. Qed.

Lemma opcode_lines_counts (o : opcode) :
  shaped o ->
  old_count (Unified.opcode_lines a b o) = o.1.1.2 - o.1.1.1.2 /\
  new_count (Unified.opcode_lines a b o) = o.2 - o.1.2.
Proof.
  destruct o as [[[[t i1] i2] j1] j2]. intros (Hi & Hj & Ht). cbn [fst snd].
  unfold old_count, new_count, Unified.opcode_lines.
  pose proof (slice_length a i1 i2 ltac:(lia) ltac:(lia)) as Ha.
  pose proof (slice_length b j1 j2 ltac:(lia) ltac:(lia)) as Hb.
  assert (len (@nil string) = 0) as Hnil by done.
  destruct t.
  - rewrite !count_prefixed. cbn [Ascii.eqb Bool.eqb orb andb]. lia.
  - rewrite !bool_decide_eq_true_2 by (by left).
    rewrite !count_app, !count_prefixed. cbn [Ascii.eqb Bool.eqb orb andb]. lia.
  - rewrite bool_decide_eq_false_2 by (intros [?|?]; discriminate).
    rewrite bool_decide_eq_true_2 by (by right).
    rewrite !count_app, !count_prefixed. cbn [Ascii.eqb Bool.eqb orb andb List.filter].
    rewrite !Hnil. lia.
  - rewrite bool_decide_eq_true_2 by (by right).
    rewrite bool_decide_eq_false_2 by (intros [?|?]; discriminate).
    rewrite !count_app, !count_prefixed. cbn [Ascii.eqb Bool.eqb orb andb List.filter].
    rewrite !Hnil. lia.
Qed.

Lemma hunk_body_counts (ops : list opcode) : forall i j i' j',
  covers i j ops i' j' -> Forall shaped ops ->
  old_count (flat_map (Unified.opcode_lines a b) ops) = i' - i /\
  new_count (flat_map (Unified.opcode_lines a b) ops) = j' - j.
Proof.
  induction ops as [|o ops IH]; intros i j i' j' Hc Hall.
  - simpl in Hc. destruct Hc as [-> ->]. unfold old_count, new_count, len. simpl. lia.
  - apply Forall_cons in Hall as [Ho Hall].
    destruct (opcode_lines_counts o Ho) as [Hold Hnew].
    destruct o as [[[[t i1] i2] j1] j2]. cbn [covers] in Hc. destruct Hc as [[-> ->] Hc].
    destruct (IH _ _ _ _ Hc Hall) as [Hold' Hnew'].
    cbn [flat_map]. unfold old_count, new_count in *. rewrite !count_app.
    cbn [fst snd] in *. lia.
Qed.

Lemma last_default {X} (l : list X) : forall x d, List.last (x :: l) d = List.last l x.
Proof.
  induction l as [|y l IH]; intros x d; [done|].
  change (List.last (x :: y :: l) d) with (List.last (y :: l) d).
  by rewrite (IH y d), (IH y x).
Qed.

Lemma covers_last (rest : list opcode) : forall first i j i' j',
  covers i j (first :: rest) i' j' ->
  (List.last rest first).1.1.2 = i' /\ (List.last rest first).2 = j'.
Proof.
  induction rest as [|o rest IH]; intros [[[[t i1] i2] j1] j2] i j i' j'.
  - simpl. tauto.
  - cbn [covers]. intros [_ Hc]. rewrite last_default. by apply (IH o i2 j2).
Qed.

(** X12: for a group of opcodes as a sequence matcher reports them (ranges
    in the files, each starting where the one before ends), the hunk that
    [unified_diff] yields is consistent: after the [@@] line, built from
    the ranges [first[1]:last[2]] of [a] and [first[3]:last[4]] of [b], come
    as many context and [-] lines as the first range is long, and as many
    context and [+] lines as the second. *)
Theorem hunk_counts (current_function : nat) (g : Unified.group) (i' j' : Z) :
  Forall shaped (g.1 :: g.2) ->
  covers g.1.1.1.1.2 g.1.1.2 (g.1 :: g.2) i' j' ->
  exists function,
    (Unified.hunk a b n lineterm function_regexp strip_function current_function g).1 =
      ("@@ -" +:+ Unified._format_range_unified g.1.1.1.1.2 i' +:+
       " +" +:+ Unified._format_range_unified g.1.1.2 j' +:+
       " @@" +:+ function +:+ lineterm) ::
      flat_map (Unified.opcode_lines a b) (g.1 :: g.2) /\
    old_count (flat_map (Unified.opcode_lines a b) (g.1 :: g.2)) = i' - g.1.1.1.1.2 /\
    new_count (flat_map (Unified.opcode_lines a b) (g.1 :: g.2)) = j' - g.1.1.2.
Proof.
  intros Hall Hc.
  destruct (covers_last _ _ _ _ _ _ Hc) as [Hi Hj].
  unfold Unified.hunk. cbn [fst snd]. rewrite Hi, Hj.
  eexists. split; [reflexivity|]. by apply hunk_body_counts.
Qed.

End unified_diff_hunks.

Lemma hunk_counts_example :
  let a := lines ["one"; "two"; "three"; "four"] in
  let b := lines ["zero"; "one"; "tree"; "four"] in
  let g : Unified.group :=
    ((Insert, 0, 0, 0, 1),
     [(Equal, 0, 1, 1, 2); (Replace, 1, 3, 2, 3); (Equal, 3, 4, 3, 4)]) in
  (Forall (shaped a b) (g.1 :: g.2) /\ covers 0 0 (g.1 :: g.2) 4 4) /\
  exists function,
    (Unified.hunk a b 3 nl None false O g).1 =
      ("@@ -" +:+ Unified._format_range_unified 0 4 +:+
       " +" +:+ Unified._format_range_unified 0 4 +:+
       " @@" +:+ function +:+ nl) ::
      flat_map (Unified.opcode_lines a b) (g.1 :: g.2) /\
    old_count (flat_map (Unified.opcode_lines a b) (g.1 :: g.2)) = 4 - 0 /\
    new_count (flat_map (Unified.opcode_lines a b) (g.1 :: g.2)) = 4 - 0.
Proof.
  intros a b g.
  assert (Forall (shaped a b) (g.1 :: g.2)) as Hall.
  { repeat apply Forall_cons_2; [..|apply Forall_nil_2]; vm_compute; repeat split; discriminate. }
  assert (covers 0 0 (g.1 :: g.2) 4 4) as Hc by (vm_compute; repeat split).
  split; [by split|].
  exact (hunk_counts a b 3 nl None false O g 4 4 Hall Hc).
Defined.

(** ** The consistency check after the shift *)

Lemma check_from_Ok (bl : list block) : forall na nb,
  Patience.check_from bl na nb = Ok tt <-> monotone_from na nb bl.
Proof.
  induction bl as [|[[i j] n] rest IH]; intros na nb; [done|].
  cbn [Patience.check_from monotone_from].
  destruct (Z.ltb_spec i na); [split; [done|lia]|].
  destruct (Z.ltb_spec j nb); [split; [done|lia]|].
  rewrite IH. tauto.
Qed.

Lemma apart_monotone (rest : list block) : forall m : block,
  (forall n, apart (m :: rest) n) -> monotone_from (m.1.1 + m.2) (m.1.2 + m.2) rest.
Proof.
  induction rest as [|[[i j] s] rest IH]; intros m Hapart; [done|].
  cbn [monotone_from]. destruct (Hapart O m (i, j, s)) as [Hi Hj]; [done..|].
  split; [done|]. split; [done|].
  apply (IH (i, j, s)). intros n. exact (Hapart (S n)).
Qed.

(** X13: on the blocks that the shift loop returns, [_check_consistency]
    can only fail at the first block: it passes exactly when the first
    block starts at [-1] or later in [a] and in [b] (or there is no
    block). *)
Theorem shifted_blocks_consistent (a_ws : list string) (matches shifted : list block) :
  Klondike.shift_blocks a_ws matches = Ok shifted ->
  (Klondike._check_consistency shifted = Ok tt <->
   match shifted with
   | [] => True
   | m :: _ => -1 <= m.1.1 /\ -1 <= m.1.2
   end).
Proof.
  intros Hshift. unfold Klondike._check_consistency. rewrite check_from_Ok.
  destruct (shift_blocks_spec _ _ _ Hshift) as (_ & _ & Hapart).
  destruct shifted as [|[[i j] s] rest]; [done|].
  cbn [monotone_from fst snd].
  pose proof (apart_monotone rest (i, j, s) Hapart). tauto.
Qed.

Lemma shifted_blocks_consistent_example :
  Klondike.shift_blocks ["x"; "y"; ""; "y"; "z"; "w"] [(0, 0, 4); (2, 4, 3); (6, 8, 0)]
    = Ok [(0, 0, 3); (3, 5, 2); (6, 8, 0)] /\
  (Klondike._check_consistency [(0, 0, 3); (3, 5, 2); (6, 8, 0)] = Ok tt <->
   -1 <= 0 /\ -1 <= 0).
Proof.
  assert (Klondike.shift_blocks ["x"; "y"; ""; "y"; "z"; "w"] [(0, 0, 4); (2, 4, 3); (6, 8, 0)]
          = Ok [(0, 0, 3); (3, 5, 2); (6, 8, 0)]) as Hshift by (vm_compute; reflexivity).
  split; [exact Hshift|].
  exact (shifted_blocks_consistent _ _ _ Hshift).
Defined.

(** ** The line buffer of [DiffWriter] *)

Section diff_writer.
Variable difflib_blocks : matcher.
Variable colorstring : string -> string -> string.

Import DiffWriter.

(** The text holds no line feed. *)
Definition no_lf (text : string) : Prop := lf ∉ list_ascii_of_string text.

(** The style of a line that is written alone, by its first character. *)
Definition line_style (line : string) : string :=
  match line with
  | String "@" _ => "diffstuff"
  | String "+" _ => "newtext"
  | String "-" _ => "oldtext"
  | _ => "plain"
  end.

(** A removed line: it starts with [-] but not with [---]. *)
Definition removed_line (line : string) : bool :=
  match line with
  | String "-" (String "-" (String "-" _)) => false
  | String "-" _ => true
  | _ => false
  end.

(** An added line: it starts with [+]. *)
Definition added_line (line : string) : bool :=
  match line with
  | String "+" _ => true
  | _ => false
  end.

(** What a writer with nothing held writes for a sequence of lines, told
    line by line: a removed line directly followed by an added line is
    written with it, as the pair of [parse_changed_line]; any other line is
    written alone in its style, a removed line in the style [oldtext]; a
    removed line that ends the sequence is not written but held.  The
    result is the strings written and the line held at the end. *)
Fixpoint written (lines : list string) : result (list string * option string) :=
  match lines with
  | [] => Ok ([], None)
  | line :: rest =>
      if removed_line line then
        match rest with
        | [] => Ok ([], Some line)
        | next :: rest' =>
            if added_line next then
              let* both := Colordiff.parse_changed_line difflib_blocks colorstring line next in
              let* (out, hold) := written rest' in
              Ok (both ++ out, hold)
            else
              let* (out, hold) := written rest in
              Ok (colorstring "oldtext" line :: out, hold)
        end
      else
        let* (out, hold) := written rest in
        Ok (colorstring (line_style line) line :: out, hold)
  end.

Lemma prefix_empty (s : string) : String.prefix EmptyString s = true.
Proof. by destruct s. Qed.

Lemma prefix_one (c d : ascii) (s : string) :
  String.prefix (String c EmptyString) (String d s) = Ascii.eqb c d.
Proof.
  cbn [String.prefix]. rewrite prefix_empty.
  destruct (ascii_dec c d) as [->|Hne]; [by rewrite Ascii.eqb_refl|].
  symmetry. by apply Ascii.eqb_neq.
Qed.

Lemma parse_line_style (line : string) : parse_line line = line_style line.
Proof.
  destruct line as [|c line]; [done|]. unfold parse_line, line_style.
  rewrite !prefix_one.
  destruct c as [[] [] [] [] [] [] [] []]; reflexivity.
Qed.

Lemma held_removed_line (line : string) :
  String.eqb "oldtext" (parse_line line) && negb (String.prefix "---" line) = removed_line line.
Proof.
  rewrite parse_line_style.
  destruct line as [|c line]; [done|].
  destruct (Ascii.eqb_spec c "-") as [->|Hc]; cycle 1.
  { assert (String.eqb "oldtext" (line_style (String c line)) = false) as ->.
    { unfold line_style. destruct c as [[] [] [] [] [] [] [] []]; try reflexivity. done. }
    unfold removed_line. destruct c as [[] [] [] [] [] [] [] []]; try reflexivity. done. }
  change (line_style (String "-" line)) with "oldtext"%string.
  change (String.eqb "oldtext" "oldtext") with true. cbn [andb].
  destruct line as [|c1 line]; [done|].
  change (String.prefix "---" (String "-" (String c1 line)))
    with (String.prefix "--" (String c1 line)).
  destruct (Ascii.eqb_spec c1 "-") as [->|Hc1]; cycle 1.
  { assert (String.prefix "--" (String c1 line) = false) as ->.
    { cbn [String.prefix]. by destruct (ascii_dec "-" c1) as [<-|]. }
    unfold removed_line. destruct c1 as [[] [] [] [] [] [] [] []]; try reflexivity. done. }
  change (String.prefix "--" (String "-" line)) with (String.prefix "-" line).
  destruct line as [|c2 line]; [done|]. rewrite prefix_one.
  unfold removed_line. destruct c2 as [[] [] [] [] [] [] [] []]; reflexivity.
Qed.

Lemma newtext_added_line (line : string) :
  String.eqb "newtext" (parse_line line) = added_line line.
Proof.
  rewrite parse_line_style. destruct line as [|c line]; [done|].
  unfold line_style, added_line. destruct c as [[] [] [] [] [] [] [] []]; reflexivity.
Qed.

Lemma written_held (old line : string) (lines : list string) :
  removed_line old = true ->
  written (old :: line :: lines) =
  if added_line line then
    let* both := Colordiff.parse_changed_line difflib_blocks colorstring old line in
    let* (out, hold) := written lines in
    Ok (both ++ out, hold)
  else
    let* (out, hold) := written (line :: lines) in
    Ok (colorstring "oldtext" old :: out, hold).
Proof.
  intros Hold.
  change (written (old :: line :: lines)) with
    (if removed_line old then
       if added_line line then
         let* both := Colordiff.parse_changed_line difflib_blocks colorstring old line in
         let* (out, hold) := written lines in
         Ok (both ++ out, hold)
       else
         let* (out, hold) := written (line :: lines) in
         Ok (colorstring "oldtext" old :: out, hold)
     else
       let* (out, hold) := written (line :: lines) in
       Ok (colorstring (line_style old) old :: out, hold)).
  by rewrite Hold.
Qed.

Lemma written_alone (line : string) (lines : list string) :
  removed_line line = false ->
  written (line :: lines) =
  let* (out, hold) := written lines in
  Ok (colorstring (line_style line) line :: out, hold).
Proof. intros Hline. cbn [written]. by rewrite Hline. Qed.

Lemma writeline_written (lines : list string) :
  (forall t c,
     for_each (_writeline difflib_blocks colorstring) lines (Writer t None c) =
     let* (out, hold) := written lines in Ok (Writer (t ++ out) hold c)) /\
  (forall t c old, removed_line old = true ->
     for_each (_writeline difflib_blocks colorstring) lines (Writer t (Some old) c) =
     let* (out, hold) := written (old :: lines) in Ok (Writer (t ++ out) hold c)).
Proof.
  induction lines as [|line lines [IHnone IHsome]].
  { split; [intros t c; simpl; by rewrite app_nil_r|].
    intros t c old Hold. simpl. rewrite Hold. simpl. by rewrite app_nil_r. }
  split.
  - intros t c. cbn [for_each].
    unfold _writeline at 1. cbn [oldtext_hold target chunks]. rewrite held_removed_line.
    destruct (removed_line line) eqn:Hline.
    + rewrite app_nil_r. by apply IHsome.
    + rewrite (written_alone _ _ Hline), IHnone, parse_line_style. cbn [app].
      destruct (written lines) as [[out hold]|]; [|done]. cbn [bind].
      by rewrite <- app_assoc.
  - intros t c old Hold. cbn [for_each]. rewrite (written_held _ _ _ Hold).
    unfold _writeline at 1. cbn [oldtext_hold target chunks].
    rewrite newtext_added_line, held_removed_line.
    destruct (added_line line) eqn:Hadded.
    + destruct (Colordiff.parse_changed_line _ _ old line) as [both|]; [|done].
      cbn [bind]. rewrite IHnone.
      destruct (written lines) as [[out hold]|]; [|done]. cbn [bind].
      by rewrite <- app_assoc.
    + destruct (removed_line line) eqn:Hline.
      * rewrite (IHsome _ c line Hline).
        destruct (written (line :: lines)) as [[out hold]|]; [|done]. cbn [bind].
        by rewrite <- app_assoc.
      * rewrite IHnone, (written_alone _ _ Hline), parse_line_style.
        destruct (written lines) as [[out hold]|]; [|done]. cbn [bind].
        by rewrite <- !app_assoc.
Qed.

(** X14: what [_writeline] writes.  A writer that holds no line, fed a
    sequence of lines, writes them in order: a removed line (one that
    starts with [-] but not with [---]) directly followed by an added line
    (one that starts with [+]) is written together with it, as the pair
    that [parse_changed_line] returns for the two; every other line is
    written alone, in the style of its first character; and a removed line
    that ends the sequence is not written at all but left in
    [oldtext_hold].  The call raises when [parse_changed_line] does. *)
Theorem writeline_writes (lines : list string) (t c : list string) :
  for_each (_writeline difflib_blocks colorstring) lines (Writer t None c) =
  let* (out, hold) := written lines in Ok (Writer (t ++ out) hold c).
Proof. apply writeline_written. Qed.

Lemma split_no_lf (text : string) : no_lf text -> split_lf text = [text].
Proof.
  unfold no_lf. induction text as [|c text IH]; [done|]. cbn [list_ascii_of_string split_lf].
  intros Hc. apply not_elem_of_cons in Hc as [Hc Htext].
  destruct (Ascii.eqb_spec c lf); [congruence|]. by rewrite IH.
Qed.

Lemma split_line (text : string) : no_lf text -> split_lf (text +:+ nl) = [text; EmptyString].
Proof.
  unfold no_lf. induction text as [|c text IH].
  - intros _. reflexivity.
  - cbn [list_ascii_of_string]. intros Hc. apply not_elem_of_cons in Hc as [Hc Htext].
    change (String c text +:+ nl) with (String c (text +:+ nl)). cbn [split_lf].
    destruct (Ascii.eqb_spec c lf); [congruence|]. by rewrite IH.
Qed.

(** X15: a colored writer keeps one pending piece only: when two texts
    without a line feed are written one after the other, nothing is
    written to the target and the first text is lost, the pending piece
    being the second text alone. *)
Theorem write_keeps_last_piece (w : writer) (text0 text1 : string) :
  no_lf text0 -> no_lf text1 ->
  (let* w0 := write difflib_blocks colorstring true w text0 in
   write difflib_blocks colorstring true w0 text1)
  = Ok (Writer (target w) (oldtext_hold w) [text1]).
Proof.
  intros H0 H1. unfold write. rewrite (split_no_lf _ H0), (split_no_lf _ H1). reflexivity.
Qed.

Lemma append_assoc (s1 s2 s3 : string) : (s1 +:+ s2) +:+ s3 = s1 +:+ s2 +:+ s3.
Proof.
  induction s1 as [|c s1 IH]; [done|].
  change (String c ((s1 +:+ s2) +:+ s3) = String c (s1 +:+ s2 +:+ s3)). by rewrite IH.
Qed.

Lemma concat_all_app (l1 l2 : list string) :
  Colordiff.concat_all (l1 ++ l2) = Colordiff.concat_all l1 +:+ Colordiff.concat_all l2.
Proof.
  induction l1 as [|x l1 IH]; [done|].
  change (x +:+ Colordiff.concat_all (l1 ++ l2) =
          (x +:+ Colordiff.concat_all l1) +:+ Colordiff.concat_all l2).
  by rewrite IH, append_assoc.
Qed.

Lemma writeline_chunks (rest : list string) : forall t h c c',
  for_each (_writeline difflib_blocks colorstring) rest (Writer t h c) =
  let* w' := for_each (_writeline difflib_blocks colorstring) rest (Writer t h c') in
  Ok (Writer (target w') (oldtext_hold w') c).
Proof.
  induction rest as [|x rest IH]; intros t h c c'; [done|]. cbn [for_each].
  unfold _writeline. cbn [oldtext_hold target chunks].
  destruct h as [old|].
  - destruct (String.eqb _ _).
    + destruct (Colordiff.parse_changed_line _ _ _ _); [|done]. cbn [bind]. apply IH.
    + destruct (_ && _); apply IH.
  - destruct (_ && _); apply IH.
Qed.

(** X16: written with color, lines that each end in their only line feed
    pass through the buffer unchanged: [writelines] hands each one to
    [_writeline] as it is, in order, and leaves an empty pending piece. *)
Theorem writelines_complete_lines (w : writer) (ls : list string) :
  Forall no_lf ls -> Colordiff.concat_all (chunks w) = EmptyString ->
  writelines difflib_blocks colorstring true w (lines ls) =
  let* w' := for_each (_writeline difflib_blocks colorstring) (lines ls) w in
  Ok (Writer (target w') (oldtext_hold w')
        (match ls with [] => chunks w | _ :: _ => [EmptyString] end)).
Proof.
  intros Hall. revert w. induction Hall as [|l ls Hl Hall IH]; intros w Hw.
  { simpl. by destruct w. }
  unfold writelines, lines in *. cbn [map for_each].
  unfold write at 1. rewrite (split_line _ Hl). cbn [removelast for_each List.last].
  unfold write_step at 1.
  assert (Colordiff.concat_all (chunks w ++ [l; nl]) = l +:+ nl) as ->.
  { rewrite concat_all_app, Hw. change (l +:+ nl +:+ EmptyString = l +:+ nl).
    by rewrite append_empty_r. }
  assert (forall w1 : writer,
            _writeline difflib_blocks colorstring w (l +:+ nl) = Ok w1 ->
            chunks w1 = chunks w) as Hchunks.
  { intros w1. unfold _writeline. destruct (oldtext_hold w).
    - destruct (String.eqb _ _).
      + destruct (Colordiff.parse_changed_line _ _ _ _); [|done]. by intros [= <-].
      + destruct (_ && _); by intros [= <-].
    - destruct (_ && _); by intros [= <-]. }
  destruct (_writeline _ _ w (l +:+ nl)) as [w1|] eqn:Hline; [|done]. cbn [bind].
  specialize (Hchunks w1 eq_refl). cbn [target oldtext_hold].
  rewrite (IH (Writer (target w1) (oldtext_hold w1) [EmptyString])) by done.
  destruct w1 as [t1 h1 c1]. cbn [target oldtext_hold].
  rewrite (writeline_chunks _ t1 h1 [EmptyString] c1).
  destruct (for_each _ (map _ ls) _) as [w2|]; [|done]. cbn [bind target oldtext_hold].
  by destruct ls.
Qed.

End diff_writer.

Lemma write_keeps_last_piece_example :
  let plain := fun _ s : string => s in
  (no_lf "--- a" /\ no_lf "file") /\
  (let* w0 := DiffWriter.write (@Difflib.get_matching_blocks) plain true
                (DiffWriter.Writer [] None []) "--- a" in
   DiffWriter.write (@Difflib.get_matching_blocks) plain true w0 "file")
  = Ok (DiffWriter.Writer [] None ["file"%string]).
Proof.
  intros plain.
  assert (no_lf "--- a") as H0 by (apply (bool_decide_unpack _); vm_compute; exact I).
  assert (no_lf "file") as H1 by (apply (bool_decide_unpack _); vm_compute; exact I).
  split; [by split|].
  exact (write_keeps_last_piece (@Difflib.get_matching_blocks) plain
           (DiffWriter.Writer [] None []) "--- a" "file" H0 H1).
Defined.

Lemma writelines_complete_lines_example :
  let plain := fun _ s : string => s in
  let w := DiffWriter.Writer [] None [] in
  (Forall no_lf ["-old"; "+new"]%string /\
   Colordiff.concat_all (DiffWriter.chunks w) = EmptyString) /\
  DiffWriter.writelines (@Difflib.get_matching_blocks) plain true w (lines ["-old"; "+new"]) =
  let* w' := for_each (DiffWriter._writeline (@Difflib.get_matching_blocks) plain)
               (lines ["-old"; "+new"]) w in
  Ok (DiffWriter.Writer (DiffWriter.target w') (DiffWriter.oldtext_hold w') [EmptyString]).
Proof.
  intros plain w.
  assert (Forall no_lf ["-old"; "+new"]%string) as Hall.
  { repeat apply Forall_cons_2; [..|apply Forall_nil_2];
      apply (bool_decide_unpack _); vm_compute; exact I. }
  split; [by split|].
  exact (writelines_complete_lines (@Difflib.get_matching_blocks) plain w
           ["-old"; "+new"]%string Hall eq_refl).
Defined.

(** ** Junk clearing and indentation *)

(** The string holds blanks only. *)
Definition blank_string (s : string) : Prop :=
  Forall (fun c => is_blank c = true) (list_ascii_of_string s).

Lemma list_ascii_of_string_app (s1 s2 : string) :
  list_ascii_of_string (s1 +:+ s2) = list_ascii_of_string s1 ++ list_ascii_of_string s2.
Proof.
  induction s1 as [|c s1 IH]; [done|].
  change (c :: list_ascii_of_string (s1 +:+ s2) =
          c :: (list_ascii_of_string s1 ++ list_ascii_of_string s2)).
  by rewrite IH.
Qed.

Lemma keep_filter_blank_prefix (pre s : list ascii) :
  Forall (fun c => is_blank c = true) pre -> keep_filter (pre ++ s) = keep_filter s.
Proof.
  induction 1 as [|c pre Hc Hpre IH]; [done|].
  cbn [app keep_filter]. unfold kept. by rewrite Hc.
Qed.

Lemma run_length_blank_suffix (c : ascii) (post : list ascii) :
  is_blank c = false -> Forall (fun c => is_blank c = true) post ->
  forall rest, run_length c (rest ++ post) = run_length c rest.
Proof.
  intros Hc Hpost. induction rest as [|x rest IH].
  - destruct Hpost as [|y post Hy _]; [done|]. simpl.
    destruct (Ascii.eqb_spec y c); [congruence|done].
  - simpl. destruct (Ascii.eqb x c); [by rewrite IH|done].
Qed.

Lemma keep_filter_blank_suffix (post : list ascii) :
  Forall (fun c => is_blank c = true) post ->
  forall s, keep_filter (s ++ post) = keep_filter s.
Proof.
  intros Hpost. induction s as [|c s IH].
  - simpl. induction Hpost as [|y post Hy _ IH]; [done|].
    cbn [keep_filter]. unfold kept. by rewrite Hy.
  - cbn [app keep_filter]. unfold kept. destruct (is_blank c) eqn:Hc; [done|].
    by rewrite run_length_blank_suffix, IH.
Qed.

(** X17: junk clearing ignores indentation and trailing white space: a
    line with blanks (spaces, tabs, carriage returns, line feeds) put before
    and after it has the junk-cleared form of the line itself, so the
    klondike matcher takes the two for the same line. *)
Theorem clear_junk_trim (pre s post : string) :
  blank_string pre -> blank_string post ->
  clear_junk (pre +:+ s +:+ post) = clear_junk s.
Proof.
  unfold blank_string, clear_junk. intros Hpre Hpost. f_equal.
  rewrite !sub_empty_keep_filter by done.
  rewrite !list_ascii_of_string_app, keep_filter_blank_prefix by done.
  by apply keep_filter_blank_suffix.
Qed.

Lemma clear_junk_trim_example :
  (blank_string "    " /\ blank_string (String cr nl)) /\
  clear_junk ("    " +:+ "return x;" +:+ String cr nl) = clear_junk "return x;".
Proof.
  assert (blank_string "    ") as Hpre by (repeat constructor).
  assert (blank_string (String cr nl)) as Hpost by (repeat constructor).
  split; [by split|].
  exact (clear_junk_trim "    " "return x;" (String cr nl) Hpre Hpost).
Defined.

(** ** The ranges of a hunk header *)

(** The text up to the first comma and, if there is one, the text after
    it. *)
Fixpoint split_comma (s : string) : string * option string :=
  match s with
  | EmptyString => (EmptyString, None)
  | String c s' =>
      if Ascii.eqb c "," then (EmptyString, Some s')
      else (String c (split_comma s').1, (split_comma s').2)
  end.

Definition read_int (s : string) : option Z :=
  Z.of_int <$> DecimalString.NilZero.int_of_string s.

(** A range read back from its text. *)
Definition read_range (s : string) : option (Z * Z) :=
  let '(beginning, length) := split_comma s in
  match length with
  | None => b ← read_int beginning; Some (b - 1, b)
  | Some length =>
      b ← read_int beginning; l ← read_int length;
      Some (if l =? 0 then (b, b) else (b - 1, b - 1 + l))
  end.

Lemma read_format_int (n : Z) : read_int (Unified.format_int n) = Some n.
Proof.
  unfold read_int, Unified.format_int.
  rewrite DecimalString.NilZero.isi.
  - simpl. by rewrite DecimalZ.of_to.
  - destruct n; simpl; [done| |done]. intros [= Hp].
    by apply DecimalPos.Unsigned.to_uint_nonnil in Hp.
  - destruct n; simpl; [done..|]. intros [= Hp].
    by apply DecimalPos.Unsigned.to_uint_nonnil in Hp.
Qed.

Lemma uint_no_comma (d : Decimal.uint) :
  ","%char ∉ list_ascii_of_string (DecimalString.NilEmpty.string_of_uint d).
Proof.
  induction d; simpl; [apply not_elem_of_nil|..];
    (apply not_elem_of_cons; split; [discriminate|done]).
Qed.

Lemma format_int_no_comma (n : Z) : ","%char ∉ list_ascii_of_string (Unified.format_int n).
Proof.
  unfold Unified.format_int, DecimalString.NilZero.string_of_int,
    DecimalString.NilZero.string_of_uint.
  destruct (Z.to_int n) as [d|d].
  - destruct d; try apply (uint_no_comma (_ _)).
    simpl. apply not_elem_of_cons. split; [discriminate|apply not_elem_of_nil].
  - cbn [list_ascii_of_string]. apply not_elem_of_cons. split; [discriminate|].
    destruct d; try apply (uint_no_comma (_ _)).
    simpl. apply not_elem_of_cons. split; [discriminate|apply not_elem_of_nil].
Qed.

Lemma split_comma_none (s : string) :
  ","%char ∉ list_ascii_of_string s -> split_comma s = (s, None).
Proof.
  induction s as [|c s IH]; [done|]. cbn [list_ascii_of_string split_comma].
  intros [Hc Hs]%not_elem_of_cons.
  destruct (Ascii.eqb_spec c ","); [congruence|]. by rewrite IH.
Qed.

Lemma split_comma_some (s t : string) :
  ","%char ∉ list_ascii_of_string s -> split_comma (s +:+ "," +:+ t) = (s, Some t).
Proof.
  induction s as [|c s IH]; [done|]. cbn [list_ascii_of_string].
  intros [Hc Hs]%not_elem_of_cons.
  change (String c s +:+ "," +:+ t) with (String c (s +:+ "," +:+ t)). cbn [split_comma].
  destruct (Ascii.eqb_spec c ","); [congruence|]. by rewrite IH.
Qed.

Lemma read_format_range (start stop : Z) :
  read_range (Unified._format_range_unified start stop) = Some (start, stop).
Proof.
  unfold Unified._format_range_unified, read_range.
  destruct (Z.eqb_spec (stop - start) 1) as [Hone|Hone].
  - rewrite split_comma_none by apply format_int_no_comma.
    rewrite read_format_int. simpl. do 2 f_equal; lia.
  - rewrite split_comma_some by apply format_int_no_comma.
    rewrite !read_format_int. simpl.
    destruct (Z.eqb_spec (stop - start) 0); do 2 f_equal; lia.
Qed.

(** X18: the text of a range in a hunk header determines the range:
    [_format_range_unified] gives different texts for different ranges
    (an empty range, a range of one line and a longer range never read the
    same). *)
Theorem format_range_unified_inj (start1 stop1 start2 stop2 : Z) :
  Unified._format_range_unified start1 stop1 = Unified._format_range_unified start2 stop2 ->
  start1 = start2 /\ stop1 = stop2.
Proof.
  intros Heq. pose proof (read_format_range start1 stop1) as H1.
  rewrite Heq, read_format_range in H1. by injection H1 as <- <-.
Qed.

Lemma format_range_unified_inj_example :
  Unified._format_range_unified 3 4 = Unified._format_range_unified (2 + 1) (5 - 1) /\
  (3 = 2 + 1 /\ 4 = 5 - 1).
Proof.
  assert (Unified._format_range_unified 3 4 = Unified._format_range_unified (2 + 1) (5 - 1))
    as Heq by reflexivity.
  split; [exact Heq|]. exact (format_range_unified_inj 3 4 (2 + 1) (5 - 1) Heq).
Defined.

(** ** The function line of a hunk header *)

Section unified_diff_function.
Variables a b : list string.
Variable n : Z.
Variable lineterm : string.
Variable function_regexp : option (string -> bool).
Variable strip_function : bool.
Local Open Scope nat_scope.

(** Line [k] of [a] matches [function_regexp]. *)
Definition function_at (k : nat) : Prop :=
  exists line matches,
    a !! k = Some line /\ function_regexp = Some matches /\ matches line = true.

Definition function_text (k : nat) : string :=
  let line := default EmptyString (a !! k) in
  (" " +:+ (if strip_function then Unified.rstrip_string line else line))%string.

Local Abbreviation function_lines := (Unified.function_lines a function_regexp).

Lemma filter_enumerate (matches : string -> bool) (l : list string) : forall off,
  let found := map fst (List.filter (fun e : nat * string => matches e.2)
                          (imap (fun i x => (off + i, x)) l)) in
  StronglySorted lt found /\
  forall k, k ∈ found <->
    exists i line, k = off + i /\ l !! i = Some line /\ matches line = true.
Proof.
  induction l as [|x l IH]; intros off found.
  { subst found. simpl. split; [constructor|]. intros k. split; [by intros ?%not_elem_of_nil|].
    by intros (i & line & _ & ? & _). }
  subst found. cbn [imap List.filter].
  assert (imap ((fun i x => (off + i, x)) ∘ S) l = imap (fun i x => (S off + i, x)) l) as ->.
  { apply imap_ext. intros i y _. simpl. f_equal. lia. }
  destruct (IH (S off)) as [Hsorted Hin]. cbn [snd].
  assert (forall k, k ∈ map fst (List.filter (fun e : nat * string => matches e.2)
                                  (imap (fun i x => (S off + i, x)) l)) -> off + 0 < k) as Hlt.
  { intros k (i & line & -> & _)%Hin. lia. }
  destruct (matches x) eqn:Hx; cbn [map fst].
  - split.
    + constructor; [done|]. apply Forall_forall. intros k Hk. by apply Hlt.
    + intros k. rewrite elem_of_cons, Hin. split.
      * intros [->|(i & line & -> & Hi & Hm)]; [by exists 0, x|].
        exists (S i), line. split; [lia|done].
      * intros ([|i] & line & -> & Hi & Hm); [by left|].
        right. exists i, line. split; [lia|done].
  - split; [done|]. intros k. rewrite Hin. split.
    + intros (i & line & -> & Hi & Hm). exists (S i), line. split; [lia|done].
    + intros ([|i] & line & -> & Hi & Hm); [simpl in Hi; congruence|].
      exists i, line. split; [lia|done].
Qed.

Lemma function_lines_sorted : StronglySorted lt function_lines.
Proof.
  unfold Unified.function_lines. destruct function_regexp as [matches|]; [|constructor].
  exact (proj1 (filter_enumerate matches a 0)).
Qed.

Lemma function_lines_at (k : nat) : k ∈ function_lines <-> function_at k.
Proof.
  unfold Unified.function_lines, function_at. destruct function_regexp as [matches|].
  - rewrite (proj2 (filter_enumerate matches a 0) k). split.
    + intros (i & line & -> & Hi & Hm). by exists line, matches.
    + intros (line & matches' & Hk & [= <-] & Hm). by exists k, line.
  - split; [by intros ?%not_elem_of_nil|]. by intros (? & ? & _ & ? & _).
Qed.

(** The function lines before [limit]. *)
Definition function_count (limit : Z) : nat :=
  length (List.filter (fun k => (Z.of_nat k <? limit)%Z) function_lines).

Lemma sorted_below (limit : Z) (l : list nat) :
  StronglySorted lt l ->
  let c := length (List.filter (fun k => (Z.of_nat k <? limit)%Z) l) in
  forall i k, l !! i = Some k -> (Z.of_nat k < limit)%Z <-> i < c.
Proof.
  induction 1 as [|x l Hl IH Hx]; intros c i k; [done|]. subst c. cbn [List.filter].
  destruct (Z.ltb_spec (Z.of_nat x) limit) as [Hlt|Hge].
  - destruct i as [|i]; simpl.
    + intros [= <-]. split; [lia|done].
    + intros Hk. rewrite (IH i k Hk). lia.
  - assert (List.filter (fun k => (Z.of_nat k <? limit)%Z) l = []) as Hnone.
    { clear IH. induction l as [|y l IHl]; [done|]. simpl.
      apply Forall_cons in Hx as [Hy Hx]. apply StronglySorted_inv in Hl as [Hl _].
      destruct (Z.ltb_spec (Z.of_nat y) limit); [lia|]. by apply IHl. }
    rewrite Hnone. destruct i as [|i]; simpl.
    + intros [= <-]. split; lia.
    + intros Hk. pose proof (proj1 (IH i k Hk)) as Hi. rewrite Hnone in Hi. simpl in Hi.
      apply Forall_forall with (x := k) in Hx; [|by eapply list_elem_of_lookup_2]. lia.
Qed.

Lemma advance_count (limit : Z) (fuel : nat) : forall current_function,
  current_function <= function_count limit ->
  function_count limit - current_function <= fuel ->
  Unified.advance a function_regexp fuel current_function limit = function_count limit.
Proof.
  induction fuel as [|fuel IH]; intros cf Hcf Hfuel; [simpl; lia|].
  cbn [Unified.advance].
  destruct (function_lines !! cf) as [k|] eqn:Hk.
  - pose proof (sorted_below limit _ function_lines_sorted cf k Hk) as Hbelow.
    fold (function_count limit) in Hbelow.
    destruct (Z.ltb_spec (Z.of_nat k) limit); [apply IH; lia|lia].
  - apply lookup_ge_None in Hk.
    assert (function_count limit <= length function_lines); [|lia].
    unfold function_count. clear. induction function_lines as [|x l IHl]; [done|].
    simpl. destruct (_ <? _)%Z; simpl; lia.
Qed.

(** X19: the function line of a hunk header.  When [current_function] has
    not run past the function lines before [first[1] + n] (as at the first
    hunk, where it is 0), the [@@] line ends in the last line of [a] before
    position [first[1] + n] that matches [function_regexp], after a space,
    or in nothing when no such line exists; and [current_function] is left
    at the number of function lines before that position. *)
Theorem hunk_function_line (current_function : nat) (g : Unified.group) :
  let limit := (g.1.1.1.1.2 + n)%Z in
  current_function <= function_count limit ->
  exists shown,
    Unified.hunk a b n lineterm function_regexp strip_function current_function g =
      ((("@@ -" +:+ Unified._format_range_unified g.1.1.1.1.2 (List.last g.2 g.1).1.1.2 +:+
         " +" +:+ Unified._format_range_unified g.1.1.2 (List.last g.2 g.1).2 +:+
         " @@" +:+ shown +:+ lineterm)%string ::
        flat_map (Unified.opcode_lines a b) (g.1 :: g.2)),
       function_count limit) /\
    ((shown = EmptyString /\ forall k, function_at k -> (limit <= Z.of_nat k)%Z) \/
     (exists k, function_at k /\ (Z.of_nat k < limit)%Z /\ shown = function_text k /\
        forall k', function_at k' -> k < k' -> (limit <= Z.of_nat k')%Z)).
Proof.
  intros limit Hcf. unfold Unified.hunk. cbn [fst snd]. fold limit.
  pose proof (fun i k => sorted_below limit _ function_lines_sorted i k) as Hbelow.
  fold (function_count limit) in Hbelow.
  assert (match function_lines with
          | [] => current_function
          | _ :: _ => Unified.advance a function_regexp (length function_lines)
                        current_function limit
          end = function_count limit) as ->.
  { destruct function_lines as [|x l] eqn:Hfl.
    - unfold function_count in *. rewrite Hfl in *. simpl in *. lia.
    - rewrite <- Hfl. apply advance_count; [done|].
      assert (function_count limit <= length function_lines); [|lia].
      unfold function_count. clear. induction function_lines as [|y l' IHl]; [done|].
      simpl. destruct (_ <? _)%Z; simpl; lia. }
  eexists. split; [reflexivity|].
  destruct (function_count limit) as [|previous] eqn:Hcount.
  - left. split; [by destruct function_lines|].
    intros k (i & Hi)%function_lines_at%list_elem_of_lookup.
    apply Hbelow in Hi. lia.
  - right.
    assert (previous < length function_lines) as Hlen.
    { assert (function_count limit <= length function_lines); [|lia].
      unfold function_count. clear. induction function_lines as [|y l' IHl]; [done|].
      simpl. destruct (_ <? _)%Z; simpl; lia. }
    destruct (lookup_lt_is_Some_2 _ _ Hlen) as [k Hk].
    exists k. split; [apply function_lines_at; by eapply list_elem_of_lookup_2|].
    split; [apply (Hbelow previous k Hk); lia|]. split.
    + destruct function_lines as [|x l]; [done|]. rewrite Hk. reflexivity.
    + intros k' (i' & Hi')%function_lines_at%list_elem_of_lookup Hlt.
      destruct (decide (i' <= previous)) as [Hle|Hgt].
      * pose proof (sorted_lookup_gap _ function_lines_sorted i' previous k' k Hle Hi' Hk).
        lia.
      * pose proof (Hbelow i' k' Hi'). lia.
Qed.

End unified_diff_function.

Lemma hunk_function_line_example :
  let a := lines ["def f():"; "  x = 1"; "def g():"; "  y = 2"; "  z = 3"] in
  let b := lines ["def f():"; "  x = 1"; "def g():"; "  y = 2"; "  z = 4"] in
  let function_regexp := Some (String.prefix "def") in
  let g : Unified.group := ((Replace, 4, 5, 4, 5), []) in
  (0 <= function_count a function_regexp (4 + 0))%nat /\
  exists shown,
    Unified.hunk a b 0 nl function_regexp true 0 g =
      ((("@@ -" +:+ Unified._format_range_unified 4 5 +:+
         " +" +:+ Unified._format_range_unified 4 5 +:+
         " @@" +:+ shown +:+ nl)%string ::
        flat_map (Unified.opcode_lines a b) (g.1 :: g.2)),
       function_count a function_regexp (4 + 0)) /\
    ((shown = EmptyString /\
      forall k, function_at a function_regexp k -> 4 + 0 <= Z.of_nat k) \/
     (exists k, function_at a function_regexp k /\ Z.of_nat k < 4 + 0 /\
        shown = function_text a true k /\
        forall k', function_at a function_regexp k' -> (k < k')%nat -> 4 + 0 <= Z.of_nat k')).
Proof.
  intros a b function_regexp g.
  split; [apply Nat.le_0_l|].
  exact (hunk_function_line a b 0 nl function_regexp true 0 g (Nat.le_0_l _)).
Defined.
